(** * Verification of the cmu-db-rs storage core

    A shallow embedding of the page records of the extendible hash table
    ([storage/extendible_hash_table/*.rs]), of the table's insert/get
    protocol ([extendible_hash_table.rs]), of the LRU-K replacer
    ([lru_k_replacer.rs]) and of the buffer pool manager
    ([buffer_pool_manager.rs], [page.rs]).

    Conventions.
    - [usize] / [u32] indices and depths are [nat].  Arithmetic overflow
      is a panic, as in a build with overflow checks (the default [dev]
      and [test] profiles): the [+= 1] of the [u32] global and local
      depths panics at [u32::MAX], and the powers [2_u32.pow] /
      [2_usize.pow] of the header page panic from exponent 32 / 64 on.
      The masks and sizes of the directory page ([1 << depth],
      [2_usize.pow(global_depth)]) are computed on [nat]; they agree with
      the source for depths below 32.  Allocation failure is not modelled.
      Pin counters are [AtomicUsize], whose [fetch_add] / [fetch_sub] wrap
      modulo 2^64, which is written out.
    - A Rust panic ([unwrap] on [None], an index out of bounds) is [None]
      in [option]-valued helpers and [RPanic] / [Abort] in result types. *)

From Stdlib Require Import Arith ZArith Lia List Permutation Sorted.
From stdpp Require Import base list gmap.

(** ** Errors *)

(** [error.rs] *)
Inductive ExtendibleHashTableError :=
| DirectoryMaxSizeReached
| NoDirectoryForPageId
| NoBucketForPageId
| Unknown.

(** [Result<A, ExtendibleHashTableError>], plus a panic. *)
Inductive res (A : Type) :=
| ROk (a : A)
| RErr (e : ExtendibleHashTableError)
| RPanic.
Arguments ROk {A} a.
Arguments RErr {A} e.
Arguments RPanic {A}.

(** ** Directory page ([extendible_hash_table_directory_page.rs]) *)

Module Directory.

Record ExtendibleHTableDirectoryPage := mkDir {
  bucket_page_ids : list nat;
  local_depths : list nat;
  max_depth : nat;
  global_depth : nat
}.

(** [new]: no bucket page yet, but one local depth. *)
Definition new (max_depth : nat) : ExtendibleHTableDirectoryPage :=
  mkDir [] [0] max_depth 0.

Definition get_global_depth (d : ExtendibleHTableDirectoryPage) : nat :=
  global_depth d.

Definition get_global_depth_mask (d : ExtendibleHTableDirectoryPage) : nat :=
  if get_global_depth d =? 0 then 0 else 2 ^ get_global_depth d - 1.

Definition hash_to_bucket_index (d : ExtendibleHTableDirectoryPage) (hash : nat) : nat :=
  Nat.land hash (get_global_depth_mask d).

Definition get_bucket_page_id (d : ExtendibleHTableDirectoryPage) (i : nat) : option nat :=
  bucket_page_ids d !! i.

Definition get_local_depth (d : ExtendibleHTableDirectoryPage) (i : nat) : option nat :=
  local_depths d !! i.

(** [get_split_image_index]: [None] is the panic of its [unwrap]. *)
Definition get_split_image_index (d : ExtendibleHTableDirectoryPage) (i : nat) : option nat :=
  match get_local_depth d i with
  | None => None
  | Some ld => Some (if ld =? 0 then 0 else Nat.lxor i (Nat.shiftl 1 (ld - 1)))
  end.

Definition get_size (d : ExtendibleHTableDirectoryPage) : nat := 2 ^ global_depth d.

(** [u32::MAX]. *)
Definition u32_max : Z := 2 ^ 32 - 1.

(** The copy loop of [increment_global_depth]:
    [for i in 0..old_size { new_local_depths[i] = local_depth;
     new_local_depths[i + old_size] = local_depth; ... }].
    [None] is an index out of bounds on [self.local_depths[i]]. *)
Fixpoint copy_loop (ids lds : list nat) (old_size : nat) (is : list nat)
    (acc : list nat * list nat) : option (list nat * list nat) :=
  match is with
  | [] => Some acc
  | i :: rest =>
      match ids !! i, lds !! i with
      | Some bucket_page_id, Some local_depth =>
          let '(nids, nlds) := acc in
          copy_loop ids lds old_size rest
            (<[i + old_size := bucket_page_id]> (<[i := bucket_page_id]> nids),
             <[i + old_size := local_depth]> (<[i := local_depth]> nlds))
      | _, _ => None
      end
  end.

Definition increment_global_depth (d : ExtendibleHTableDirectoryPage)
    : res ExtendibleHTableDirectoryPage :=
  if global_depth d =? max_depth d then RErr DirectoryMaxSizeReached
  else
    let old_size := length (bucket_page_ids d) in
    let new_size := 2 * old_size in
    match copy_loop (bucket_page_ids d) (local_depths d) old_size (seq 0 old_size)
            (replicate new_size 0, replicate new_size 0) with
    | None => RPanic
    | Some (nids, nlds) =>
        (* [self.global_depth += 1] overflows the [u32] at [u32::MAX] *)
        if (Z.of_nat (global_depth d) <? u32_max)%Z
        then ROk (mkDir nids nlds (max_depth d) (S (global_depth d)))
        else RPanic
    end.

(** [increment_local_depth]: [self.local_depths[i] += 1]; [None] is the
    panic of an index out of bounds or of the [u32] overflow. *)
Definition increment_local_depth (d : ExtendibleHTableDirectoryPage) (i : nat)
    : option ExtendibleHTableDirectoryPage :=
  match local_depths d !! i with
  | None => None
  | Some ld =>
      if (Z.of_nat ld <? u32_max)%Z
      then Some (mkDir (bucket_page_ids d) (<[i := S ld]> (local_depths d))
                  (max_depth d) (global_depth d))
      else None
  end.

(** [set_bucket_page_id]: pushes a 0 into an empty vector first. *)
Definition set_bucket_page_id (d : ExtendibleHTableDirectoryPage) (i p : nat)
    : option ExtendibleHTableDirectoryPage :=
  let ids := match bucket_page_ids d with [] => [0] | l => l end in
  if i <? length ids then
    Some (mkDir (<[i := p]> ids) (local_depths d) (max_depth d) (global_depth d))
  else None.

(** [init]: [if self.local_depths.len() == 0 { self.local_depths.push(0);
    self.bucket_page_ids.push(page_id); }]. *)
Definition init (d : ExtendibleHTableDirectoryPage) (page_id : nat) : ExtendibleHTableDirectoryPage :=
  if length (local_depths d) =? 0
  then mkDir (bucket_page_ids d ++ [page_id]) (local_depths d ++ [0]) (max_depth d) (global_depth d)
  else d.

(** [get_local_depth_mask]: [(1 << local_depth) - 1]; [None] is the panic
    of its [unwrap]. *)
Definition get_local_depth_mask (d : ExtendibleHTableDirectoryPage) (i : nat) : option nat :=
  match get_local_depth d i with
  | None => None
  | Some local_depth => Some (2 ^ local_depth - 1)
  end.

(** [Vec::resize(new_len, value)]: truncates, or extends with [value]. *)
Definition resize (new_len value : nat) (l : list nat) : list nat :=
  take new_len l ++ replicate (new_len - length l) value.

(** [decrement_global_depth]: both vectors are resized to half the length
    of [bucket_page_ids].  [self.global_depth -= 1] overflows at 0 (a
    panic, [None]). *)
Definition decrement_global_depth (d : ExtendibleHTableDirectoryPage)
    : option ExtendibleHTableDirectoryPage :=
  let old_size := length (bucket_page_ids d) in
  match global_depth d with
  | 0 => None
  | S g => Some (mkDir (resize (old_size / 2) 0 (bucket_page_ids d))
                       (resize (old_size / 2) 0 (local_depths d)) (max_depth d) g)
  end.

(** [set_local_depth]: [self.local_depths[bucket_index] = local_depth]. *)
Definition set_local_depth (d : ExtendibleHTableDirectoryPage) (i local_depth : nat)
    : option ExtendibleHTableDirectoryPage :=
  if i <? length (local_depths d)
  then Some (mkDir (bucket_page_ids d) (<[i := local_depth]> (local_depths d))
                   (max_depth d) (global_depth d))
  else None.


(** [is_full]: the bucket index is ignored. *)
Definition is_full (d : ExtendibleHTableDirectoryPage) (bucket_index : nat) : bool :=
  global_depth d =? max_depth d.


(** The two directory updates performed by a split in
    [ExtendibleHashTable::insert_internal].

    With [should_double_size]:
    [increment_local_depth(bucket_index); increment_global_depth()?;
     let split_image_index = get_split_image_index(bucket_index);
     set_bucket_page_id(split_image_index, new_page_id)]. *)
Definition split_double (d : ExtendibleHTableDirectoryPage) (bucket_index new_page_id : nat)
    : res ExtendibleHTableDirectoryPage :=
  match increment_local_depth d bucket_index with
  | None => RPanic
  | Some d1 =>
      match increment_global_depth d1 with
      | RErr e => RErr e
      | RPanic => RPanic
      | ROk d2 =>
          match get_split_image_index d2 bucket_index with
          | None => RPanic
          | Some s =>
              match set_bucket_page_id d2 s new_page_id with
              | None => RPanic
              | Some d3 => ROk d3
              end
          end
      end
  end.

(** Without doubling:
    [for index in 0..directory.get_size() {
       let other_bucket_index = index & local_depth_mask;
       if aligned_bucket_index == other_bucket_index {
         directory.increment_local_depth(index);
         let split_image_index = directory.get_split_image_index(index);
         directory.increment_local_depth(split_image_index);
         directory.set_bucket_page_id(split_image_index, new_page_id); } }]. *)
Fixpoint split_loop (d : ExtendibleHTableDirectoryPage) (local_depth_mask aligned_bucket_index
    new_page_id : nat) (is : list nat) : option ExtendibleHTableDirectoryPage :=
  match is with
  | [] => Some d
  | index :: rest =>
      if aligned_bucket_index =? Nat.land index local_depth_mask then
        increment_local_depth d index ≫= λ d1,
        get_split_image_index d1 index ≫= λ s,
        increment_local_depth d1 s ≫= λ d2,
        set_bucket_page_id d2 s new_page_id ≫= λ d3,
        split_loop d3 local_depth_mask aligned_bucket_index new_page_id rest
      else split_loop d local_depth_mask aligned_bucket_index new_page_id rest
  end.

(** [verify_integrity]: the two hash maps [page_id_to_count] and
    [page_id_to_ld], then the count check.  [None] is a failed assertion
    (or an index out of bounds). *)
Fixpoint verify_loop (ids lds : list nat) (gd : nat) (is : list nat)
    (page_id_to_count page_id_to_ld : gmap nat nat) : option (gmap nat nat * gmap nat nat) :=
  match is with
  | [] => Some (page_id_to_count, page_id_to_ld)
  | curr_idx :: rest =>
      match ids !! curr_idx, lds !! curr_idx with
      | Some curr_page_id, Some curr_ld =>
          if curr_ld <=? gd then
            let page_id_to_count' :=
              <[curr_page_id := S (default 0 (page_id_to_count !! curr_page_id))]> page_id_to_count in
            match page_id_to_ld !! curr_page_id with
            | Some old_ld =>
                if curr_ld =? old_ld
                then verify_loop ids lds gd rest page_id_to_count' page_id_to_ld
                else None
            | None =>
                verify_loop ids lds gd rest page_id_to_count'
                  (<[curr_page_id := curr_ld]> page_id_to_ld)
            end
          else None
      | _, _ => None
      end
  end.

Definition verify_integrity (d : ExtendibleHTableDirectoryPage) : option unit :=
  match verify_loop (bucket_page_ids d) (local_depths d) (global_depth d)
          (seq 0 (length (bucket_page_ids d))) ∅ ∅ with
  | None => None
  | Some (page_id_to_count, page_id_to_ld) =>
      if forallb (λ '(curr_page_id, curr_count),
            match page_id_to_ld !! curr_page_id with
            | Some curr_ld => curr_count =? 2 ^ (global_depth d - curr_ld)
            | None => false
            end) (map_to_list page_id_to_count)
      then Some tt else None
  end.

End Directory.

(** ** Header page ([extendible_hash_table_header_page.rs]) *)

Module Header.

Record ExtendibleHTableHeaderPage := mkHeader {
  directory_page_ids : list (option nat);
  max_depth : nat
}.

(** [vec![None; 2_usize.pow(max_depth)]]; [None] is the panic of the
    [usize] power, which overflows from [max_depth = 64] on. *)
Definition new (max_depth : nat) : option ExtendibleHTableHeaderPage :=
  if max_depth <? 64 then Some (mkHeader (replicate (2 ^ max_depth) None) max_depth)
  else None.

(** [(hash & (2_u32.pow(self.max_depth) - 1)) as usize]; [None] is the
    panic of the [u32] power, which overflows from [max_depth = 32] on. *)
Definition hash_to_directory_index (h : ExtendibleHTableHeaderPage) (hash : nat) : option nat :=
  if max_depth h <? 32 then Some (Nat.land hash (2 ^ max_depth h - 1)) else None.

Definition get_directory_page_id (h : ExtendibleHTableHeaderPage) (i : nat) : option nat :=
  match directory_page_ids h !! i with
  | Some (Some p) => Some p
  | _ => None
  end.

Definition set_directory_page_id (h : ExtendibleHTableHeaderPage) (i p : nat)
    : option ExtendibleHTableHeaderPage :=
  if i <? length (directory_page_ids h)
  then Some (mkHeader (<[i := Some p]> (directory_page_ids h)) (max_depth h))
  else None.

(** [2_u32.pow(self.max_depth) as usize]: the same [u32] power. *)
Definition get_max_size (h : ExtendibleHTableHeaderPage) : option nat :=
  if max_depth h <? 32 then Some (2 ^ max_depth h) else None.

End Header.

(** ** Bucket page ([extendible_hash_table_bucket_page.rs])

    The [HashMap<K, V>] is an association list with unique keys. *)

Module Bucket.
Section Bucket.
Context {K V : Type} `{EqDecision K}.

Record ExtendibleHTableBucketPage := mkBucket {
  max_size : nat;
  data : list (K * V)
}.

Definition new (max_size : nat) : ExtendibleHTableBucketPage := mkBucket max_size [].

(** [HashMap::insert]: replaces the value of a present key. *)
Fixpoint map_insert (l : list (K * V)) (k : K) (v : V) : list (K * V) :=
  match l with
  | [] => [(k, v)]
  | (k', v') :: r => if decide (k = k') then (k, v) :: r else (k', v') :: map_insert r k v
  end.

Fixpoint map_get (l : list (K * V)) (k : K) : option V :=
  match l with
  | [] => None
  | (k', v') :: r => if decide (k = k') then Some v' else map_get r k
  end.

Definition insert (b : ExtendibleHTableBucketPage) (k : K) (v : V) : ExtendibleHTableBucketPage :=
  mkBucket (max_size b) (map_insert (data b) k v).

Definition get (b : ExtendibleHTableBucketPage) (k : K) : option V := map_get (data b) k.

Definition is_full (b : ExtendibleHTableBucketPage) : bool := length (data b) =? max_size b.

Definition is_empty (b : ExtendibleHTableBucketPage) : bool := length (data b) =? 0.

(** [HashMap::remove]: the value of the key, and the map without it. *)
Fixpoint map_remove (l : list (K * V)) (k : K) : option V * list (K * V) :=
  match l with
  | [] => (None, [])
  | (k', v') :: r =>
      if decide (k = k') then (Some v', r)
      else let '(o, r') := map_remove r k in (o, (k', v') :: r')
  end.

(** [delete]: [self.data.remove(&key)]. *)
Definition delete (b : ExtendibleHTableBucketPage) (k : K) : option V * ExtendibleHTableBucketPage :=
  let '(o, l) := map_remove (data b) k in (o, mkBucket (max_size b) l).

(** [lookup]: a stub returning [false]. *)
Definition lookup (b : ExtendibleHTableBucketPage) (k : K) (v : V) : bool := false.

Definition get_max_size (b : ExtendibleHTableBucketPage) : nat := max_size b.

Definition get_size (b : ExtendibleHTableBucketPage) : nat := length (data b).

End Bucket.
End Bucket.

(** ** The extendible hash table ([extendible_hash_table.rs]) *)

Module Table.
Import Directory.
Section Table.
Context {K V : Type} `{EqDecision K}.

(** [hash_string(key.to_string())]: the [u32] hash of a key, left abstract. *)
Variable hash_string : K -> nat.

(** The order in which [HashMap::drain] yields the entries of a bucket. *)
Variable drain_order : list (K * V) -> list (K * V).

Local Abbreviation Bucket := (@Bucket.ExtendibleHTableBucketPage K V).

(** What a page's bytes hold: the record last serialised into it, or the
    zeroes a frame holds after [Page::reset]. *)
Inductive page_data :=
| Zeroed
| HeaderData (h : Header.ExtendibleHTableHeaderPage)
| DirectoryData (d : ExtendibleHTableDirectoryPage)
| BucketData (b : Bucket).

(** [bincode::deserialize(..).unwrap()] of each record; zero bytes decode
    to empty vectors and zero integers. *)
Definition decode_header (p : page_data) : option Header.ExtendibleHTableHeaderPage :=
  match p with
  | Zeroed => Some (Header.mkHeader [] 0)
  | HeaderData h => Some h
  | _ => None
  end.

Definition decode_directory (p : page_data) : option ExtendibleHTableDirectoryPage :=
  match p with
  | Zeroed => Some (mkDir [] [] 0 0)
  | DirectoryData d => Some d
  | _ => None
  end.

Definition decode_bucket (p : page_data) : option Bucket :=
  match p with
  | Zeroed => Some (Bucket.new 0)
  | BucketData b => Some b
  | _ => None
  end.

(** [get_entries]: [self.data.drain().collect()]. *)
Definition get_entries (b : Bucket) : list (K * V) * Bucket :=
  (drain_order (Bucket.data b), Bucket.mkBucket (Bucket.max_size b) []).

(** The buffer pool as the table uses it.  The table never calls
    [unpin_page], and [new_page] / [fetch_page_*] leave every frame they
    hand out non-evictable, so a page of the table stays resident: a fetch
    of one of its pages is a page-table hit on the frame that holds it, and
    [new_page] returns [None] once the free list is empty (the replacer has
    no evictable node).  [pages] maps each resident page id to its
    contents, [next_page_id] is the counter of [allocate_page]. *)
Record Pool := mkPool {
  pages : gmap nat page_data;
  next_page_id : nat;
  free_frames : nat
}.

(** [BufferPoolManager::new(disk, pool_size, k)]. *)
Definition pool_init (pool_size : nat) : Pool := mkPool ∅ 0 pool_size.

(** A state and error monad over the pool; [Abort] is a panic. *)
Inductive outcome (A : Type) :=
| Done (a : A) (p : Pool)
| Failed (e : ExtendibleHashTableError) (p : Pool)
| Abort.
#[global] Arguments Done {A} a p.
#[global] Arguments Failed {A} e p.
#[global] Arguments Abort {A}.

Definition M (A : Type) := Pool -> outcome A.

Definition ret {A} (a : A) : M A := λ p, Done a p.
Definition bind {A B} (m : M A) (f : A -> M B) : M B :=
  λ p, match m p with
       | Done a p' => f a p'
       | Failed e p' => Failed e p'
       | Abort => Abort
       end.
Definition abort {A} : M A := λ _, Abort.
Definition unwrap {A} (o : option A) : M A :=
  match o with Some a => ret a | None => abort end.
Definition lift_res {A} (r : res A) : M A :=
  match r with ROk a => ret a | RErr e => λ p, Failed e p | RPanic => abort end.

Local Notation "'let*' x := m 'in' k" := (bind m (λ x, k))
  (at level 200, x name, m at level 100, right associativity).

(** [new_page().unwrap()] followed by [get_id().unwrap()]. *)
Definition new_page : M nat :=
  λ p, if free_frames p =? 0 then Abort
       else let page_id := S (next_page_id p) in
            Done page_id (mkPool (<[page_id := Zeroed]> (pages p)) page_id (pred (free_frames p))).

(** [fetch_page_read(id).unwrap()] / [fetch_page_write(id).unwrap()]. *)
Definition fetch (page_id : nat) : M page_data :=
  λ p, match pages p !! page_id with Some d => Done d p | None => Abort end.

(** [page.set_data(bytes)]. *)
Definition set_data (page_id : nat) (d : page_data) : M unit :=
  λ p, Done tt (mkPool (<[page_id := d]> (pages p)) (next_page_id p) (free_frames p)).

Record ExtendibleHashTable := mkTable {
  directory_max_depth : nat;
  bucket_max_size : nat;
  header_page_id : nat
}.

(** [ExtendibleHashTable::new]: the header is created with max depth
    [header_max_size = 0]. *)
Definition new (directory_max_depth bucket_max_size : nat) : M ExtendibleHashTable :=
  let header_max_size := 0 in
  let* header_page_id := new_page in
  let* header := unwrap (Header.new header_max_size) in
  let* _ := set_data header_page_id (HeaderData header) in
  ret (mkTable directory_max_depth bucket_max_size header_page_id).

(** [for entry in all_entries { self.insert_internal(entry.0, entry.1,
    directory, directory_page)? }], the directory threaded through. *)
Fixpoint reinsert_entries
    (ins : K -> V -> ExtendibleHTableDirectoryPage -> M ExtendibleHTableDirectoryPage)
    (entries : list (K * V)) (directory : ExtendibleHTableDirectoryPage)
    : M ExtendibleHTableDirectoryPage :=
  match entries with
  | [] => ret directory
  | (k, v) :: rest =>
      let* directory := ins k v directory in
      reinsert_entries ins rest directory
  end.

(** [insert_internal].  The recursion on the drained entries is bounded
    by [fuel]; [Abort] when it runs out. *)
Fixpoint insert_internal (fuel : nat) (t : ExtendibleHashTable) (key : K) (value : V)
    (directory : ExtendibleHTableDirectoryPage) (directory_page : nat)
    : M ExtendibleHTableDirectoryPage :=
  match fuel with
  | 0 => abort
  | S fuel' =>
  let insertion_key_hash := hash_string key in
  let bucket_index := hash_to_bucket_index directory insertion_key_hash in
  let* bbd := (match get_bucket_page_id directory bucket_index with
          | Some bucket_page_id =>
              let* pg := fetch bucket_page_id in
              let* bucket := unwrap (decode_bucket pg) in
              ret (bucket, bucket_page_id, directory)
          | None =>
              let* bucket_page_id := new_page in
              let* directory := unwrap (set_bucket_page_id directory bucket_index bucket_page_id) in
              ret (Bucket.new (bucket_max_size t), bucket_page_id, directory)
          end) in
  let '(bucket, bucket_page, directory) := bbd in
  if negb (Bucket.is_full bucket) then
    let* _ := set_data bucket_page (BucketData (Bucket.insert bucket key value)) in
    let* _ := set_data directory_page (DirectoryData directory) in
    ret directory
  else
    let* local_depth := unwrap (get_local_depth directory bucket_index) in
    let global_depth := get_global_depth directory in
    let should_double_size := local_depth =? global_depth in
    let* new_page_id := new_page in
    let* _ := set_data new_page_id (BucketData (Bucket.new (bucket_max_size t))) in
    let* ld := unwrap (get_local_depth directory bucket_index) in
    let bucket_next_local_depth := S ld in
    let local_depth_mask := 2 ^ bucket_next_local_depth - 1 in
    let aligned_bucket_index := Nat.land bucket_index local_depth_mask in
    let* directory := (if should_double_size
                  then lift_res (split_double directory bucket_index new_page_id)
                  else unwrap (split_loop directory local_depth_mask aligned_bucket_index
                                 new_page_id (seq 0 (get_size directory)))) in
    let '(all_entries, bucket) := get_entries bucket in
    let* _ := set_data directory_page (DirectoryData directory) in
    let* _ := set_data bucket_page (BucketData bucket) in
    reinsert_entries (λ k v directory, insert_internal fuel' t k v directory directory_page)
      (all_entries ++ [(key, value)]) directory
  end.

(** [insert]. *)
Definition insert (fuel : nat) (t : ExtendibleHashTable) (key : K) (value : V) : M unit :=
  let* hp := fetch (header_page_id t) in
  let* header := unwrap (decode_header hp) in
  let insertion_key_hash := hash_string key in
  let* directory_index := unwrap (Header.hash_to_directory_index header insertion_key_hash) in
  let* dd := (match Header.get_directory_page_id header directory_index with
         | Some directory_page_id =>
             let* pg := fetch directory_page_id in
             let* directory := unwrap (decode_directory pg) in
             ret (directory, directory_page_id)
         | None =>
             let* directory_page_id := new_page in
             let* header := unwrap (Header.set_directory_page_id header directory_index directory_page_id) in
             let* _ := set_data (header_page_id t) (HeaderData header) in
             ret (Directory.new (directory_max_depth t), directory_page_id)
         end) in
  let '(directory, directory_page) := dd in
  let* _ := insert_internal fuel t key value directory directory_page in
  ret tt.

(** [get]: every lookup is [unwrap]ped. *)
Definition get (t : ExtendibleHashTable) (key : K) : M (option V) :=
  let hash := hash_string key in
  let* hp := fetch (header_page_id t) in
  let* header := unwrap (decode_header hp) in
  let* directory_index := unwrap (Header.hash_to_directory_index header hash) in
  let* directory_page_id := unwrap (Header.get_directory_page_id header directory_index) in
  let* dp := fetch directory_page_id in
  let* directory := unwrap (decode_directory dp) in
  let bucket_index := hash_to_bucket_index directory hash in
  let* bucket_page_id := unwrap (get_bucket_page_id directory bucket_index) in
  let* bp := fetch bucket_page_id in
  let* bucket := unwrap (decode_bucket bp) in
  ret (Bucket.get bucket key).

(** [verify_integrity]: its whole body is commented out. *)
Definition verify_integrity (t : ExtendibleHashTable) : M unit := ret tt.

End Table.
End Table.

(** ** LRU-K replacer ([lru_k_replacer.rs])

    Timestamps are the [u128] nanoseconds of [get_now_ts]; the clock is
    part of the replacer state and advances at each [record_access].
    This is a logical clock: [SystemTime::now()] itself can repeat a
    value or go backwards, so a property that rests on the timestamps
    being strictly increasing holds of this model only.
    [evict] reads the clock several times; all those reads are taken to
    be the same instant [now].  [LruKNode::new] asserts [k > 0]; the
    model does not panic there, and the statements about reachable
    replacers assume [0 < k] instead.  The [HashMap] node store is an
    association list in iteration order. *)

Module LruK.
Open Scope Z_scope.

Definition usize_max : Z := 2 ^ 64 - 1.

Record LruKNode := mkNode {
  k : nat;
  frame_id : nat;
  is_evictable : bool;
  history : list Z  (* newest access first *)
}.

Definition node_new (frame_id : nat) (k : nat) (now : Z) : LruKNode :=
  mkNode k frame_id false [now].

(** [push_front(now)], then [pop_back()] once the history exceeds [k]. *)
Definition node_record_access (n : LruKNode) (now : Z) : LruKNode :=
  let h := now :: history n in
  mkNode (k n) (frame_id n) (is_evictable n)
    (if (k n <? length h)%nat then removelast h else h).

(** [k_distance]: [None] (infinite) with fewer than [k] samples, else
    [(now - history[len - 1]) as usize]. *)
Definition k_distance (n : LruKNode) (now : Z) : option Z :=
  if (length (history n) <? k n)%nat then None
  else match last (history n) with
       | Some kth_history_entry => Some ((now - kth_history_entry) mod 2 ^ 64)
       | None => None  (* unreachable: a node is created with one sample *)
       end.

(** [least_recent_access]: [self.history[0]], the newest sample. *)
Definition least_recent_access (n : LruKNode) : Z := hd 0 (history n).

Record LruKReplacer := mkReplacer {
  num_of_frames : nat;
  replacer_k : nat;
  node_store : list (nat * LruKNode);
  clock : Z
}.

Definition new (num_of_frames k : nat) : LruKReplacer := mkReplacer num_of_frames k [] 1.

Definition dist_or_max (n : LruKNode) (now : Z) : Z :=
  match k_distance n now with Some d => d | None => usize_max end.

(** [Iterator::max_by]: the last of several maximal elements. *)
Definition max_by {A} (f : A -> Z) (l : list A) : option A :=
  fold_left (λ acc y, match acc with
                      | None => Some y
                      | Some x => if f y <? f x then Some x else Some y
                      end) l None.

(** [Iterator::min_by]: the first of several minimal elements. *)
Definition min_by {A} (f : A -> Z) (l : list A) : option A :=
  fold_left (λ acc y, match acc with
                      | None => Some y
                      | Some x => if f y <? f x then Some y else Some x
                      end) l None.

Definition evict (r : LruKReplacer) (now : Z) : option nat :=
  match max_by (λ '(_, n), dist_or_max n now) (node_store r) with
  | None => None
  | Some (_, longest_k_distance_node) =>
      let longest_k_distance := dist_or_max longest_k_distance_node now in
      let nodes_with_longest_k_distance :=
        List.filter (λ '(_, value), is_evictable value
                                    && (dist_or_max value now =? longest_k_distance))
          (node_store r) in
      if (length nodes_with_longest_k_distance =? 1)%nat
      then option_map fst (head nodes_with_longest_k_distance)
      else option_map fst
             (min_by snd (map (λ '(key, value), (key, least_recent_access value))
                            nodes_with_longest_k_distance))
  end.

Fixpoint store_lookup (l : list (nat * LruKNode)) (f : nat) : option LruKNode :=
  match l with
  | [] => None
  | (f', n) :: r => if (f =? f')%nat then Some n else store_lookup r f
  end.

Fixpoint store_update (l : list (nat * LruKNode)) (f : nat) (g : LruKNode -> LruKNode)
    : list (nat * LruKNode) :=
  match l with
  | [] => []
  | (f', n) :: r => if (f =? f')%nat then (f', g n) :: r else (f', n) :: store_update r f g
  end.

Definition record_access (r : LruKReplacer) (frame_id : nat) : LruKReplacer :=
  let now := clock r in
  let store :=
    match store_lookup (node_store r) frame_id with
    | Some _ => store_update (node_store r) frame_id (λ n, node_record_access n now)
    | None => node_store r ++ [(frame_id, node_new frame_id (replacer_k r) now)]
    end in
  mkReplacer (num_of_frames r) (replacer_k r) store (now + 1).

Definition remove (r : LruKReplacer) (frame_id : nat) : LruKReplacer :=
  mkReplacer (num_of_frames r) (replacer_k r)
    (List.filter (λ '(f, _), negb (f =? frame_id)%nat) (node_store r)) (clock r).

Definition set_evictable (r : LruKReplacer) (frame_id : nat) (b : bool) : LruKReplacer :=
  mkReplacer (num_of_frames r) (replacer_k r)
    (store_update (node_store r) frame_id
       (λ n, mkNode (k n) (LruK.frame_id n) b (history n))) (clock r).

Definition size (r : LruKReplacer) : nat :=
  length (List.filter (λ '(_, n), is_evictable n) (node_store r)).

Close Scope Z_scope.
End LruK.

(** ** Buffer pool manager ([buffer_pool_manager.rs], [page.rs]) *)

Module Bpm.

Definition PAGE_SIZE : nat := 4096.

(** [Page]: the frame. [pin_count] is an [AtomicUsize]. *)
Record Page := mkPage {
  id : option nat;
  data : list nat;
  pin_count : Z;
  is_dirty : bool
}.

Definition page_new : Page := mkPage None (replicate PAGE_SIZE 0) 0 false.

Definition reset (p : Page) : Page := mkPage None (replicate PAGE_SIZE 0) 0 false.

(** [fetch_add(1)] / [fetch_sub(1)]: wrap modulo 2^64. *)
Definition pin (p : Page) : Page :=
  mkPage (id p) (data p) ((pin_count p + 1) mod 2 ^ 64) (is_dirty p).
Definition unpin (p : Page) : Page :=
  mkPage (id p) (data p) ((pin_count p - 1) mod 2 ^ 64) (is_dirty p).
Definition is_pinned (p : Page) : bool := (0 <? pin_count p)%Z.
Definition set_dirty (p : Page) (b : bool) : Page := mkPage (id p) (data p) (pin_count p) b.
Definition set_id (p : Page) (i : nat) : Page := mkPage (Some i) (data p) (pin_count p) (is_dirty p).

Record BufferPoolManager := mkBpm {
  free_list : list nat;
  pages : list Page;
  replacer : LruK.LruKReplacer;
  pages_map : gmap nat nat;
  next_page_id : nat
}.

(** [Ok], an [anyhow] error, or no return at all: a panic, a
    [receiver.recv()] whose [sender] is still alive, which blocks forever,
    or a lock that the calling thread already holds. *)
Inductive outcome (A : Type) :=
| BOk (a : A) (s : BufferPoolManager)
| BErr (s : BufferPoolManager)
| Stuck.
Arguments BOk {A} a s.
Arguments BErr {A} s.
Arguments Stuck {A}.

Definition new (pool_size replacer_k : nat) : BufferPoolManager :=
  mkBpm (seq 0 pool_size) (replicate pool_size page_new)
    (LruK.new pool_size replacer_k) ∅ 0.

(** [free_list.pop().or_else(|| replacer.evict())]. *)
Definition take_frame (s : BufferPoolManager) : option nat * list nat :=
  match last (free_list s) with
  | Some f => (Some f, removelast (free_list s))
  | None => (LruK.evict (replacer s) (LruK.clock (replacer s)), free_list s)
  end.

(** [new_page]: the returned write guard is that of frame [frame_id]. *)
Definition new_page (s : BufferPoolManager) : outcome (option nat) :=
  let '(frame_id, free_list') := take_frame s in
  match frame_id with
  | None => BOk None (mkBpm free_list' (pages s) (replacer s) (pages_map s) (next_page_id s))
  | Some frame_id =>
      let page_id := S (next_page_id s) in
      match pages s !! frame_id with
      | None => Stuck
      | Some page =>
          if is_dirty page then Stuck
          else
            let page' := set_id (reset page) page_id in
            let r := LruK.set_evictable (LruK.record_access (replacer s) frame_id) frame_id false in
            BOk (Some frame_id)
              (mkBpm free_list' (<[frame_id := page']> (pages s)) r
                 (<[page_id := frame_id]> (pages_map s)) page_id)
      end
  end.

(** [fetch_page_read] and [fetch_page_write] share this control flow:
    a page-table hit returns the guard at once; a miss with a frame
    blocks on the read's [receiver.recv()]. *)
Definition fetch_page (s : BufferPoolManager) (page_id : nat) : outcome (option nat) :=
  match pages_map s !! page_id with
  | Some frame_id =>
      match pages s !! frame_id with
      | Some _ => BOk (Some frame_id) s
      | None => Stuck
      end
  | None =>
      let '(frame_id, free_list') := take_frame s in
      match frame_id with
      | None => BOk None (mkBpm free_list' (pages s) (replacer s) (pages_map s) (next_page_id s))
      | Some frame_id =>
          match pages s !! frame_id with
          | None => Stuck
          | Some _ => Stuck
          end
      end
  end.

Definition fetch_page_read := fetch_page.
Definition fetch_page_write := fetch_page.

Definition unpin_page (s : BufferPoolManager) (page_id : nat) (dirty : bool) : outcome unit :=
  match pages_map s !! page_id with
  | None => BErr s
  | Some frame_id =>
      match pages s !! frame_id with
      | None => BErr s
      | Some frame =>
          let frame' := set_dirty (unpin frame) dirty in
          let pages' := <[frame_id := frame']> (pages s) in
          let r := if is_pinned frame' then replacer s
                   else LruK.set_evictable (replacer s) frame_id true in
          BOk tt (mkBpm (free_list s) pages' r (pages_map s) (next_page_id s))
      end
  end.

(** [delete_page].  [let frame_id = *frame_id;] shadows the [Ref] that
    [pages_map.get(&page_id)] returned without dropping it: the read lock
    it holds on the [DashMap] shard of [page_id] lives to the end of the
    function, so the [pages_map.remove(&page_id)] that follows waits for
    the write lock of that shard forever, and the call never returns. *)
Definition delete_page (s : BufferPoolManager) (page_id : nat) : outcome unit :=
  match pages_map s !! page_id with
  | None => BErr s
  | Some frame_id =>
      match pages s !! frame_id with
      | None => BErr s
      | Some frame =>
          if is_pinned frame then BErr s
          else Stuck
      end
  end.

End Bpm.

(** * Proofs *)

Module Invariants.
Import Directory.

(** [i] with bit [l] flipped: the split image of [i] at local depth [S l]. *)
Definition flip (i l : nat) : nat := Nat.lxor i (2 ^ l).

(** *** The structural invariant of a directory

    [2^global_depth] slots; every local depth at most the global depth;
    slots [i] and [j] hold the same bucket page exactly when they agree on
    the low [local_depth(i)] bits, and slots of one bucket share its local
    depth. *)
Record SI (d : ExtendibleHTableDirectoryPage) : Prop := {
  si_len_ids : length (bucket_page_ids d) = 2 ^ global_depth d;
  si_len_lds : length (local_depths d) = 2 ^ global_depth d;
  si_ld_le : forall i l, local_depths d !! i = Some l -> l <= global_depth d;
  si_share : forall i j x y l,
    bucket_page_ids d !! i = Some x -> bucket_page_ids d !! j = Some y ->
    local_depths d !! i = Some l -> (x = y <-> i mod 2 ^ l = j mod 2 ^ l);
  si_ld_eq : forall i j x l l',
    bucket_page_ids d !! i = Some x -> bucket_page_ids d !! j = Some x ->
    local_depths d !! i = Some l -> local_depths d !! j = Some l' -> l = l'
}.

(** The directory after bucket [b] (local depth [l]) is split into page
    [np]: every slot of the residue class of [b] modulo [2^l] gets local
    depth [l + 1], and those of them whose bit [l] differs from [b]'s point
    to [np]. *)
Definition split_result (d d' : ExtendibleHTableDirectoryPage) (b l np : nat) : Prop :=
  length (bucket_page_ids d') = length (bucket_page_ids d) /\
  length (local_depths d') = length (local_depths d) /\
  global_depth d' = global_depth d /\ max_depth d' = max_depth d /\
  forall j x y, bucket_page_ids d !! j = Some x -> local_depths d !! j = Some y ->
    local_depths d' !! j = Some (if decide (j mod 2 ^ l = b mod 2 ^ l) then S l else y) /\
    bucket_page_ids d' !! j =
      Some (if decide (j mod 2 ^ l = b mod 2 ^ l /\ Nat.testbit j l <> Nat.testbit b l)
            then np else x).

(** The directory [increment_global_depth] produces from [d]. *)
Definition doubled (d : ExtendibleHTableDirectoryPage) : ExtendibleHTableDirectoryPage :=
  mkDir (bucket_page_ids d ++ bucket_page_ids d) (local_depths d ++ local_depths d)
        (max_depth d) (S (global_depth d)).

(** The slot of the pair [{j, flip j l}] that the loop visits: the one
    agreeing with [b] on bit [l]. *)
Definition canon (b l j : nat) : nat :=
  if decide (Nat.testbit j l = Nat.testbit b l) then j else flip j l.

(** The directory after the split loop has visited the slots [0..m]. *)
Definition loop_inv (d : ExtendibleHTableDirectoryPage) (b l np m : nat)
    (d' : ExtendibleHTableDirectoryPage) : Prop :=
  length (bucket_page_ids d') = length (bucket_page_ids d) /\
  length (local_depths d') = length (local_depths d) /\
  global_depth d' = global_depth d /\ max_depth d' = max_depth d /\
  forall j x' y, bucket_page_ids d !! j = Some x' -> local_depths d !! j = Some y ->
    local_depths d' !! j =
      Some (if decide (j mod 2 ^ l = b mod 2 ^ l /\ canon b l j < m) then S l else y) /\
    bucket_page_ids d' !! j =
      Some (if decide ((j mod 2 ^ l = b mod 2 ^ l /\ canon b l j < m) /\
                       Nat.testbit j l <> Nat.testbit b l) then np else x').

End Invariants.

Module TableInvariants.
Import Directory Table Invariants.
Section Defs.
Context {K V : Type} `{EqDecision K}.

(** Weakest-precondition reading of a computation of the table monad:
    [Q] on success, [E] on an error, nothing on a panic. *)
Definition spec {A} (m : M (K:=K) (V:=V) A) (s : Pool)
    (Q : A -> Pool -> Prop) (E : ExtendibleHashTableError -> Pool -> Prop) : Prop :=
  match m s with
  | Done a s' => Q a s'
  | Failed e s' => E e s'
  | Abort => True
  end.

(** The bucket pages a directory names were allocated before the counter
    [next_page_id] and are neither its own page nor the header page. *)
Definition dir_bounds (s : Pool (K:=K) (V:=V)) (hp dp : nat) (D : ExtendibleHTableDirectoryPage)
    : Prop :=
  forall i x, bucket_page_ids D !! i = Some x -> x <= next_page_id s /\ x <> dp /\ x <> hp.

(** The directory [insert] starts from when none is installed yet:
    [Directory::new] or the decoding of a zeroed page. *)
Definition fresh_dir (bmax : nat) (D : ExtendibleHTableDirectoryPage) : Prop :=
  bucket_page_ids D = [] /\ global_depth D = 0 /\
  (local_depths D = [0] \/ (local_depths D = [] /\ bmax = 0)).

(** A successful [insert_internal] on directory page [dp]. *)
Definition ok_post (t : ExtendibleHashTable) (dp : nat) (s : Pool) (D' : ExtendibleHTableDirectoryPage)
    (s' : Pool) : Prop :=
  SI D' /\ dir_bounds s' (header_page_id t) dp D' /\
  pages s' !! dp = Some (DirectoryData D') /\
  pages s' !! header_page_id t = pages s !! header_page_id t /\
  next_page_id s <= next_page_id s'.

(** A failed [insert_internal] started from directory [D]. *)
Definition err_post (t : ExtendibleHashTable) (dp : nat) (s : Pool) (D : ExtendibleHTableDirectoryPage)
    (s' : Pool) : Prop :=
  pages s' !! header_page_id t = pages s !! header_page_id t /\
  next_page_id s <= next_page_id s' /\
  ((pages s' !! dp = pages s !! dp /\ (SI D \/ bucket_max_size t = 0)) \/
   exists D'', pages s' !! dp = Some (DirectoryData D'') /\ SI D'' /\
               dir_bounds s' (header_page_id t) dp D'').

(** The pool of a table: the header has the single slot of max depth 0;
    the directory it names, if any, satisfies [SI], or is still zeroed
    (only possible with buckets of size 0). *)
Definition table_inv (t : ExtendibleHashTable) (s : Pool (K:=K) (V:=V)) : Prop :=
  exists slot, pages s !! header_page_id t = Some (HeaderData (Header.mkHeader [slot] 0)) /\
    header_page_id t <= next_page_id s /\
    match slot with
    | None => True
    | Some dp => dp <> header_page_id t /\ dp <= next_page_id s /\
        ((exists D, pages s !! dp = Some (DirectoryData D) /\ SI D /\
                    dir_bounds s (header_page_id t) dp D) \/
         (pages s !! dp = Some Zeroed /\ bucket_max_size t = 0))
    end.

Variable hash_string : K -> nat.
Variable drain_order : list (K * V) -> list (K * V).

(** The pools a table reaches: created by [ExtendibleHashTable::new], then
    any sequence of [insert]s, successful or failed. *)
Inductive reachable (t : ExtendibleHashTable) : Pool (K:=K) (V:=V) -> Prop :=
| reachable_new (dmax bmax : nat) (p p' : Pool) :
    Table.new dmax bmax p = Done t p' -> reachable t p'
| reachable_insert_ok (fuel : nat) (key : K) (value : V) (p p' : Pool) :
    reachable t p -> insert hash_string drain_order fuel t key value p = Done tt p' ->
    reachable t p'
| reachable_insert_err (fuel : nat) (key : K) (value : V) (e : ExtendibleHashTableError)
    (p p' : Pool) :
    reachable t p -> insert hash_string drain_order fuel t key value p = Failed e p' ->
    reachable t p'.

End Defs.
End TableInvariants.

Module ContentDefs.
Import Directory Table Invariants TableInvariants.
Section Defs.
Context {K V : Type} `{EqDecision K}.
Variable hash_string : K -> nat.
Variable drain_order : list (K * V) -> list (K * V).

(** The directory slot of a hash: its low [global_depth] bits. *)
Definition route (D : ExtendibleHTableDirectoryPage) (h : nat) : option nat :=
  bucket_page_ids D !! (h mod 2 ^ global_depth D).

(** The bucket a page decodes to. *)
Definition bucket_at (s : Pool (K:=K) (V:=V)) (x : nat) : option (Bucket.ExtendibleHTableBucketPage (K:=K) (V:=V)) :=
  pages s !! x ≫= decode_bucket.

(** What a lookup of [k] through directory [D] finds. *)
Definition view (s : Pool (K:=K) (V:=V)) (D : ExtendibleHTableDirectoryPage) (k : K) : option V :=
  route D (hash_string k) ≫= λ x, bucket_at s x ≫= λ B, Bucket.get B k.

(** What [get] returns, with every failing [unwrap] read as absence. *)
Definition lookup_opt (t : ExtendibleHashTable) (s : Pool (K:=K) (V:=V)) (k : K) : option V :=
  (pages s !! header_page_id t ≫= decode_header) ≫= λ header,
  Header.hash_to_directory_index header (hash_string k) ≫= λ directory_index,
  Header.get_directory_page_id header directory_index ≫= λ dpid, (pages s !! dpid ≫= decode_directory) ≫= λ D, view s D k.

(** Every slot of [D] names a page holding a bucket of at most [bmax]
    entries, within its own [max_size], keys unique, and every key of it
    routed to that page. *)
Definition buckets_ok (bmax : nat) (s : Pool (K:=K) (V:=V)) (D : ExtendibleHTableDirectoryPage)
    : Prop :=
  forall i x, bucket_page_ids D !! i = Some x ->
    exists B, bucket_at s x = Some B /\ Bucket.max_size B <= bmax /\
      length (Bucket.data B) <= Bucket.max_size B /\ NoDup (map fst (Bucket.data B)) /\
      forall kv, In kv (Bucket.data B) -> route D (hash_string kv.1) = Some x.

(** The table invariant with the bucket contents. *)
Definition table_wf (t : ExtendibleHashTable) (s : Pool (K:=K) (V:=V)) : Prop :=
  exists slot, pages s !! header_page_id t = Some (HeaderData (Header.mkHeader [slot] 0)) /\
    header_page_id t <= next_page_id s /\
    match slot with
    | None => True
    | Some dp => dp <> header_page_id t /\ dp <= next_page_id s /\
        ((exists D, pages s !! dp = Some (DirectoryData D) /\ SI D /\
                    dir_bounds s (header_page_id t) dp D /\ buckets_ok (bucket_max_size t) s D) \/
         (pages s !! dp = Some Zeroed /\ bucket_max_size t = 0))
    end.

(** Whether the hash of [k] is routed to one of the two pages of a split. *)
Definition in_split (D : ExtendibleHTableDirectoryPage) (bp np : nat) (k : K) : bool :=
  bool_decide (route D (hash_string k) = Some bp \/ route D (hash_string k) = Some np).

(** A successful [insert_internal] of [key], [value] from directory [D]. *)
Definition ok_kv (t : ExtendibleHashTable) (dp : nat) (key : K) (value : V) (s : Pool)
    (D : ExtendibleHTableDirectoryPage) (D' : ExtendibleHTableDirectoryPage) (s' : Pool) : Prop :=
  SI D' /\ dir_bounds s' (header_page_id t) dp D' /\ buckets_ok (bucket_max_size t) s' D' /\
  pages s' !! dp = Some (DirectoryData D') /\
  pages s' !! header_page_id t = pages s !! header_page_id t /\
  next_page_id s <= next_page_id s' /\
  view s' D' key = Some value /\ (forall k, k <> key -> view s' D' k = view s D k).

(** A failed [insert_internal] from directory [D]: nothing a lookup sees
    has changed. *)
Definition err_kv (t : ExtendibleHashTable) (dp : nat) (s : Pool)
    (D : ExtendibleHTableDirectoryPage) (s' : Pool) : Prop :=
  pages s' !! header_page_id t = pages s !! header_page_id t /\
  next_page_id s <= next_page_id s' /\
  ((pages s' !! dp = pages s !! dp /\ (SI D \/ bucket_max_size t = 0) /\
    (SI D -> dir_bounds s' (header_page_id t) dp D /\ buckets_ok (bucket_max_size t) s' D) /\
    (forall k, view s' D k = view s D k)) \/
   exists D'', pages s' !! dp = Some (DirectoryData D'') /\ SI D'' /\
     dir_bounds s' (header_page_id t) dp D'' /\ buckets_ok (bucket_max_size t) s' D'' /\
     (forall k, view s' D'' k = view s D k)).

(** Inserts of other keys, successful or failed, and failed inserts of
    [key] itself. *)
Inductive inserts_keeping (t : ExtendibleHashTable) (key : K) : Pool (K:=K) (V:=V) -> Pool -> Prop :=
| keeping_refl (p : Pool) : inserts_keeping t key p p
| keeping_ok (fuel : nat) (k : K) (v : V) (p p' p'' : Pool) :
    k <> key -> insert hash_string drain_order fuel t k v p = Done tt p' ->
    inserts_keeping t key p' p'' -> inserts_keeping t key p p''
| keeping_err (fuel : nat) (k : K) (v : V) (e : ExtendibleHashTableError) (p p' p'' : Pool) :
    insert hash_string drain_order fuel t k v p = Failed e p' ->
    inserts_keeping t key p' p'' -> inserts_keeping t key p p''.

End Defs.
End ContentDefs.

Module ReplacerDefs.
Import LruK.

(** The replacers [LruKReplacer::new(num_of_frames, k)] reaches through
    [record_access], [set_evictable] and [remove]. *)
Inductive reachable_replacer (num_of_frames k : nat) : LruKReplacer -> Prop :=
| rr_new : reachable_replacer num_of_frames k (new num_of_frames k)
| rr_record_access (r : LruKReplacer) (f : nat) :
    reachable_replacer num_of_frames k r -> reachable_replacer num_of_frames k (record_access r f)
| rr_set_evictable (r : LruKReplacer) (f : nat) (b : bool) :
    reachable_replacer num_of_frames k r -> reachable_replacer num_of_frames k (set_evictable r f b)
| rr_remove (r : LruKReplacer) (f : nat) :
    reachable_replacer num_of_frames k r -> reachable_replacer num_of_frames k (remove r f).

End ReplacerDefs.

Module ExtraDefs.
Import Directory LruK.

(** The two maps of [Directory.verify_integrity] once the slots [0..n] of
    [d] are visited: [page_id_to_count] counts each page id among them,
    [page_id_to_ld] holds the local depth of a slot of each. *)
Definition vinv (d : ExtendibleHTableDirectoryPage) (n : nat) (mc ml : gmap nat nat) : Prop :=
  (forall x, mc !! x =
     if decide (count_occ Nat.eq_dec (take n (bucket_page_ids d)) x = 0) then None
     else Some (count_occ Nat.eq_dec (take n (bucket_page_ids d)) x)) /\
  (forall x l, ml !! x = Some l ->
     exists j, j < n /\ bucket_page_ids d !! j = Some x /\ local_depths d !! j = Some l) /\
  (forall j x, j < n -> bucket_page_ids d !! j = Some x -> is_Some (ml !! x)).

(** The filter of [LruKReplacer::size]. *)
Definition evictable_pair (p : nat * LruKNode) : bool := let '(_, n) := p in is_evictable n.

(** A node of frame [f] in a replacer of parameter [k] whose clock reads
    [clk]: it carries its frame id and [k], holds between 1 and [k]
    timestamps, newest first, all earlier than the clock. *)
Definition node_ok (k : nat) (clk : Z) (f : nat) (nd : LruKNode) : Prop :=
  frame_id nd = f /\ LruK.k nd = k /\ 1 <= length (history nd) <= k /\
  StronglySorted Z.gt (history nd) /\ Forall (λ ts, ts < clk)%Z (history nd).

(** The invariant of the replacers [LruKReplacer::new(num_of_frames, k)]
    reaches, [k > 0] (the [assert!] of [LruKNode::new]). *)
Definition replacer_inv (k : nat) (r : LruKReplacer) : Prop :=
  replacer_k r = k /\ NoDup (map fst (node_store r)) /\
  forall f nd, In (f, nd) (node_store r) -> node_ok k (clock r) f nd.

(** [m] successive calls of [BufferPoolManager::new_page], with the frames
    they return. *)
Fixpoint new_page_n (m : nat) (s : Bpm.BufferPoolManager) : Bpm.outcome (list (option nat)) :=
  match m with
  | 0 => Bpm.BOk [] s
  | S m' =>
      match Bpm.new_page s with
      | Bpm.BOk r s' =>
          match new_page_n m' s' with
          | Bpm.BOk rs s'' => Bpm.BOk (r :: rs) s''
          | Bpm.BErr s'' => Bpm.BErr s''
          | Bpm.Stuck => Bpm.Stuck
          end
      | Bpm.BErr s' => Bpm.BErr s'
      | Bpm.Stuck => Bpm.Stuck
      end
  end.

End ExtraDefs.


(** ** Directory page *)

Module DirectoryFacts.
Import Directory.

Lemma copy_loop_spec (ids lds : list nat) (old : nat) :
  length ids = old -> old <= length lds ->
  forall k m (nids nlds : list nat), m + k = old ->
  length nids = 2 * old -> length nlds = 2 * old ->
  (forall j, j < m -> nids !! j = ids !! j /\ nids !! (j + old) = ids !! j /\
                      nlds !! j = lds !! j /\ nlds !! (j + old) = lds !! j) ->
  exists nids' nlds', copy_loop ids lds old (seq m k) (nids, nlds) = Some (nids', nlds') /\
    length nids' = 2 * old /\ length nlds' = 2 * old /\
    (forall j, j < old -> nids' !! j = ids !! j /\ nids' !! (j + old) = ids !! j /\
                          nlds' !! j = lds !! j /\ nlds' !! (j + old) = lds !! j).
Proof.
  intros Hids Hlds k. induction k as [|k IH]; intros m nids nlds Hm Hn Hl Hinv.
  - exists nids, nlds. simpl. split; [done|]. split; [done|]. split; [done|].
    intros j0 Hj0. apply Hinv. lia.
  - simpl.
    destruct (lookup_lt_is_Some_2 ids m) as [p Hp]; [lia|].
    destruct (lookup_lt_is_Some_2 lds m) as [l Hl'];[lia|].
    rewrite Hp, Hl'.
    apply IH; [lia| rewrite !length_insert; lia | rewrite !length_insert; lia |].
    intros j Hj.
    destruct (decide (j = m)) as [->|Hjm].
    + rewrite !list_lookup_insert_eq; [|rewrite ?length_insert; lia..].
      rewrite (list_lookup_insert_ne _ (m + old) m); [|lia].
      rewrite list_lookup_insert_eq; [|lia].
      rewrite (list_lookup_insert_ne _ (m + old) m); [|lia].
      rewrite list_lookup_insert_eq; [|lia]. done.
    + destruct (Hinv j) as (H1 & H2 & H3 & H4); [lia|].
      rewrite (list_lookup_insert_ne _ (m + old) j); [|lia].
      rewrite (list_lookup_insert_ne _ m j); [|lia].
      rewrite (list_lookup_insert_ne _ (m + old) (j + old)); [|lia].
      rewrite (list_lookup_insert_ne _ m (j + old)); [|lia].
      rewrite (list_lookup_insert_ne _ (m + old) j); [|lia].
      rewrite (list_lookup_insert_ne _ m j); [|lia].
      rewrite (list_lookup_insert_ne _ (m + old) (j + old)); [|lia].
      rewrite (list_lookup_insert_ne _ m (j + old)); [|lia].
      done.
Qed.

Lemma doubled_eq (l nl : list nat) (old : nat) :
  old <= length l -> length nl = 2 * old ->
  (forall j, j < old -> nl !! j = l !! j /\ nl !! (j + old) = l !! j) ->
  nl = take old l ++ take old l.
Proof.
  intros Hl Hn Hj. apply list_eq. intros i.
  destruct (decide (i < old)) as [Hi|Hi].
  - rewrite lookup_app_l; [|rewrite length_take; lia].
    rewrite lookup_take_lt; [|lia]. apply Hj; lia.
  - destruct (decide (i < 2 * old)) as [Hi2|Hi2].
    + rewrite lookup_app_r; [|rewrite length_take; lia].
      rewrite length_take, lookup_take_lt; [|lia].
      replace i with ((i - old) + old) at 1 by lia.
      replace (Init.Nat.min old (length l)) with old by lia.
      apply Hj; lia.
    + rewrite !lookup_ge_None_2; [done| rewrite length_app, !length_take; lia | lia].
Qed.

(** The closed form of [increment_global_depth] when it does not fail. *)
Lemma increment_global_depth_ok (d : ExtendibleHTableDirectoryPage) :
  length (bucket_page_ids d) <= length (local_depths d) ->
  global_depth d <> max_depth d ->
  (Z.of_nat (global_depth d) < u32_max)%Z ->
  increment_global_depth d =
    ROk (mkDir (bucket_page_ids d ++ bucket_page_ids d)
               (take (length (bucket_page_ids d)) (local_depths d) ++
                take (length (bucket_page_ids d)) (local_depths d))
               (max_depth d) (S (global_depth d))).
Proof.
  intros Hlen Hmax Hgd. unfold increment_global_depth.
  destruct (Nat.eqb_spec (global_depth d) (max_depth d)); [contradiction|].
  set (old := length (bucket_page_ids d)).
  destruct (copy_loop_spec (bucket_page_ids d) (local_depths d) old eq_refl Hlen old 0
              (replicate (2 * old) 0) (replicate (2 * old) 0))
    as (nids & nlds & Hc & Hn & Hl & Hj);
    [lia | by rewrite length_replicate | by rewrite length_replicate | intros; lia |].
  rewrite Hc, (proj2 (Z.ltb_lt _ _) Hgd).
  rewrite (doubled_eq (bucket_page_ids d) nids old);
    [|lia|done|intros j0 Hj0; destruct (Hj j0) as (? & ? & ? & ?); done].
  rewrite (doubled_eq (local_depths d) nlds old);
    [|lia|done|intros j0 Hj0; destruct (Hj j0) as (? & ? & ? & ?); done].
  unfold old. rewrite (take_ge (bucket_page_ids d)); [done|lia].
Qed.

(** [increment_global_depth] below the maximum depth but at [u32::MAX]:
    the [+= 1] overflows. *)
Lemma increment_global_depth_overflow (d : ExtendibleHTableDirectoryPage) :
  length (bucket_page_ids d) <= length (local_depths d) ->
  global_depth d <> max_depth d ->
  (u32_max <= Z.of_nat (global_depth d))%Z ->
  increment_global_depth d = RPanic.
Proof.
  intros Hlen Hmax Hgd. unfold increment_global_depth.
  destruct (Nat.eqb_spec (global_depth d) (max_depth d)); [contradiction|].
  set (old := length (bucket_page_ids d)).
  destruct (copy_loop_spec (bucket_page_ids d) (local_depths d) old eq_refl Hlen old 0
              (replicate (2 * old) 0) (replicate (2 * old) 0))
    as (nids & nlds & Hc & _);
    [lia | by rewrite length_replicate | by rewrite length_replicate | intros; lia |].
  rewrite Hc. destruct (Z.ltb_spec (Z.of_nat (global_depth d)) u32_max); [lia|done].
Qed.

(** When the bucket-page-id and local-depth arrays of a directory have the
    same length [old_size] (as they do once its first bucket page is
    installed), [increment_global_depth] fails with
    [DirectoryMaxSizeReached] exactly when [global_depth = max_depth];
    otherwise, below [u32::MAX], it doubles both arrays, entry
    [i + old_size] being a copy of entry [i] and entries [0..old_size]
    staying unchanged, and increments [global_depth] by one, and at
    [u32::MAX] the increment of [global_depth] panics. *)
Theorem increment_global_depth_spec (d : ExtendibleHTableDirectoryPage)
    (Hlen : length (local_depths d) = length (bucket_page_ids d)) :
  (increment_global_depth d = RErr DirectoryMaxSizeReached <-> global_depth d = max_depth d) /\
  (global_depth d <> max_depth d -> (Z.of_nat (global_depth d) < u32_max)%Z ->
   increment_global_depth d =
     ROk (mkDir (bucket_page_ids d ++ bucket_page_ids d) (local_depths d ++ local_depths d)
                (max_depth d) (S (global_depth d)))) /\
  (global_depth d <> max_depth d -> (u32_max <= Z.of_nat (global_depth d))%Z ->
   increment_global_depth d = RPanic).
Proof.
  assert (Hok : global_depth d <> max_depth d -> (Z.of_nat (global_depth d) < u32_max)%Z ->
     increment_global_depth d =
       ROk (mkDir (bucket_page_ids d ++ bucket_page_ids d) (local_depths d ++ local_depths d)
                  (max_depth d) (S (global_depth d)))).
  { intros Hne Hgd. rewrite increment_global_depth_ok; [|lia|done|done].
    rewrite <- Hlen, firstn_all. done. }
  assert (Hov : global_depth d <> max_depth d -> (u32_max <= Z.of_nat (global_depth d))%Z ->
     increment_global_depth d = RPanic).
  { intros Hne Hgd. apply increment_global_depth_overflow; [lia|done|done]. }
  split; [|split; [exact Hok|exact Hov]]. split.
  - intros Herr. destruct (decide (global_depth d = max_depth d)) as [|Hne]; [done|].
    destruct (Z.lt_ge_cases (Z.of_nat (global_depth d)) u32_max) as [Hgd|Hgd].
    + rewrite Hok in Herr; done.
    + rewrite Hov in Herr; done.
  - intros Heq. unfold increment_global_depth. rewrite Heq, Nat.eqb_refl. done.
Qed.

Lemma increment_global_depth_spec_witness :
  length (local_depths (mkDir [7; 8] [1; 1] 2 1)) =
    length (bucket_page_ids (mkDir [7; 8] [1; 1] 2 1)) /\
  ((increment_global_depth (mkDir [7; 8] [1; 1] 2 1) = RErr DirectoryMaxSizeReached <->
    global_depth (mkDir [7; 8] [1; 1] 2 1) = max_depth (mkDir [7; 8] [1; 1] 2 1)) /\
   (global_depth (mkDir [7; 8] [1; 1] 2 1) <> max_depth (mkDir [7; 8] [1; 1] 2 1) ->
    Z.lt (Z.of_nat (global_depth (mkDir [7; 8] [1; 1] 2 1))) u32_max ->
    increment_global_depth (mkDir [7; 8] [1; 1] 2 1) =
      ROk (mkDir ([7; 8] ++ [7; 8]) ([1; 1] ++ [1; 1]) 2 2)) /\
   (global_depth (mkDir [7; 8] [1; 1] 2 1) <> max_depth (mkDir [7; 8] [1; 1] 2 1) ->
    Z.le u32_max (Z.of_nat (global_depth (mkDir [7; 8] [1; 1] 2 1))) ->
    increment_global_depth (mkDir [7; 8] [1; 1] 2 1) = RPanic)).
Proof.
  split; [reflexivity|].
  apply (increment_global_depth_spec (mkDir [7; 8] [1; 1] 2 1)). reflexivity.
Defined.

(** C7 (failing input, in general form).  On a freshly created directory
    ([new max_depth] with [max_depth <> 0]: no bucket page id, one local
    depth) [increment_global_depth] succeeds and sets the global depth to
    1, but it does not double the local-depth array: the new size is twice
    [bucket_page_ids.len()], that is 0, so both arrays come out empty and
    the single local depth is lost, while [get_size] reports 2 slots. *)
Theorem increment_global_depth_fresh_directory (md : nat) (Hmd : md <> 0) :
  local_depths (new md) = [0] /\
  increment_global_depth (new md) = ROk (mkDir [] [] md 1) /\
  get_size (mkDir [] [] md 1) = 2.
Proof.
  split; [done|]. split; [|done].
  unfold increment_global_depth, new. cbn [global_depth max_depth bucket_page_ids].
  destruct (Nat.eqb_spec 0 md) as [E|_]; [lia|]. done.
Qed.

Lemma increment_global_depth_fresh_directory_witness :
  1 <> 0 /\
  local_depths (new 1) = [0] /\
  increment_global_depth (new 1) = ROk (mkDir [] [] 1 1) /\
  get_size (mkDir [] [] 1 1) = 2.
Proof. split; [lia|]. apply (increment_global_depth_fresh_directory 1). lia. Defined.

End DirectoryFacts.

(** ** The hash table: construction, lookup, integrity check *)

Module TableFacts.
Import Directory Table.
Section TableFacts.
Context {K V : Type} `{EqDecision K}.
Variable hash_string : K -> nat.
Variable drain_order : list (K * V) -> list (K * V).

Lemma new_spec (dmax bmax : nat) (p p' : Pool) (t : ExtendibleHashTable) :
  Table.new (K:=K) (V:=V) dmax bmax p = Done t p' ->
  free_frames p <> 0 /\
  t = mkTable dmax bmax (S (next_page_id p)) /\
  p' = mkPool (<[S (next_page_id p) := HeaderData (Header.mkHeader [None] 0)]>
                 (<[S (next_page_id p) := Zeroed]> (pages p)))
              (S (next_page_id p)) (pred (free_frames p)).
Proof.
  unfold Table.new, bind, new_page, set_data, ret.
  destruct (Nat.eqb_spec (free_frames p) 0); [discriminate|].
  simpl. intros H. injection H as <- <-. done.
Qed.

(** C10.  [ExtendibleHashTable::new] takes no header depth: for every
    directory max depth, bucket size and pool, the header page it creates
    has max depth 0 and a single directory slot, and
    [hash_to_directory_index] maps every hash to slot 0. *)
Theorem new_header_single_slot (dmax bmax : nat) (p p' : Pool) (t : ExtendibleHashTable)
    (Hnew : Table.new (K:=K) (V:=V) dmax bmax p = Done t p') :
  exists hd, pages p' !! header_page_id t = Some (HeaderData hd) /\
    Header.max_depth hd = 0 /\ length (Header.directory_page_ids hd) = 1 /\
    forall hash, Header.hash_to_directory_index hd hash = Some 0.
Proof.
  apply new_spec in Hnew as (_ & -> & ->).
  exists (Header.mkHeader [None] 0). simpl. rewrite lookup_insert_eq.
  split; [done|]. split; [done|]. split; [done|].
  intros hash. unfold Header.hash_to_directory_index. simpl. by rewrite Nat.land_0_r.
Qed.

(** C4 (failing input).  On a freshly created table no directory is
    installed, and [get] of any key panics on the [unwrap] of the missing
    directory page id instead of returning [None]. *)
Theorem get_fresh_table_panics (dmax bmax : nat) (p p' : Pool) (t : ExtendibleHashTable)
    (Hnew : Table.new (K:=K) (V:=V) dmax bmax p = Done t p') (key : K) :
  Table.get hash_string t key p' = Abort.
Proof.
  apply new_spec in Hnew as (_ & -> & ->).
  unfold Table.get, bind, fetch, unwrap, ret, abort. simpl.
  rewrite lookup_insert_eq. simpl.
  unfold Header.hash_to_directory_index. simpl. rewrite Nat.land_0_r. done.
Qed.

End TableFacts.

Lemma new_header_single_slot_witness :
  Table.new (K:=nat) (V:=nat) 3 2 (pool_init 8) =
    Done (mkTable 3 2 1)
      (mkPool (<[1 := HeaderData (Header.mkHeader [None] 0)]> (<[1 := Zeroed]> ∅)) 1 7) /\
  exists hd, pages (K:=nat) (V:=nat)
      (mkPool (<[1 := HeaderData (Header.mkHeader [None] 0)]> (<[1 := Zeroed]> ∅)) 1 7) !!
      header_page_id (mkTable 3 2 1) = Some (HeaderData hd) /\
    Header.max_depth hd = 0 /\ length (Header.directory_page_ids hd) = 1 /\
    forall hash, Header.hash_to_directory_index hd hash = Some 0.
Proof.
  split; [reflexivity|].
  apply (new_header_single_slot 3 2 (pool_init 8)). reflexivity.
Defined.

Lemma get_fresh_table_panics_witness :
  Table.new (K:=nat) (V:=nat) 3 2 (pool_init 8) =
    Done (mkTable 3 2 1)
      (mkPool (<[1 := HeaderData (Header.mkHeader [None] 0)]> (<[1 := Zeroed]> ∅)) 1 7) /\
  Table.get (V:=nat) (λ k : nat, k) (mkTable 3 2 1) 42
    (mkPool (<[1 := HeaderData (Header.mkHeader [None] 0)]> (<[1 := Zeroed]> ∅)) 1 7) = Abort.
Proof.
  split; [reflexivity|].
  apply (get_fresh_table_panics (λ k : nat, k) 3 2 (pool_init 8)). reflexivity.
Defined.

(** C9 (failing input).  [ExtendibleHashTable::verify_integrity] reads no
    page and checks nothing: on a table whose installed directory (page 2,
    named in slot 0 of the header page 1) has a local depth above its
    global depth, the table's check returns normally and leaves the pool
    as it is, while [ExtendibleHTableDirectoryPage::verify_integrity] of
    that directory fails its assertion. *)
Theorem verify_integrity_skips_directories :
  let corrupt := mkDir [5] [1] 3 0 in
  let p := mkPool (K:=nat) (V:=nat)
             (<[2 := DirectoryData corrupt]> (<[1 := HeaderData (Header.mkHeader [Some 2] 0)]> ∅))
             5 3 in
  Header.get_directory_page_id (Header.mkHeader [Some 2] 0) 0 = Some 2 /\
  pages p !! 2 = Some (DirectoryData corrupt) /\
  Table.verify_integrity (mkTable 3 2 1) p = Done tt p /\
  Directory.verify_integrity corrupt = None.
Proof.
  cbv zeta. split; [reflexivity|]. split; [reflexivity|].
  split; [reflexivity|]. vm_compute. reflexivity.
Qed.

End TableFacts.

(** ** LRU-K replacer *)

Module LruKFacts.
Import LruK.

(** C2 (failing input).  With k = 2, frame 0 accessed once and left
    non-evictable, and frame 1 accessed twice and made evictable, the
    replacer holds one evictable node, yet [evict] returns [None]: the
    maximum k-distance is taken over all nodes, here frame 0's infinite
    one, and no evictable node has it. *)
Theorem evict_ignores_evictable_frame :
  let r := set_evictable (record_access (record_access (record_access (new 10 2) 0) 1) 1) 1 true in
  size r = 1%nat /\
  store_lookup (node_store r) 1 = Some (mkNode 2 1 true [3; 2]%Z) /\
  evict r (clock r) = None.
Proof. cbv zeta. vm_compute. repeat split. Qed.

End LruKFacts.

(** ** Buffer pool manager *)

Module BpmFacts.
Import Bpm.

(** C5 (failing input, in general form).  [new_page] hands out a frame
    whose pin count is 0 (the frame was [reset] and never [pin]ned), and
    fetching that new page with [fetch_page_read] or [fetch_page_write]
    hits the page table and returns the same frame without changing any
    state, so its pin count stays 0. *)
Theorem new_page_fetch_do_not_pin (s s' : BufferPoolManager) (frame_id : nat) :
  new_page s = BOk (Some frame_id) s' ->
  option_map pin_count (pages s' !! frame_id) = Some 0%Z /\
  fetch_page_read s' (next_page_id s') = BOk (Some frame_id) s' /\
  fetch_page_write s' (next_page_id s') = BOk (Some frame_id) s'.
Proof.
  unfold new_page. destruct (take_frame s) as [[f|] fl]; [|discriminate].
  destruct (pages s !! f) as [page|] eqn:Hp; [|discriminate].
  destruct (is_dirty page); [discriminate|].
  intros H. injection H as <- <-.
  assert (Hf : f < length (pages s)) by (by apply lookup_lt_Some in Hp).
  unfold fetch_page_read, fetch_page_write, fetch_page. simpl.
  rewrite lookup_insert_eq, list_lookup_insert_eq by done. done.
Qed.

Lemma new_page_fetch_do_not_pin_witness :
  new_page (new 1 2) = BOk (Some 0)
    (match new_page (new 1 2) with BOk _ s' => s' | _ => new 1 2 end) /\
  option_map pin_count
    (pages (match new_page (new 1 2) with BOk _ s' => s' | _ => new 1 2 end) !! 0) = Some 0%Z.
Proof.
  assert (H : new_page (new 1 2) = BOk (Some 0)
                (match new_page (new 1 2) with BOk _ s' => s' | _ => new 1 2 end))
    by (vm_compute; reflexivity).
  split; [exact H|].
  exact (proj1 (new_page_fetch_do_not_pin (new 1 2) _ 0 H)).
Defined.

(** C6 (failing input, in general form).  For a resident page,
    [unpin_page page_id dirty_after] succeeds and leaves the frame's dirty
    flag equal to [dirty_after], whatever it was before: [set_dirty]
    overwrites the flag instead of OR-ing it, so unpinning with [false]
    clears a [true] flag. *)
Theorem unpin_page_overwrites_dirty (s : BufferPoolManager) (page_id frame_id : nat)
    (frame : Page) (dirty_after : bool) :
  pages_map s !! page_id = Some frame_id ->
  pages s !! frame_id = Some frame ->
  exists s', unpin_page s page_id dirty_after = BOk tt s' /\
             option_map is_dirty (pages s' !! frame_id) = Some dirty_after.
Proof.
  intros Hm Hp. unfold unpin_page. rewrite Hm, Hp.
  eexists. split; [reflexivity|]. simpl.
  rewrite list_lookup_insert_eq; [done|]. by apply lookup_lt_Some in Hp.
Qed.

Lemma unpin_page_overwrites_dirty_witness :
  let s1 := match new_page (new 1 2) with BOk _ s' => s' | _ => new 1 2 end in
  let s2 := match unpin_page s1 1 true with BOk _ s' => s' | _ => s1 end in
  let frame := match pages s2 !! 0 with Some f => f | None => page_new end in
  is_dirty frame = true /\
  exists s3, unpin_page s2 1 false = BOk tt s3 /\
             option_map is_dirty (pages s3 !! 0) = Some false.
Proof.
  cbv zeta. split; [vm_compute; reflexivity|].
  apply (unpin_page_overwrites_dirty _ 1 0
           (match pages (match unpin_page (match new_page (new 1 2) with BOk _ s' => s' | _ => new 1 2 end) 1 true
                         with BOk _ s' => s' | _ => new 1 2 end) !! 0 with Some f => f | None => page_new end));
    vm_compute; reflexivity.
Defined.

(** C8 (failing input, in general form).  [delete_page page_id] returns
    an error, not a no-op success, when the page is not resident; it
    returns an error when the page's frame is pinned; and when the frame
    is unpinned it never returns: the [DashMap] [Ref] of
    [pages_map.get(&page_id)] is still alive when [pages_map.remove(&page_id)]
    asks for the write lock of the same shard, so none of the removal,
    replacer, free-list, reset and deallocate steps is reached. *)
Theorem delete_page_unpinned_deadlocks (s : BufferPoolManager) (page_id : nat) :
  (pages_map s !! page_id = None -> delete_page s page_id = BErr s) /\
  (forall frame_id frame,
     pages_map s !! page_id = Some frame_id ->
     pages s !! frame_id = Some frame ->
     (is_pinned frame = true -> delete_page s page_id = BErr s) /\
     (is_pinned frame = false -> delete_page s page_id = Stuck)).
Proof.
  split.
  - intros Hm. unfold delete_page. by rewrite Hm.
  - intros frame_id frame Hm Hp. unfold delete_page. rewrite Hm, Hp.
    split; intros ->; reflexivity.
Qed.

(** The page [new_page] creates on a fresh pool of one frame is resident
    and unpinned; deleting it does not return, and deleting a page that
    is not resident is an error. *)
Lemma delete_page_unpinned_deadlocks_witness :
  let s1 := match new_page (new 1 2) with BOk _ s' => s' | _ => new 1 2 end in
  let frame := match pages s1 !! 0 with Some f => f | None => page_new end in
  pages_map s1 !! 1 = Some 0 /\ pages s1 !! 0 = Some frame /\ is_pinned frame = false /\
  delete_page s1 1 = Stuck /\
  pages_map (new 1 2) !! 1 = None /\ delete_page (new 1 2) 1 = BErr (new 1 2).
Proof.
  cbv zeta.
  split; [vm_compute; reflexivity|]. split; [vm_compute; reflexivity|].
  split; [vm_compute; reflexivity|]. split.
  - apply (proj2 (proj2 (delete_page_unpinned_deadlocks
                           (match new_page (new 1 2) with BOk _ s' => s' | _ => new 1 2 end) 1) 0
                    (match pages (match new_page (new 1 2) with BOk _ s' => s' | _ => new 1 2 end) !! 0
                     with Some f => f | None => page_new end)
                    ltac:(vm_compute; reflexivity) ltac:(vm_compute; reflexivity))).
    vm_compute. reflexivity.
  - split; [reflexivity|].
    apply (proj1 (delete_page_unpinned_deadlocks (new 1 2) 1)). reflexivity.
Defined.

End BpmFacts.

Module DirInvariant.
Import Directory Invariants.

(** *** Bits of an index *)

Lemma mod_pow2_eq_bits (l i j : nat) :
  i mod 2 ^ l = j mod 2 ^ l <-> (forall n, n < l -> Nat.testbit i n = Nat.testbit j n).
Proof.
  split.
  - intros H n Hn.
    rewrite <- (Nat.mod_pow2_bits_low i l n Hn), <- (Nat.mod_pow2_bits_low j l n Hn), H.
    done.
  - intros H. apply Nat.bits_inj. intros n.
    destruct (decide (n < l)).
    + rewrite !Nat.mod_pow2_bits_low; auto.
    + rewrite !Nat.mod_pow2_bits_high; [done|lia|lia].
Qed.

Lemma mod_pow2_S (l i j : nat) :
  i mod 2 ^ S l = j mod 2 ^ S l <->
  i mod 2 ^ l = j mod 2 ^ l /\ Nat.testbit i l = Nat.testbit j l.
Proof.
  rewrite !mod_pow2_eq_bits. split.
  - intros H. split; [intros n Hn; apply H; lia | apply H; lia].
  - intros [H1 H2] n Hn. destruct (decide (n = l)) as [->|]; [done | apply H1; lia].
Qed.

Lemma mod_pow2_le (l g i j : nat) :
  l <= g -> i mod 2 ^ g = j mod 2 ^ g -> i mod 2 ^ l = j mod 2 ^ l.
Proof. rewrite !mod_pow2_eq_bits. intros Hl H n Hn. apply H. lia. Qed.

Lemma lt_pow2_bits (g i n : nat) : i < 2 ^ g -> g <= n -> Nat.testbit i n = false.
Proof.
  intros Hi Hn. rewrite <- (Nat.mod_small i (2 ^ g)) by done.
  apply Nat.mod_pow2_bits_high. lia.
Qed.

Lemma bits_lt_pow2 (g x : nat) : (forall n, g <= n -> Nat.testbit x n = false) -> x < 2 ^ g.
Proof.
  intros H. assert (x mod 2 ^ g = x) as <-.
  { apply Nat.bits_inj. intros n. destruct (decide (n < g)).
    - by rewrite Nat.mod_pow2_bits_low.
    - rewrite Nat.mod_pow2_bits_high, H; [done|lia|lia]. }
  apply Nat.mod_upper_bound. apply Nat.pow_nonzero. lia.
Qed.


Lemma flip_bit (i l : nat) : Nat.testbit (flip i l) l = negb (Nat.testbit i l).
Proof.
  unfold flip. rewrite Nat.lxor_spec, Nat.pow2_bits_eqb, Nat.eqb_refl. apply xorb_true_r.
Qed.

Lemma flip_bit_other (i l n : nat) : n <> l -> Nat.testbit (flip i l) n = Nat.testbit i n.
Proof.
  intros Hn. unfold flip. rewrite Nat.lxor_spec, Nat.pow2_bits_eqb.
  destruct (Nat.eqb_spec l n); [lia|]. apply xorb_false_r.
Qed.

Lemma flip_mod (i l : nat) : flip i l mod 2 ^ l = i mod 2 ^ l.
Proof. apply mod_pow2_eq_bits. intros n Hn. apply flip_bit_other. lia. Qed.

Lemma flip_lt (i l g : nat) : l < g -> i < 2 ^ g -> flip i l < 2 ^ g.
Proof.
  intros Hl Hi. apply bits_lt_pow2. intros n Hn.
  rewrite flip_bit_other by lia. by apply (lt_pow2_bits g).
Qed.

Lemma flip_flip (i l : nat) : flip (flip i l) l = i.
Proof.
  apply Nat.bits_inj. intros n. destruct (decide (n = l)) as [->|].
  - rewrite !flip_bit. apply negb_involutive.
  - rewrite !flip_bit_other; auto.
Qed.

Lemma flip_high (i g : nat) : i < 2 ^ g -> flip i g = i + 2 ^ g.
Proof.
  intros Hi. unfold flip. symmetry. apply Nat.add_nocarry_lxor.
  apply Nat.bits_inj. intros n. rewrite Nat.land_spec, Nat.pow2_bits_eqb, Nat.bits_0.
  destruct (Nat.eqb_spec g n) as [->|]; [|apply andb_false_r].
  rewrite (lt_pow2_bits n i n); done.
Qed.

Lemma land_pow2_mask (a l : nat) : Nat.land a (2 ^ l - 1) = a mod 2 ^ l.
Proof. rewrite <- Nat.land_ones, Nat.ones_equiv. f_equal. lia. Qed.

Lemma hash_to_bucket_index_mod (d : ExtendibleHTableDirectoryPage) (h : nat) :
  hash_to_bucket_index d h = h mod 2 ^ global_depth d.
Proof.
  unfold hash_to_bucket_index, get_global_depth_mask, get_global_depth.
  destruct (Nat.eqb_spec (global_depth d) 0) as [Hg|].
  - rewrite Hg, Nat.land_0_r, Nat.pow_0_r, Nat.mod_1_r. done.
  - apply land_pow2_mask.
Qed.

(** *** Counting the indices of a residue class *)

Lemma count_eq_seq (c a n : nat) :
  length (List.filter (λ j, j =? c) (seq a n)) = if decide (a <= c < a + n) then 1 else 0.
Proof.
  revert a. induction n as [|n IH]; intros a; simpl.
  - case_decide; [lia|done].
  - destruct (Nat.eqb_spec a c) as [->|]; simpl; rewrite IH;
      repeat case_decide; try done; lia.
Qed.

Lemma map_add_seq (a n : nat) : map (λ j, j + a) (seq 0 n) = seq a n.
Proof.
  revert a. induction n as [|n IH]; intros a; [done|].
  rewrite seq_S, map_app, IH, seq_S. simpl. f_equal. f_equal. lia.
Qed.

Lemma count_mod_pow2 (l k r : nat) :
  length (List.filter (λ j, j mod 2 ^ l =? r mod 2 ^ l) (seq 0 (2 ^ (l + k)))) = 2 ^ k.
Proof.
  induction k as [|k IH].
  - rewrite Nat.add_0_r.
    rewrite (filter_ext_in _ (λ j, j =? r mod 2 ^ l)).
    + rewrite count_eq_seq. case_decide as Hn; [done|].
      exfalso. apply Hn. split; [lia|]. simpl.
      apply Nat.mod_upper_bound, Nat.pow_nonzero. lia.
    + intros a Ha. apply in_seq in Ha. rewrite Nat.mod_small by lia. done.
  - replace (2 ^ (l + S k)) with (2 ^ (l + k) + 2 ^ (l + k))
      by (rewrite Nat.add_succ_r, Nat.pow_succ_r'; lia).
    rewrite seq_app, List.filter_app, length_app, IH, <- map_add_seq, filter_map_swap,
      length_map.
    rewrite (filter_ext (λ a, (a + 2 ^ (l + k)) mod 2 ^ l =? r mod 2 ^ l)
                        (λ j, j mod 2 ^ l =? r mod 2 ^ l)), IH.
    + rewrite Nat.pow_succ_r'. lia.
    + intros a. rewrite Nat.pow_add_r, Nat.mul_comm, Nat.Div0.mod_add. done.
Qed.

(** [count_occ] through the indices of the list. *)
Lemma count_occ_indices (l : list nat) (x : nat) :
  count_occ Nat.eq_dec l x =
  length (List.filter (λ j, bool_decide (l !! j = Some x)) (seq 0 (length l))).
Proof.
  induction l as [|y l IH]; [done|].
  cbn [length seq]. rewrite <- seq_shift. cbn [List.filter].
  rewrite filter_map_swap. simpl. rewrite IH.
  destruct (Nat.eq_dec y x) as [->|Hne].
  - rewrite bool_decide_eq_true_2 by done. simpl. by rewrite length_map.
  - rewrite bool_decide_eq_false_2 by congruence. by rewrite length_map.
Qed.



Lemma SI_lookup (d : ExtendibleHTableDirectoryPage) (i : nat) :
  SI d -> i < 2 ^ global_depth d ->
  exists x y, bucket_page_ids d !! i = Some x /\ local_depths d !! i = Some y.
Proof.
  intros Hsi Hi.
  destruct (lookup_lt_is_Some_2 (bucket_page_ids d) i) as [x Hx];
    [rewrite (si_len_ids _ Hsi); lia|].
  destruct (lookup_lt_is_Some_2 (local_depths d) i) as [y Hy];
    [rewrite (si_len_lds _ Hsi); lia|].
  eauto.
Qed.

Lemma SI_class (d : ExtendibleHTableDirectoryPage) (b x l j z : nat) :
  SI d -> bucket_page_ids d !! b = Some x -> local_depths d !! b = Some l ->
  bucket_page_ids d !! j = Some z -> (z = x <-> j mod 2 ^ l = b mod 2 ^ l).
Proof.
  intros Hsi Hb Hl Hj. pose proof (si_share d Hsi b j x z l Hb Hj Hl) as H.
  split; intros E; symmetry; apply H; congruence.
Qed.

Lemma SI_split (d d' : ExtendibleHTableDirectoryPage) (b x l np : nat) :
  SI d -> bucket_page_ids d !! b = Some x -> local_depths d !! b = Some l ->
  l < global_depth d -> (forall j, bucket_page_ids d !! j <> Some np) ->
  split_result d d' b l np -> SI d'.
Proof.
  intros Hsi Hb Hl Hlt Hfresh (Hli & Hll & Hg & Hm & Hj).
  assert (Hx : x <> np) by (intros ->; by apply (Hfresh b)).
  (* every slot of [d'] comes from a slot of [d] *)
  assert (Hsrc : forall i, i < 2 ^ global_depth d ->
            exists xi yi, bucket_page_ids d !! i = Some xi /\ local_depths d !! i = Some yi /\
              xi <> np /\ (xi = x <-> i mod 2 ^ l = b mod 2 ^ l) /\
              local_depths d' !! i = Some (if decide (i mod 2 ^ l = b mod 2 ^ l) then S l else yi) /\
              bucket_page_ids d' !! i =
                Some (if decide (i mod 2 ^ l = b mod 2 ^ l /\ Nat.testbit i l <> Nat.testbit b l)
                      then np else xi)).
  { intros i Hi. destruct (SI_lookup d i Hsi Hi) as (xi & yi & Hxi & Hyi).
    exists xi, yi. destruct (Hj i xi yi Hxi Hyi) as [H1 H2].
    repeat split; try done.
    - intros ->. by apply (Hfresh i).
    - by apply (SI_class d b x l i xi).
    - by apply (SI_class d b x l i xi). }
  assert (Hlen' : forall i, (is_Some (bucket_page_ids d' !! i) \/ is_Some (local_depths d' !! i)) ->
            i < 2 ^ global_depth d).
  { intros i [Hi|Hi]; apply lookup_lt_is_Some in Hi;
      [rewrite Hli, (si_len_ids _ Hsi) in Hi | rewrite Hll, (si_len_lds _ Hsi) in Hi]; done. }
  constructor.
  - by rewrite Hli, Hg, (si_len_ids _ Hsi).
  - by rewrite Hll, Hg, (si_len_lds _ Hsi).
  - intros i l' Hi. rewrite Hg.
    destruct (Hsrc i) as (xi & yi & Hxi & Hyi & _ & _ & Hl' & _); [apply Hlen'; eauto|].
    rewrite Hl' in Hi. injection Hi as <-. case_decide; [lia|].
    by apply (si_ld_le d Hsi i).
  - intros i j xi' yj' L Hi Hj' HL.
    destruct (Hsrc i) as (xi & yi & Hxi & Hyi & Hxinp & Hxic & Hl'i & Hi'); [apply Hlen'; eauto|].
    destruct (Hsrc j) as (xj & yj & Hxj & Hyj & Hxjnp & Hxjc & Hl'j & Hj''); [apply Hlen'; eauto|].
    rewrite Hi in Hi'. rewrite Hj' in Hj''. rewrite Hl'i in HL.
    injection Hi' as ->. injection Hj'' as ->. injection HL as <-.
    destruct (decide (i mod 2 ^ l = b mod 2 ^ l)) as [Ci|Ci];
    destruct (decide (j mod 2 ^ l = b mod 2 ^ l)) as [Cj|Cj].
    + rewrite mod_pow2_S.
      assert (xi = x) as -> by (apply Hxic; done).
      assert (xj = x) as -> by (apply Hxjc; done).
      assert (Hij : i mod 2 ^ l = j mod 2 ^ l) by congruence.
      destruct (Nat.testbit i l), (Nat.testbit j l), (Nat.testbit b l);
        repeat case_decide; try tauto; split; intros E; try tauto; try congruence;
        first [exfalso; congruence | destruct E as [_ E]; discriminate
              | exfalso; match goal with
                | H : ¬ (_ /\ _ <> _) |- _ => solve [apply H; split; [assumption|discriminate]]
                end].
    + rewrite mod_pow2_S. split.
      * intros Heq. exfalso. repeat case_decide; try tauto;
          first [apply Hxjnp; by symmetry | apply Cj, Hxjc; rewrite <- Heq; by apply Hxic].
      * intros [Hij _]. exfalso. apply Cj. congruence.
    + split.
      * intros Heq. exfalso. repeat case_decide; try tauto;
          first [apply Hxinp; done | apply Ci, Hxic; rewrite Heq; by apply Hxjc].
      * intros Hij. exfalso. apply Ci, Hxic.
        assert (xi = xj) as -> by (by apply (si_share d Hsi i j xi xj yi)).
        by apply Hxjc.
    + repeat case_decide; try tauto.
      apply (si_share d Hsi i j xi xj yi Hxi Hxj Hyi).
  - intros i j z L L' Hi Hj' HL HL'.
    destruct (Hsrc i) as (xi & yi & Hxi & Hyi & Hxinp & Hxic & Hl'i & Hi'); [apply Hlen'; eauto|].
    destruct (Hsrc j) as (xj & yj & Hxj & Hyj & Hxjnp & Hxjc & Hl'j & Hj''); [apply Hlen'; eauto|].
    rewrite Hi in Hi'. rewrite Hj' in Hj''. rewrite Hl'i in HL. rewrite Hl'j in HL'.
    injection HL as <-. injection HL' as <-.
    destruct (decide (i mod 2 ^ l = b mod 2 ^ l)) as [Ci|Ci];
    destruct (decide (j mod 2 ^ l = b mod 2 ^ l)) as [Cj|Cj]; try done.
    + exfalso. injection Hi' as Hi'. injection Hj'' as Hj''.
      assert (xi = x) by (by apply Hxic).
      repeat case_decide; try tauto;
        first [apply Hxjnp; congruence | apply Cj, Hxjc; congruence].
    + exfalso. injection Hi' as Hi'. injection Hj'' as Hj''.
      assert (xj = x) by (by apply Hxjc).
      repeat case_decide; try tauto;
        first [apply Hxinp; congruence | apply Ci, Hxic; congruence].
    + injection Hi' as Hi'. injection Hj'' as Hj''.
      repeat case_decide; try tauto. subst.
      by apply (si_ld_eq d Hsi i j xj).
Qed.


Lemma mod_mod_pow2 (L g i : nat) : L <= g -> (i mod 2 ^ g) mod 2 ^ L = i mod 2 ^ L.
Proof.
  intros HL. apply mod_pow2_eq_bits. intros n Hn. apply Nat.mod_pow2_bits_low. lia.
Qed.

Lemma pow2_pos (g : nat) : 0 < 2 ^ g.
Proof. apply Nat.neq_0_lt_0, Nat.pow_nonzero. lia. Qed.

(** Slot [i] of a doubled array is slot [i mod 2^g] of the original. *)
Lemma lookup_double {A} (l : list A) (g i : nat) :
  length l = 2 ^ g -> (l ++ l) !! i = if decide (i < 2 ^ S g) then l !! (i mod 2 ^ g) else None.
Proof.
  intros Hl. pose proof (pow2_pos g). rewrite Nat.pow_succ_r'. case_decide.
  - destruct (decide (i < 2 ^ g)).
    + rewrite lookup_app_l, Nat.mod_small; [done|lia|lia].
    + rewrite lookup_app_r by lia. rewrite Hl. f_equal.
      replace i with ((i - 2 ^ g) + 1 * 2 ^ g) at 2 by lia.
      rewrite Nat.Div0.mod_add, Nat.mod_small; lia.
  - apply lookup_ge_None_2. rewrite length_app. lia.
Qed.

(** The slot [b + 2^g] is the only one of the upper half agreeing with
    [b < 2^g] on the low [g] bits. *)
Lemma upper_image (g b j : nat) :
  b < 2 ^ g -> j < 2 ^ S g ->
  (j mod 2 ^ g = b mod 2 ^ g /\ Nat.testbit j g <> Nat.testbit b g <-> j = b + 2 ^ g).
Proof.
  intros Hb Hj. rewrite (lt_pow2_bits g b g) by lia. rewrite (Nat.mod_small b) by lia.
  rewrite Nat.pow_succ_r' in Hj. split.
  - intros [Hm Hbit]. destruct (decide (j < 2 ^ g)).
    + rewrite (lt_pow2_bits g j g) in Hbit by lia. done.
    + replace j with ((j - 2 ^ g) + 1 * 2 ^ g) in Hm by lia.
      rewrite Nat.Div0.mod_add, Nat.mod_small in Hm by lia. lia.
  - intros ->. split.
    + replace (b + 2 ^ g) with (b + 1 * 2 ^ g) by lia.
      rewrite Nat.Div0.mod_add, Nat.mod_small; lia.
    + rewrite <- flip_high by done. rewrite flip_bit, (lt_pow2_bits g b g) by lia. done.
Qed.


Lemma SI_doubled (d : ExtendibleHTableDirectoryPage) : SI d -> SI (doubled d).
Proof.
  intros Hsi. pose proof (si_len_ids d Hsi) as Hli. pose proof (si_len_lds d Hsi) as Hll.
  assert (Hget : forall {A} (l : list A) i a, length l = 2 ^ global_depth d ->
            (l ++ l) !! i = Some a -> i < 2 ^ S (global_depth d) /\
                                     l !! (i mod 2 ^ global_depth d) = Some a).
  { intros A l i a Hl Hi. rewrite (lookup_double l (global_depth d)) in Hi by done.
    case_decide; done. }
  constructor; unfold doubled; cbn [bucket_page_ids local_depths global_depth max_depth].
  - rewrite length_app, Hli, Nat.pow_succ_r'. lia.
  - rewrite length_app, Hll, Nat.pow_succ_r'. lia.
  - intros i l Hi. apply Hget in Hi as [_ Hi]; [|done].
    apply (si_ld_le d Hsi) in Hi. lia.
  - intros i j x y l Hi Hj Hl.
    apply Hget in Hi as [Hi Hi']; [|done]. apply Hget in Hj as [Hj Hj']; [|done].
    apply Hget in Hl as [_ Hl']; [|done].
    rewrite (si_share d Hsi _ _ x y l Hi' Hj' Hl').
    pose proof (si_ld_le d Hsi _ _ Hl').
    rewrite !mod_mod_pow2 by done. done.
  - intros i j x l l' Hi Hj Hl Hl'.
    apply Hget in Hi as [_ Hi]; [|done]. apply Hget in Hj as [_ Hj]; [|done].
    apply Hget in Hl as [_ Hl]; [|done]. apply Hget in Hl' as [_ Hl']; [|done].
    exact (si_ld_eq d Hsi _ _ x l l' Hi Hj Hl Hl').
Qed.

Lemma set_bucket_page_id_ne (d : ExtendibleHTableDirectoryPage) (i p : nat) :
  bucket_page_ids d <> [] ->
  set_bucket_page_id d i p =
    if i <? length (bucket_page_ids d)
    then Some (mkDir (<[i := p]> (bucket_page_ids d)) (local_depths d) (max_depth d) (global_depth d))
    else None.
Proof. unfold set_bucket_page_id. by destruct (bucket_page_ids d). Qed.

(** The doubling branch of the split, when the bucket's local depth
    equals the global depth. *)
Lemma split_double_spec (d : ExtendibleHTableDirectoryPage) (b x np : nat) :
  SI d -> bucket_page_ids d !! b = Some x -> local_depths d !! b = Some (global_depth d) ->
  ((u32_max <= Z.of_nat (global_depth d))%Z -> split_double d b np = RPanic) /\
  ((Z.of_nat (global_depth d) < u32_max)%Z ->
   global_depth d = max_depth d -> split_double d b np = RErr DirectoryMaxSizeReached) /\
  ((Z.of_nat (global_depth d) < u32_max)%Z -> global_depth d <> max_depth d -> exists d',
     split_double d b np = ROk d' /\ split_result (doubled d) d' b (global_depth d) np).
Proof.
  intros Hsi Hb Hl.
  pose proof (si_len_ids d Hsi) as Hli. pose proof (si_len_lds d Hsi) as Hll.
  assert (Hbl : b < 2 ^ global_depth d) by (rewrite <- Hli; by apply lookup_lt_Some in Hb).
  unfold split_double, increment_local_depth. rewrite Hl.
  split; [|split].
  - intros Hgd. destruct (Z.ltb_spec (Z.of_nat (global_depth d)) u32_max); [lia|done].
  - intros Hgd Hm. rewrite (proj2 (Z.ltb_lt _ _) Hgd).
    unfold increment_global_depth. simpl. rewrite Hm, Nat.eqb_refl. done.
  - intros Hgd Hm. rewrite (proj2 (Z.ltb_lt _ _) Hgd).
    rewrite DirectoryFacts.increment_global_depth_ok; simpl;
      [|rewrite length_insert; lia|done|done].
    rewrite Hli, take_ge by (rewrite length_insert; lia).
    set (lds1 := <[b := S (global_depth d)]> (local_depths d)).
    assert (Hl1 : length lds1 = 2 ^ global_depth d) by (unfold lds1; by rewrite length_insert).
    unfold get_split_image_index, get_local_depth. simpl.
    rewrite (lookup_double lds1 (global_depth d)) by done.
    rewrite decide_True by (rewrite Nat.pow_succ_r'; lia).
    rewrite Nat.mod_small by done.
    unfold lds1. rewrite list_lookup_insert_eq by lia. simpl.
    rewrite Nat.sub_0_r, Nat.shiftl_1_l.
    change (Nat.lxor b (2 ^ global_depth d)) with (flip b (global_depth d)).
    rewrite flip_high by done.
    rewrite set_bucket_page_id_ne; simpl;
      [|intros Hnil; apply (f_equal length) in Hnil; rewrite length_app, Hli in Hnil;
        pose proof (pow2_pos (global_depth d)); simpl in Hnil; lia].
    rewrite length_app, Hli, (proj2 (Nat.ltb_lt _ _)) by lia.
    eexists. split; [reflexivity|].
    unfold split_result, doubled; simpl.
    split; [by rewrite !length_insert|]. split; [rewrite !length_app, length_insert; lia|].
    split; [done|]. split; [done|].
    intros j x' y' Hj Hj'.
    assert (Hjl : j < 2 ^ S (global_depth d)).
    { apply lookup_lt_Some in Hj. rewrite length_app, Hli in Hj. rewrite Nat.pow_succ_r'. lia. }
    rewrite (lookup_double (local_depths d) (global_depth d)) in Hj' by done.
    rewrite decide_True in Hj' by done.
    split.
    + rewrite (lookup_double lds1 (global_depth d)) by done. rewrite decide_True by done.
      rewrite (Nat.mod_small b) by done.
      unfold lds1. destruct (decide (j mod 2 ^ global_depth d = b)) as [->|Hne].
      * rewrite list_lookup_insert_eq by lia. done.
      * rewrite list_lookup_insert_ne by done. done.
    + rewrite (decide_ext _ _ _ _ (upper_image (global_depth d) b j Hbl Hjl)).
      destruct (decide (j = b + 2 ^ global_depth d)) as [->|Hne].
      * rewrite list_lookup_insert_eq; [done|]. rewrite length_app. lia.
      * rewrite list_lookup_insert_ne by done. done.
Qed.


Lemma increment_local_depth_some (d : ExtendibleHTableDirectoryPage) (i ld : nat) :
  local_depths d !! i = Some ld -> (Z.of_nat ld < u32_max)%Z ->
  increment_local_depth d i =
    Some (mkDir (bucket_page_ids d) (<[i := S ld]> (local_depths d)) (max_depth d) (global_depth d)).
Proof. intros H Hld. unfold increment_local_depth. by rewrite H, (proj2 (Z.ltb_lt _ _) Hld). Qed.

Lemma increment_local_depth_overflow (d : ExtendibleHTableDirectoryPage) (i ld : nat) :
  local_depths d !! i = Some ld -> (u32_max <= Z.of_nat ld)%Z -> increment_local_depth d i = None.
Proof.
  intros H Hld. unfold increment_local_depth. rewrite H.
  destruct (Z.ltb_spec (Z.of_nat ld) u32_max); [lia|done].
Qed.

Lemma get_split_image_index_S (d : ExtendibleHTableDirectoryPage) (i l : nat) :
  local_depths d !! i = Some (S l) -> get_split_image_index d i = Some (flip i l).
Proof.
  intros H. unfold get_split_image_index, get_local_depth. rewrite H. simpl.
  by rewrite Nat.sub_0_r, Nat.shiftl_1_l.
Qed.

Section SplitLoop.
Variables (d : ExtendibleHTableDirectoryPage) (b x l np : nat).
Hypotheses (Hsi : SI d) (Hb : bucket_page_ids d !! b = Some x)
  (Hl : local_depths d !! b = Some l) (Hlt : l < global_depth d).



Lemma class_ld (j x' y : nat) :
  bucket_page_ids d !! j = Some x' -> local_depths d !! j = Some y ->
  j mod 2 ^ l = b mod 2 ^ l -> x' = x /\ y = l.
Proof.
  intros Hj Hy Hc. assert (x' = x) as -> by (by apply (SI_class d b x l j x')).
  split; [done|]. symmetry. by apply (si_ld_eq d Hsi b j x l y).
Qed.

Lemma canon_class (j : nat) :
  j mod 2 ^ l = b mod 2 ^ l -> canon b l j mod 2 ^ S l = b mod 2 ^ S l.
Proof.
  intros Hc. apply mod_pow2_S. unfold canon. case_decide as Hbit.
  - done.
  - rewrite flip_mod, flip_bit. split; [done|]. by destruct (Nat.testbit j l), (Nat.testbit b l).
Qed.

Lemma canon_eq (j m : nat) :
  canon b l j = m -> Nat.testbit m l = Nat.testbit b l -> j = m \/ j = flip m l.
Proof.
  unfold canon. case_decide; intros <-; [by left|]. right. by rewrite flip_flip.
Qed.

Lemma canon_lt (j : nat) : j < 2 ^ global_depth d -> canon b l j < 2 ^ global_depth d.
Proof. intros Hj. unfold canon. case_decide; [done|]. by apply flip_lt. Qed.

Lemma loop_inv_step (m : nat) (d' : ExtendibleHTableDirectoryPage)
    (kont : ExtendibleHTableDirectoryPage -> option ExtendibleHTableDirectoryPage) :
  m < 2 ^ global_depth d -> loop_inv d b l np m d' ->
  (if Nat.land b (2 ^ S l - 1) =? Nat.land m (2 ^ S l - 1) then
     increment_local_depth d' m ≫= λ d1,
     get_split_image_index d1 m ≫= λ s,
     increment_local_depth d1 s ≫= λ d2,
     set_bucket_page_id d2 s np ≫= kont
   else kont d') = None \/
  exists d'', (if Nat.land b (2 ^ S l - 1) =? Nat.land m (2 ^ S l - 1) then
                 increment_local_depth d' m ≫= λ d1,
                 get_split_image_index d1 m ≫= λ s,
                 increment_local_depth d1 s ≫= λ d2,
                 set_bucket_page_id d2 s np ≫= kont
               else kont d') = kont d'' /\ loop_inv d b l np (S m) d''.
Proof.
  intros Hm (Hli & Hll & Hg & Hmx & Hj).
  pose proof (si_len_ids d Hsi) as Hli0. pose proof (si_len_lds d Hsi) as Hll0.
  rewrite !land_pow2_mask.
  destruct (Nat.eqb_spec (b mod 2 ^ S l) (m mod 2 ^ S l)) as [Heq|Hne].
  - apply eq_sym, mod_pow2_S in Heq as [Cm Bm].
    destruct (SI_lookup d m Hsi Hm) as (xm & ym & Hxm & Hym).
    destruct (class_ld m xm ym Hxm Hym Cm) as [-> ->].
    destruct (Hj m x l Hxm Hym) as [Hlm Him].
    assert (Hcm : canon b l m = m) by (unfold canon; by rewrite decide_True).
    rewrite Hcm, decide_False in Hlm by lia.
    set (s := flip m l).
    assert (Hs : s < 2 ^ global_depth d) by (by apply flip_lt).
    assert (Cs : s mod 2 ^ l = b mod 2 ^ l) by (unfold s; by rewrite flip_mod).
    assert (Bs : Nat.testbit s l <> Nat.testbit b l).
    { unfold s. rewrite flip_bit, Bm. by destruct (Nat.testbit b l). }
    assert (Hsm : s <> m) by (intros E; apply Bs; by rewrite E).
    assert (Hcs : canon b l s = m).
    { unfold canon. rewrite decide_False by done. unfold s. apply flip_flip. }
    destruct (SI_lookup d s Hsi Hs) as (xs & ys & Hxs & Hys).
    destruct (class_ld s xs ys Hxs Hys Cs) as [-> ->].
    destruct (Hj s x l Hxs Hys) as [Hls His].
    rewrite Hcs, decide_False in Hls by lia.
    destruct (Z.lt_ge_cases (Z.of_nat l) u32_max) as [H32|H32];
      [right|left; by rewrite (increment_local_depth_overflow d' m l Hlm H32)].
    rewrite (increment_local_depth_some d' m l Hlm H32). cbn [mbind option_bind].
    rewrite (get_split_image_index_S _ m l)
      by (cbn [local_depths]; apply list_lookup_insert_eq; rewrite Hll, Hll0; lia).
    fold s. cbn [mbind option_bind].
    rewrite increment_local_depth_some with (ld := l)
      by (cbn [local_depths]; try rewrite list_lookup_insert_ne; done).
    cbn [mbind option_bind].
    rewrite set_bucket_page_id_ne; simpl;
      [|intros Hnil; apply (f_equal length) in Hnil; rewrite Hli, Hli0 in Hnil;
        pose proof (pow2_pos (global_depth d)); simpl in Hnil; lia].
    rewrite Hli, Hli0, (proj2 (Nat.ltb_lt _ _)) by done.
    eexists. split; [reflexivity|].
    unfold loop_inv. cbn [bucket_page_ids local_depths max_depth global_depth].
    split; [by rewrite length_insert|]. split; [by rewrite !length_insert|].
    split; [done|]. split; [done|].
    intros j x' y Hxj Hyj. destruct (Hj j x' y Hxj Hyj) as [Hlj Hij].
    destruct (decide (j = s)) as [->|Hjs].
    + rewrite list_lookup_insert_eq by (rewrite length_insert, Hll, Hll0; lia).
      rewrite list_lookup_insert_eq by (rewrite Hli, Hli0; lia).
      rewrite Hcs. split; f_equal; rewrite decide_True; try done; repeat split; try done.
      all: lia.
    + rewrite !(list_lookup_insert_ne _ s j) by congruence.
      destruct (decide (j = m)) as [->|Hjm].
      * rewrite list_lookup_insert_eq by (rewrite Hll, Hll0; lia).
        rewrite Hcm, decide_True by (split; [done|lia]).
        split; [done|]. rewrite Him, Hcm.
        rewrite !decide_False by tauto. congruence.
      * rewrite (list_lookup_insert_ne _ m j) by congruence.
        assert (Hcj : j mod 2 ^ l = b mod 2 ^ l -> canon b l j <> m).
        { intros Cj E. destruct (canon_eq j m E Bm); done. }
        rewrite Hlj, Hij.
        split; f_equal; apply decide_ext.
        -- split; intros [C1 C2]; split; try done; [lia|].
           assert (canon b l j <> m) by auto. lia.
        -- split; intros [[C1 C2] C3]; split; try done; split; try done; [lia|].
           assert (canon b l j <> m) by auto. lia.
  - right. eexists. split; [reflexivity|].
    split; [done|]. split; [done|]. split; [done|]. split; [done|].
    intros j x' y Hxj Hyj. destruct (Hj j x' y Hxj Hyj) as [Hlj Hij].
    assert (Hcj : j mod 2 ^ l = b mod 2 ^ l -> canon b l j <> m).
    { intros Cj E. apply Hne. rewrite <- E. symmetry. by apply canon_class. }
    rewrite Hlj, Hij.
    split; f_equal; apply decide_ext.
    + split; intros [C1 C2]; split; try done; [|lia].
      assert (canon b l j <> m) by auto. lia.
    + split; intros [[C1 C2] C3]; split; try done; split; try done; [|lia].
      assert (canon b l j <> m) by auto. lia.
Qed.

Lemma loop_inv_run (k m : nat) (d' : ExtendibleHTableDirectoryPage) :
  m + k = 2 ^ global_depth d -> loop_inv d b l np m d' ->
  split_loop d' (2 ^ S l - 1) (Nat.land b (2 ^ S l - 1)) np (seq m k) = None \/
  exists d'', split_loop d' (2 ^ S l - 1) (Nat.land b (2 ^ S l - 1)) np (seq m k) = Some d'' /\
              loop_inv d b l np (2 ^ global_depth d) d''.
Proof.
  revert m d'. induction k as [|k IH]; intros m d' Hmk Hinv.
  - right. exists d'. split; [done|]. by replace (2 ^ global_depth d) with m by lia.
  - destruct (loop_inv_step m d' (λ d3, split_loop d3 (2 ^ S l - 1)
                 (Nat.land b (2 ^ S l - 1)) np (seq (S m) k))) as [Hstep|(d1 & Hstep & Hinv1)];
      [lia|done| |].
    + left. cbn [seq split_loop]. exact Hstep.
    + cbn [seq split_loop]. rewrite Hstep. apply IH; [lia|done].
Qed.

(** The non-doubling branch of the split, when the bucket's local depth
    is below the global depth. *)
Lemma split_loop_spec :
  split_loop d (2 ^ S l - 1) (Nat.land b (2 ^ S l - 1)) np (seq 0 (get_size d)) = None \/
  exists d', split_loop d (2 ^ S l - 1) (Nat.land b (2 ^ S l - 1)) np
               (seq 0 (get_size d)) = Some d' /\ split_result d d' b l np.
Proof.
  destruct (loop_inv_run (2 ^ global_depth d) 0 d) as [Hrun|(d' & Hrun & Hinv)]; [done| | |].
  - split; [done|]. split; [done|]. split; [done|]. split; [done|].
    intros j x' y Hxj Hyj. rewrite !decide_False by lia. done.
  - by left.
  - right. exists d'. split; [done|].
    destruct Hinv as (Hli & Hll & Hg & Hmx & Hj).
    split; [done|]. split; [done|]. split; [done|]. split; [done|].
    intros j x' y Hxj Hyj. destruct (Hj j x' y Hxj Hyj) as [Hlj Hij].
    assert (Hjl : j < 2 ^ global_depth d).
    { apply lookup_lt_Some in Hxj. by rewrite (si_len_ids d Hsi) in Hxj. }
    pose proof (canon_lt j Hjl).
    rewrite Hlj, Hij. split; f_equal; apply decide_ext; tauto.
Qed.

End SplitLoop.

End DirInvariant.

Module TableMonad.
Import Directory Table Invariants TableInvariants.
Section Rules.
Context {K V : Type} `{EqDecision K}.
Implicit Types (s : Pool (K:=K) (V:=V)) (E : ExtendibleHashTableError -> Pool (K:=K) (V:=V) -> Prop).

Lemma spec_ret {A} (a : A) s Q E : Q a s -> spec (ret a) s Q E.
Proof. done. Qed.

Lemma spec_bind {A B} (m : M A) (f : A -> M B) s (P : A -> Pool -> Prop) E' Q E :
  spec m s P E' ->
  (forall a s', P a s' -> spec (f a) s' Q E) ->
  (forall e s', E' e s' -> E e s') ->
  spec (bind m f) s Q E.
Proof.
  intros Hm Hf He. unfold spec, bind in *. destruct (m s); [by apply Hf|by apply He|done].
Qed.

Lemma spec_bind' {A B} (m : M A) (f : A -> M B) s Q E :
  spec m s (λ a s', spec (f a) s' Q E) E -> spec (bind m f) s Q E.
Proof. intros H. eapply spec_bind; eauto. Qed.

Lemma spec_mono {A} (m : M A) s (Q Q' : A -> Pool -> Prop) E E' :
  spec m s Q E -> (forall a s', Q a s' -> Q' a s') -> (forall e s', E e s' -> E' e s') ->
  spec m s Q' E'.
Proof. unfold spec. intros H HQ HE. destruct (m s); [by apply HQ|by apply HE|done]. Qed.

Lemma spec_abort {A} s (Q : A -> Pool -> Prop) E : spec abort s Q E.
Proof. done. Qed.

Lemma spec_unwrap {A} (o : option A) s Q E :
  (forall a, o = Some a -> Q a s) -> spec (unwrap o) s Q E.
Proof. unfold spec, unwrap, ret, abort. destruct o; [auto|done]. Qed.

Lemma spec_lift_res {A} (r : res A) s Q E :
  (forall a, r = ROk a -> Q a s) -> (forall e, r = RErr e -> E e s) -> spec (lift_res r) s Q E.
Proof. unfold spec, lift_res, ret, abort. destruct r; auto. Qed.

Lemma spec_fetch (pid : nat) s Q E :
  (forall pg, pages s !! pid = Some pg -> Q pg s) -> spec (fetch pid) s Q E.
Proof. unfold spec, fetch. destruct (pages s !! pid); auto. Qed.

Lemma spec_set_data (pid : nat) (d : page_data) s Q E :
  Q tt (mkPool (<[pid := d]> (pages s)) (next_page_id s) (free_frames s)) ->
  spec (set_data pid d) s Q E.
Proof. done. Qed.

Lemma spec_new_page s Q E :
  (free_frames s <> 0 ->
   Q (S (next_page_id s))
     (mkPool (<[S (next_page_id s) := Zeroed]> (pages s)) (S (next_page_id s))
             (pred (free_frames s)))) ->
  spec new_page s Q E.
Proof.
  unfold spec, new_page. destruct (Nat.eqb_spec (free_frames s) 0); auto.
Qed.

End Rules.
End TableMonad.

Module InsertInvariant.
Import Directory Table Invariants DirInvariant TableInvariants TableMonad.

Lemma SI_single (np mx : nat) : SI (mkDir [np] [0] mx 0).
Proof.
  split; cbn [bucket_page_ids local_depths global_depth].
  - done.
  - done.
  - intros i l H. destruct i; [|done]. simpl in H. injection H as <-. lia.
  - intros i j x y l Hi Hj Hl. destruct i, j; try done. simpl in *.
    injection Hi as <-. injection Hj as <-. done.
  - intros i j x l l' Hi Hj Hl Hl'. destruct i, j; try done. simpl in *. congruence.
Qed.

(** After a split every slot names the new page or a page the old
    directory named at the same slot. *)
Lemma split_result_ids (d d' : ExtendibleHTableDirectoryPage) (b l np j z : nat) :
  SI d -> split_result d d' b l np -> bucket_page_ids d' !! j = Some z ->
  z = np \/ bucket_page_ids d !! j = Some z.
Proof.
  intros Hsi (Hli & _ & _ & _ & Hj) Hz.
  pose proof (lookup_lt_Some _ _ _ Hz) as Hlt. rewrite Hli, (si_len_ids d Hsi) in Hlt.
  destruct (SI_lookup d j Hsi Hlt) as (x & y & Hx & Hy).
  destruct (Hj j x y Hx Hy) as [_ Hd]. rewrite Hz in Hd. injection Hd as ->.
  case_decide; [by left|by right].
Qed.

Lemma doubled_ids (d : ExtendibleHTableDirectoryPage) (j z : nat) :
  bucket_page_ids (doubled d) !! j = Some z -> exists j', bucket_page_ids d !! j' = Some z.
Proof.
  cbn [doubled bucket_page_ids]. intros H. apply lookup_app_Some in H as [H|[_ H]]; eauto.
Qed.

Section Facts.
Context {K V : Type} `{EqDecision K}.
Variable hash_string : K -> nat.
Variable drain_order : list (K * V) -> list (K * V).

Implicit Types (s : Pool (K:=K) (V:=V)).

Lemma dir_bounds_mono s s' (hp dp : nat) (D : ExtendibleHTableDirectoryPage) :
  dir_bounds s hp dp D -> next_page_id s <= next_page_id s' -> dir_bounds s' hp dp D.
Proof. intros Hb Hn i x Hx. destruct (Hb i x Hx) as (? & ? & ?). split; [lia|done]. Qed.

Lemma ok_post_trans (t : ExtendibleHashTable) (dp : nat) s s1 s' D1 D' :
  ok_post t dp s D1 s1 -> ok_post t dp s1 D' s' -> ok_post t dp s D' s'.
Proof.
  intros (_ & _ & _ & Hh1 & Hn1) (Hsi & Hb & Hd & Hh & Hn).
  split; [done|]. split; [done|]. split; [done|]. split; [congruence|lia].
Qed.

Lemma err_post_after_ok (t : ExtendibleHashTable) (dp : nat) s s1 s' D D1 :
  ok_post t dp s D1 s1 -> err_post t dp s1 D1 s' -> err_post t dp s D s'.
Proof.
  intros (Hsi1 & Hb1 & Hd1 & Hh1 & Hn1) (Hh & Hn & Hd).
  split; [congruence|]. split; [lia|]. right.
  destruct Hd as [[Hd _]|Hd]; [|done].
  exists D1. split; [congruence|]. split; [done|]. by apply (dir_bounds_mono s1).
Qed.

Ltac simpl_pages :=
  cbn [pages next_page_id free_frames] in *;
  repeat first [rewrite lookup_insert_eq | rewrite lookup_insert_ne by lia].

(** The reinsertion loop keeps the directory invariant. *)
Lemma reinsert_inv (t : ExtendibleHashTable) (dp : nat)
    (ins : K -> V -> ExtendibleHTableDirectoryPage -> M ExtendibleHTableDirectoryPage) :
  (forall k v D s, header_page_id t <> dp -> header_page_id t <= next_page_id s ->
     dp <= next_page_id s -> SI D -> dir_bounds s (header_page_id t) dp D ->
     spec (ins k v D) s (ok_post t dp s) (λ _, err_post t dp s D)) ->
  forall entries D s, header_page_id t <> dp -> header_page_id t <= next_page_id s ->
    dp <= next_page_id s -> SI D -> dir_bounds s (header_page_id t) dp D ->
    pages s !! dp = Some (DirectoryData D) ->
    spec (reinsert_entries ins entries D) s (ok_post t dp s) (λ _, err_post t dp s D).
Proof.
  intros Hins entries. induction entries as [|[k v] rest IH];
    intros D s Hhd Hh Hd Hsi Hb Hdp.
  - apply spec_ret. split; [done|]. split; [done|]. split; [done|]. split; [done|lia].
  - cbn [reinsert_entries].
    eapply spec_bind; [apply Hins; done| |done].
    intros D1 s1 Hok. pose proof Hok as (Hsi1 & Hb1 & Hd1 & Hh1 & Hn1).
    eapply spec_mono; [apply IH; try done; lia| |].
    + intros D' s' Hok'. by apply (ok_post_trans _ _ _ s1 _ D1).
    + intros e s' Herr. by apply (err_post_after_ok _ _ _ s1 _ _ D1).
Qed.

(** [insert_internal] keeps the directory invariant, from an installed
    directory or a fresh one. *)
Lemma insert_internal_inv (t : ExtendibleHashTable) (fuel : nat) :
  forall key value D dp s, header_page_id t <> dp -> header_page_id t <= next_page_id s ->
    dp <= next_page_id s -> SI D \/ fresh_dir (bucket_max_size t) D ->
    dir_bounds s (header_page_id t) dp D ->
    spec (insert_internal hash_string drain_order fuel t key value D dp) s
      (ok_post t dp s) (λ _, err_post t dp s D).
Proof.
  induction fuel as [|fuel IH]; intros key value D dp s Hhd Hh Hd HD Hb; [apply spec_abort|].
  cbn [insert_internal].
  eapply (spec_bind _ _ _ (λ bbd s1, let '(bucket, bp, D1) := bbd in
     next_page_id s <= next_page_id s1 /\
     pages s1 !! header_page_id t = pages s !! header_page_id t /\
     pages s1 !! dp = pages s !! dp /\
     bucket_page_ids D1 !! hash_to_bucket_index D (hash_string key) = Some bp /\
     bp <= next_page_id s1 /\ bp <> dp /\ bp <> header_page_id t /\
     dir_bounds s1 (header_page_id t) dp D1 /\
     (SI D1 \/ (local_depths D1 = [] /\ bucket = Bucket.new 0)) /\
     (SI D \/ bucket = Bucket.new (bucket_max_size t))) (λ _ _, False)); [| |done].
  { destruct HD as [Hsi | (Hids & Hgd & Hlds)].
    - assert (Hbi : hash_to_bucket_index D (hash_string key) < 2 ^ global_depth D).
      { rewrite hash_to_bucket_index_mod. apply Nat.mod_upper_bound, Nat.pow_nonzero. lia. }
      destruct (SI_lookup D _ Hsi Hbi) as (x & y & Hx & Hy).
      unfold get_bucket_page_id. rewrite Hx.
      apply spec_bind'. apply spec_fetch. intros pg _.
      apply spec_bind'. apply spec_unwrap. intros bucket _. apply spec_ret.
      destruct (Hb _ _ Hx) as (? & ? & ?).
      split; [lia|]. split; [done|]. split; [done|]. split; [done|].
      split; [done|]. split; [done|]. split; [done|]. split; [done|].
      split; by left.
    - assert (Hbi : hash_to_bucket_index D (hash_string key) = 0).
      { rewrite hash_to_bucket_index_mod, Hgd, Nat.pow_0_r. apply Nat.mod_1_r. }
      rewrite Hbi. unfold get_bucket_page_id. rewrite Hids.
      apply spec_bind'. apply spec_new_page. intros _.
      apply spec_bind'. apply spec_unwrap. intros D1 HD1.
      unfold set_bucket_page_id in HD1. rewrite Hids in HD1. simpl in HD1.
      injection HD1 as <-. apply spec_ret. simpl_pages.
      split; [lia|]. split; [done|]. split; [done|]. split; [done|].
      split; [lia|]. split; [lia|]. split; [lia|]. split.
      + intros i x Hx. destruct i; [|done]. simpl in Hx. injection Hx as <-.
        cbn [next_page_id]. lia.
      + split; [|by right]. rewrite Hgd.
        destruct Hlds as [-> | [-> ->]]; [left; apply SI_single | by right]. }
  intros [[bucket bp] D1] s1 (Hn1 & Hh1 & Hd1 & Hbp & Hbpn & Hbpd & Hbph & Hb1 & Hsi1 & Hfresh).
  cbv beta iota.
  destruct (Bucket.is_full bucket) eqn:Hfull; cbn [negb].
  2:{ assert (Hsi1' : SI D1).
      { destruct Hsi1 as [?|[_ Hnew]]; [done|]. rewrite Hnew in Hfull. discriminate. }
      apply spec_bind', spec_set_data, spec_bind', spec_set_data, spec_ret.
      unfold ok_post. simpl_pages.
      split; [done|]. split; [|split; [done|split; [done|lia]]].
      intros i x Hx. apply (Hb1 i x Hx). }
  assert (Hbmax : SI D \/ bucket_max_size t = 0).
  { destruct Hfresh as [?|Hnew]; [by left|right]. rewrite Hnew in Hfull.
    unfold Bucket.is_full, Bucket.new in Hfull. simpl in Hfull.
    destruct (bucket_max_size t); [done|discriminate]. }
  apply spec_bind'. apply spec_unwrap. intros ld Hld. unfold get_local_depth in Hld.
  assert (Hsi1' : SI D1).
  { destruct Hsi1 as [|[Hl _]]; [done|]. rewrite Hl in Hld. discriminate. }
  apply spec_bind'. apply spec_new_page. intros Hfree.
  apply spec_bind'. apply spec_set_data.
  apply spec_bind'. apply spec_unwrap. intros ld' Hld'.
  unfold get_local_depth in Hld'. rewrite Hld in Hld'. injection Hld' as <-.
  set (bi := hash_to_bucket_index D (hash_string key)) in *.
  set (np := S (next_page_id s1)).
  cbn [pages next_page_id free_frames].
  set (s3 := mkPool (<[np := BucketData (Bucket.new (bucket_max_size t))]> (<[np := Zeroed]> (pages s1)))
                    np (pred (free_frames s1))).
  eapply (spec_bind _ _ _ (λ D2 s', s' = s3 /\ SI D2 /\ forall j z,
     bucket_page_ids D2 !! j = Some z -> z = np \/ exists j', bucket_page_ids D1 !! j' = Some z)
     (λ _ s', s' = s3)).
  { destruct (Nat.eqb_spec ld (get_global_depth D1)) as [Heq|Hne].
    - unfold get_global_depth in Heq. subst ld.
      destruct (split_double_spec D1 bi bp np Hsi1' Hbp Hld) as (Hpan & Hmax & Hok).
      destruct (Z.lt_ge_cases (Z.of_nat (global_depth D1)) u32_max) as [H32|H32];
        [|rewrite (Hpan H32); apply spec_lift_res; intros ? ?; discriminate].
      destruct (decide (global_depth D1 = max_depth D1)) as [Hm|Hm].
      + rewrite (Hmax H32 Hm). apply spec_lift_res; [intros ? ?; discriminate|done].
      + destruct (Hok H32 Hm) as (D2 & Hsplit & Hres). rewrite Hsplit.
        apply spec_lift_res; [|intros ? ?; discriminate].
        intros a [= <-]. split; [done|]. split.
        * apply (SI_split (doubled D1) D2 bi bp (global_depth D1) np);
            [by apply SI_doubled| | |cbn [doubled global_depth]; lia| |done].
          -- cbn [doubled bucket_page_ids]. rewrite lookup_app_l; [done|].
             eapply lookup_lt_Some. exact Hbp.
          -- cbn [doubled local_depths]. rewrite lookup_app_l; [done|].
             eapply lookup_lt_Some. exact Hld.
          -- intros j Hj. destruct (doubled_ids D1 j np Hj) as [j' Hj'].
             destruct (Hb1 j' np Hj') as (? & _). unfold np in *. lia.
        * intros j z Hz.
          destruct (split_result_ids (doubled D1) D2 bi (global_depth D1) np j z
                      (SI_doubled D1 Hsi1') Hres Hz) as [->|Hz']; [by left|right].
          by apply doubled_ids with j.
    - apply spec_unwrap. intros D2 HD2.
      assert (Hlt : ld < global_depth D1).
      { pose proof (si_ld_le D1 Hsi1' _ _ Hld). unfold get_global_depth in Hne. lia. }
      destruct (split_loop_spec D1 bi bp ld np Hsi1' Hbp Hld Hlt) as [Hrun|(D2' & Hrun & Hres)];
        rewrite Hrun in HD2; [discriminate|]. injection HD2 as <-.
      split; [done|]. split.
      + apply (SI_split D1 D2' bi bp ld np); try done.
        intros j Hj. destruct (Hb1 j np Hj) as (? & _). unfold np in *. lia.
      + intros j z Hz.
        destruct (split_result_ids D1 D2' bi ld np j z Hsi1' Hres Hz) as [->|Hz'];
          [by left|right]. eauto. }
  2:{ intros e s' ->. unfold err_post, s3. simpl_pages.
      split; [done|]. split; [unfold np; lia|]. left. split; [|done]. unfold np. simpl_pages. done. }
  intros D2 s' (-> & Hsi2 & Hids2). unfold get_entries. cbv beta iota.
  apply spec_bind', spec_set_data, spec_bind', spec_set_data.
  match goal with |- spec _ ?st _ _ => assert (Hok5 : ok_post t dp s D2 st) end.
  { unfold ok_post, s3. cbn [pages next_page_id free_frames]. split; [done|]. split.
    - intros j z Hz. cbn [next_page_id].
      destruct (Hids2 j z Hz) as [->|[j' Hj']]; [unfold np; lia|].
      destruct (Hb1 j' z Hj') as (? & ? & ?). unfold np. lia.
    - unfold np. simpl_pages. split; [done|]. split; [done|lia]. }
  pose proof Hok5 as (Hsi5 & Hb5 & Hd5 & Hh5 & Hn5).
  match goal with |- spec _ ?st _ _ =>
    apply (spec_mono _ st (ok_post t dp st) _ (λ _, err_post t dp st D2)) end;
    [apply (reinsert_inv t dp); try done; try lia| |].
  - intros k v D' s'' ? ? ? ? ?. apply IH; auto.
  - intros D' s'' Hok'. by apply (ok_post_trans _ _ _ _ _ D2 _ Hok5).
  - intros e s'' Herr. by apply (err_post_after_ok _ _ _ _ _ _ D2 Hok5).
Qed.


Lemma table_inv_ok (t : ExtendibleHashTable) (dp : nat) s0 s' (D' : ExtendibleHTableDirectoryPage) :
  pages s0 !! header_page_id t = Some (HeaderData (Header.mkHeader [Some dp] 0)) ->
  header_page_id t <= next_page_id s0 -> dp <> header_page_id t -> dp <= next_page_id s0 ->
  ok_post t dp s0 D' s' -> table_inv t s'.
Proof.
  intros Hhdr Hh Hdh Hd (Hsi & Hb & Hdp & Hh' & Hn).
  exists (Some dp). split; [congruence|]. split; [lia|]. split; [done|]. split; [lia|].
  left. by exists D'.
Qed.

Lemma table_inv_err (t : ExtendibleHashTable) (dp : nat) s0 s' (D0 : ExtendibleHTableDirectoryPage) :
  pages s0 !! header_page_id t = Some (HeaderData (Header.mkHeader [Some dp] 0)) ->
  header_page_id t <= next_page_id s0 -> dp <> header_page_id t -> dp <= next_page_id s0 ->
  (SI D0 \/ bucket_max_size t = 0 ->
   (exists D, pages s0 !! dp = Some (DirectoryData D) /\ SI D /\
              dir_bounds s0 (header_page_id t) dp D) \/
   (pages s0 !! dp = Some Zeroed /\ bucket_max_size t = 0)) ->
  err_post t dp s0 D0 s' -> table_inv t s'.
Proof.
  intros Hhdr Hh Hdh Hd Hcase (Hh' & Hn & Hdp).
  exists (Some dp). split; [congruence|]. split; [lia|]. split; [done|]. split; [lia|].
  destruct Hdp as [[Hdp Hc]|(D'' & ? & ? & ?)]; [|left; by exists D''].
  destruct (Hcase Hc) as [(D & HD & Hsi & Hb)|[HZ Hz]].
  - left. exists D. split; [congruence|]. split; [done|]. by apply (dir_bounds_mono s0).
  - right. split; [congruence|done].
Qed.

(** [insert] keeps the table invariant, whether it succeeds or fails. *)
Lemma insert_inv (fuel : nat) (t : ExtendibleHashTable) (key : K) (value : V) s :
  table_inv t s ->
  spec (insert hash_string drain_order fuel t key value) s
    (λ _ s', table_inv t s') (λ _ s', table_inv t s').
Proof.
  intros (slot & Hhdr & Hh & Hslot).
  unfold insert. apply spec_bind'. apply spec_fetch. intros pg Hpg.
  rewrite Hhdr in Hpg. injection Hpg as <-.
  apply spec_bind'. apply spec_unwrap. intros header Hdec. injection Hdec as <-.
  assert (Hdi : Header.hash_to_directory_index (Header.mkHeader [slot] 0) (hash_string key) = Some 0).
  { unfold Header.hash_to_directory_index. simpl. by rewrite Nat.land_0_r. }
  rewrite Hdi. apply spec_bind'. apply spec_unwrap. intros di [= <-].
  unfold Header.get_directory_page_id. cbn [Header.directory_page_ids].
  destruct slot as [dp|]; cbn [lookup list_lookup].
  - destruct Hslot as (Hdh & Hd & Hcase).
    apply spec_bind', spec_bind'. apply spec_fetch. intros pg Hpg.
    apply spec_bind'. apply spec_unwrap. intros D0 HD0. apply spec_ret. cbv beta iota.
    assert (Hpre : SI D0 \/ fresh_dir (bucket_max_size t) D0 /\ pg = Zeroed).
    { destruct Hcase as [(D & HD & Hsi & _)|[HZ Hz]].
      - rewrite HD in Hpg. injection Hpg as <-. injection HD0 as <-. by left.
      - rewrite HZ in Hpg. injection Hpg as <-. injection HD0 as <-. right.
        split; [|done]. split; [done|]. split; [done|]. by right. }
    eapply spec_bind; [apply (insert_internal_inv t fuel key value D0 dp s); try done; try lia| |].
    + destruct Hpre as [|[]]; [by left|by right].
    + intros i x Hx. destruct Hcase as [(D & HD & Hsi & Hb)|[HZ Hz]].
      * destruct Hpre as [|[_ ->]]; [|congruence].
        rewrite HD in Hpg. injection Hpg as <-. injection HD0 as <-. by apply (Hb i x).
      * rewrite HZ in Hpg. injection Hpg as <-. injection HD0 as <-. done.
    + intros D' s' Hok. apply spec_ret. by apply (table_inv_ok t dp s s' D').
    + intros e s' Herr. by apply (table_inv_err t dp s s' D0).
  - apply spec_bind', spec_bind'. apply spec_new_page. intros Hfree.
    apply spec_bind'. apply spec_unwrap. intros h' Hh'.
    unfold Header.set_directory_page_id in Hh'. cbn in Hh'. injection Hh' as <-.
    apply spec_bind'. apply spec_set_data. apply spec_ret. cbv beta iota.
    cbn [pages next_page_id free_frames].
    set (dp := S (next_page_id s)).
    set (s2 := mkPool (<[header_page_id t := HeaderData (Header.mkHeader [Some dp] 0)]>
                         (<[dp := Zeroed]> (pages s))) dp (pred (free_frames s))).
    assert (Hhdr2 : pages s2 !! header_page_id t =
                    Some (HeaderData (Header.mkHeader [Some dp] 0))).
    { unfold s2. cbn [pages]. apply lookup_insert_eq. }
    assert (Hdp2 : pages s2 !! dp = Some Zeroed).
    { unfold s2, dp. simpl_pages. done. }
    eapply spec_bind;
      [apply (insert_internal_inv t fuel key value (Directory.new (directory_max_depth t)) dp s2);
       unfold s2, dp; cbn [next_page_id]; try lia| |].
    + right. split; [done|]. split; [done|]. by left.
    + intros i x Hx. destruct i; done.
    + intros D' s' Hok. apply spec_ret.
      apply (table_inv_ok t dp s2 s' D'); try done; unfold s2, dp; cbn; lia.
    + intros e s' Herr. apply (table_inv_err t dp s2 s' (Directory.new (directory_max_depth t)));
        try done; try (unfold s2, dp; cbn; lia).
      intros [Hsi|Hz]; [|by right].
      pose proof (si_len_ids _ Hsi) as Hl. done.
Qed.

(** Every reachable pool satisfies the table invariant. *)
Lemma reachable_table_inv (t : ExtendibleHashTable) s :
  reachable hash_string drain_order t s -> table_inv t s.
Proof.
  induction 1 as [dmax bmax p p' Hnew|fuel key value p p' _ IH Hins|fuel key value e p p' _ IH Hins].
  - apply TableFacts.new_spec in Hnew as (_ & -> & ->).
    exists None. cbn [header_page_id pages next_page_id]. rewrite lookup_insert_eq.
    split; [done|]. split; [lia|done].
  - pose proof (insert_inv fuel t key value p IH) as H. unfold spec in H. by rewrite Hins in H.
  - pose proof (insert_inv fuel t key value p IH) as H. unfold spec in H. by rewrite Hins in H.
Qed.

(** A directory satisfying [SI] holds each bucket page id [2^(gd - ld)] times. *)
Lemma SI_count (D : ExtendibleHTableDirectoryPage) (j x l : nat) :
  SI D -> bucket_page_ids D !! j = Some x -> local_depths D !! j = Some l ->
  count_occ Nat.eq_dec (bucket_page_ids D) x = 2 ^ (global_depth D - l).
Proof.
  intros Hsi Hx Hl. rewrite count_occ_indices, (si_len_ids D Hsi).
  rewrite (filter_ext_in _ (λ k, k mod 2 ^ l =? j mod 2 ^ l)).
  - pose proof (si_ld_le D Hsi j l Hl) as Hle.
    replace (global_depth D) with (l + (global_depth D - l)) at 1 by lia.
    apply count_mod_pow2.
  - intros k Hk. apply in_seq in Hk.
    destruct (SI_lookup D k Hsi) as (z & y & Hz & _); [lia|].
    pose proof (SI_class D j x l k z Hsi Hx Hl Hz) as Hc. rewrite Hz.
    destruct (Nat.eqb_spec (k mod 2 ^ l) (j mod 2 ^ l)) as [E|E].
    + apply bool_decide_eq_true. f_equal. by apply Hc.
    + apply bool_decide_eq_false. intros [= ?]. by apply E, Hc.
Qed.

(** C3.  In every pool a table reaches through [ExtendibleHashTable::new]
    and [insert]s (successful or failed), the directory installed in a
    header slot has [2^global_depth] entries, every local depth is at most
    the global depth, and the bucket page id of an entry of local depth [l]
    appears exactly [2^(global_depth - l)] times in the directory. *)
Theorem reachable_directory_depths (t : ExtendibleHashTable) s
    (h : Header.ExtendibleHTableHeaderPage) (i dp : nat) (D : ExtendibleHTableDirectoryPage)
    (Hreach : reachable hash_string drain_order t s)
    (Hh : pages s !! header_page_id t = Some (HeaderData h))
    (Hi : Header.get_directory_page_id h i = Some dp)
    (Hd : pages s !! dp = Some (DirectoryData D)) :
  length (bucket_page_ids D) = 2 ^ global_depth D /\
  (forall j l, local_depths D !! j = Some l -> l <= global_depth D) /\
  (forall j x l, bucket_page_ids D !! j = Some x -> local_depths D !! j = Some l ->
     count_occ Nat.eq_dec (bucket_page_ids D) x = 2 ^ (global_depth D - l)).
Proof.
  apply reachable_table_inv in Hreach as (slot & Hhdr & _ & Hslot).
  rewrite Hhdr in Hh. injection Hh as <-.
  unfold Header.get_directory_page_id in Hi. cbn [Header.directory_page_ids] in Hi.
  destruct i as [|i]; [|destruct i; discriminate].
  destruct slot as [dp'|]; cbn in Hi; [injection Hi as <-|discriminate].
  destruct Hslot as (_ & _ & [(D' & HD' & Hsi & _)|[HZ _]]); [|congruence].
  rewrite Hd in HD'. injection HD' as <-.
  split; [apply (si_len_ids D Hsi)|]. split; [apply (si_ld_le D Hsi)|].
  intros j x l Hx Hl. by apply (SI_count D j x l).
Qed.

End Facts.

Lemma reachable_directory_depths_witness :
  let t := mkTable 3 2 1 in
  let p0 := match Table.new (K:=nat) (V:=nat) 3 2 (pool_init 8) with
            | Done _ p => p | _ => pool_init 0 end in
  let step p k := match insert (λ k : nat, k) (λ l : list (nat * nat), l) 10 t k (10 * k) p with
                  | Done _ p' => p' | _ => p end in
  let s := step (step (step p0 0) 1) 2 in
  reachable (λ k : nat, k) (λ l : list (nat * nat), l) t s /\
  pages s !! header_page_id t = Some (HeaderData (Header.mkHeader [Some 2] 0)) /\
  Header.get_directory_page_id (Header.mkHeader [Some 2] 0) 0 = Some 2 /\
  pages s !! 2 = Some (DirectoryData (mkDir [3; 4] [1; 1] 3 1)) /\
  (length [3; 4] = 2 ^ 1 /\
   (forall j l, [1; 1] !! j = Some l -> l <= 1) /\
   (forall j x l, [3; 4] !! j = Some x -> [1; 1] !! j = Some l ->
      count_occ Nat.eq_dec [3; 4] x = 2 ^ (1 - l))).
Proof.
  intros t p0 step s.
  assert (Hr : reachable (λ k : nat, k) (λ l : list (nat * nat), l) t s).
  { apply (reachable_insert_ok _ _ t 10 2 20 (step (step p0 0) 1));
      [|unfold s, step, p0, t; vm_compute; reflexivity].
    apply (reachable_insert_ok _ _ t 10 1 10 (step p0 0));
      [|unfold step, p0, t; vm_compute; reflexivity].
    apply (reachable_insert_ok _ _ t 10 0 0 p0);
      [|unfold step, p0, t; vm_compute; reflexivity].
    apply (reachable_new _ _ t 3 2 (pool_init 8)). unfold p0, t. vm_compute. reflexivity. }
  assert (Hh : pages s !! header_page_id t = Some (HeaderData (Header.mkHeader [Some 2] 0)))
    by (unfold s, step, p0, t; vm_compute; reflexivity).
  assert (Hd : pages s !! 2 = Some (DirectoryData (mkDir [3; 4] [1; 1] 3 1)))
    by (unfold s, step, p0, t; vm_compute; reflexivity).
  split; [exact Hr|]. split; [exact Hh|]. split; [reflexivity|]. split; [exact Hd|].
  exact (reachable_directory_depths _ _ t s _ 0 2 _ Hr Hh eq_refl Hd).
Defined.
End InsertInvariant.

Module MapFacts.
Import Bucket.
Section M.
Context {K V : Type} `{EqDecision K}.
Implicit Types (l : list (K * V)) (k : K) (v : V).

Lemma map_get_insert l k v k' :
  map_get (map_insert l k v) k' = if decide (k' = k) then Some v else map_get l k'.
Proof.
  induction l as [|[k1 v1] l IH]; cbn [map_get map_insert map fst In app].
  - done.
  - destruct (decide (k = k1)) as [->|Hne]; cbn [map_get map_insert].
    + case_decide; done.
    + rewrite IH. case_decide as H1; case_decide as H2; subst; done.
Qed.

Lemma map_insert_in l k v kv :
  In kv (map_insert l k v) -> kv = (k, v) \/ In kv l.
Proof.
  induction l as [|[k1 v1] l IH]; cbn [map_get map_insert map fst In app].
  - intros [<-|[]]. by left.
  - case_decide as Ek; cbn [map_get map_insert map fst In].
    + intros [<-|Hin]; [by left|by right; right].
    + intros [<-|Hin]; [by right; left|]. destruct (IH Hin); [by left|by right; right].
Qed.

Lemma map_insert_keys l k v :
  map fst (map_insert l k v) = if decide (k ∈ map fst l) then map fst l else map fst l ++ [k].
Proof.
  induction l as [|[k1 v1] l IH]; cbn [map_get map_insert map fst In app].
  - rewrite decide_False; [done|]. apply not_elem_of_nil.
  - destruct (decide (k = k1)) as [->|E]; cbn [map fst].
    + rewrite decide_True; [done|]. apply elem_of_cons. by left.
    + rewrite IH. destruct (decide (k ∈ map fst l)) as [H1|H1].
      * rewrite decide_True; [done|]. apply elem_of_cons. by right.
      * rewrite decide_False; [done|]. intros H. apply elem_of_cons in H as [|]; done.
Qed.

Lemma map_insert_nodup l k v : NoDup (map fst l) -> NoDup (map fst (map_insert l k v)).
Proof.
  intros Hnd. rewrite map_insert_keys. case_decide; [done|].
  apply NoDup_app. split; [done|]. split; [|apply NoDup_singleton].
  intros x Hx ->%list_elem_of_singleton. done.
Qed.

Lemma map_insert_length l k v : length (map_insert l k v) <= S (length l).
Proof.
  rewrite <- (length_map fst (map_insert l k v)), map_insert_keys.
  case_decide; rewrite ?length_app, length_map; cbn; lia.
Qed.

Lemma map_get_In l k v : NoDup (map fst l) -> (map_get l k = Some v <-> In (k, v) l).
Proof.
  induction l as [|[k1 v1] l IH]; cbn [map_get map_insert map fst In app]; intros Hnd; [split; [discriminate|done]|].
  apply NoDup_cons in Hnd as [Hk1 Hnd]. case_decide as E.
  - subst. split.
    + intros [= ->]. by left.
    + intros [[= ->]|H]; [done|]. exfalso. apply Hk1, list_elem_of_In, in_map_iff.
      by exists (k1, v).
  - rewrite IH by done. split; [by right|]. intros [[= -> ->]|H]; [done|done].
Qed.

Lemma map_get_None l k : map_get l k = None <-> ~ In k (map fst l).
Proof.
  induction l as [|[k1 v1] l IH]; cbn [map_get map_insert map fst In app]; [split; [intros _ Hf; exact Hf|done]|]. case_decide as E.
  - subst. split; [discriminate|]. intros H. exfalso. by apply H; left.
  - rewrite IH. split; [intros H [->|H']; done|]. intros H H'. by apply H; right.
Qed.

Lemma map_get_perm l l' k :
  NoDup (map fst l) -> Permutation l l' -> map_get l k = map_get l' k.
Proof.
  intros Hnd Hp. assert (Hnd' : NoDup (map fst l')).
  { apply NoDup_ListNoDup. apply NoDup_ListNoDup in Hnd.
    eapply Permutation_NoDup; [apply Permutation_map, Hp|done]. }
  destruct (map_get l k) as [v|] eqn:E.
  - symmetry. apply map_get_In; [done|]. apply map_get_In in E; [|done].
    by apply (Permutation_in _ Hp).
  - symmetry. apply map_get_None. apply map_get_None in E. intros H. apply E.
    apply (Permutation_in _ (Permutation_map fst (Permutation_sym Hp)) H).
Qed.

Lemma map_get_snoc l k v k' :
  ~ In k (map fst l) ->
  map_get (l ++ [(k, v)]) k' = if decide (k' = k) then Some v else map_get l k'.
Proof.
  induction l as [|[k1 v1] l IH]; cbn [map_get map_insert map fst In app]; intros Hk.
  - case_decide; done.
  - destruct (decide (k' = k1)) as [->|E1].
    + rewrite decide_False; [done|]. intros ->. by apply Hk; left.
    + rewrite IH; [done|]. intros H. by apply Hk; right.
Qed.

End M.
End MapFacts.

Module InsertContent.
Import Directory Table Invariants DirInvariant TableInvariants TableMonad InsertInvariant
       ContentDefs MapFacts.

Lemma route_Some (D : ExtendibleHTableDirectoryPage) (h : nat) :
  SI D -> exists x, route D h = Some x.
Proof.
  intros Hsi. unfold route.
  destruct (SI_lookup D (h mod 2 ^ global_depth D) Hsi) as (x & _ & Hx & _).
  - apply Nat.mod_upper_bound, Nat.pow_nonzero. lia.
  - by exists x.
Qed.

Lemma route_slot (D : ExtendibleHTableDirectoryPage) (h x : nat) :
  route D h = Some x -> exists i, bucket_page_ids D !! i = Some x.
Proof. unfold route. eauto. Qed.

(** How a split redirects hashes: those of the split bucket [x] go to [x]
    or to the new page, the others stay where they were. *)
Lemma split_route (d d' : ExtendibleHTableDirectoryPage) (b x l np h : nat) :
  SI d -> bucket_page_ids d !! b = Some x -> local_depths d !! b = Some l ->
  split_result d d' b l np ->
  exists y, route d h = Some y /\ (y <> x -> route d' h = Some y) /\
            (y = x -> route d' h = Some x \/ route d' h = Some np).
Proof.
  intros Hsi Hb Hl Hres. pose proof Hres as (_ & _ & Hg & _ & Hj).
  destruct (route_Some d h Hsi) as [y Hy]. exists y. split; [done|].
  unfold route in *. rewrite Hg.
  assert (Hlt : h mod 2 ^ global_depth d < 2 ^ global_depth d).
  { apply Nat.mod_upper_bound, Nat.pow_nonzero. lia. }
  destruct (SI_lookup d _ Hsi Hlt) as (y' & z & Hy' & Hz).
  rewrite Hy in Hy'. injection Hy' as <-.
  destruct (Hj _ y z Hy Hz) as [_ Hd']. rewrite Hd'.
  split.
  - intros Hne. rewrite decide_False; [done|]. intros [Hc _].
    apply Hne. by apply (SI_class d b x l _ y Hsi Hb Hl Hy).
  - intros ->. case_decide; [by right|by left].
Qed.

Lemma route_doubled (d : ExtendibleHTableDirectoryPage) (h : nat) :
  SI d -> route (doubled d) h = route d h.
Proof.
  intros Hsi. unfold route. cbn [doubled bucket_page_ids global_depth].
  rewrite (lookup_double _ (global_depth d)) by apply (si_len_ids d Hsi).
  rewrite decide_True by (apply Nat.mod_upper_bound, Nat.pow_nonzero; lia).
  f_equal. apply mod_mod_pow2. lia.
Qed.

Section Drain.
Context {K V : Type} `{EqDecision K}.
Variable hash_string : K -> nat.
Variable drain_order : list (K * V) -> list (K * V).

Implicit Types (s : Pool (K:=K) (V:=V)).


Lemma bucket_at_insert_ne s (x y : nat) (pg : page_data) :
  x <> y -> bucket_at (mkPool (<[x := pg]> (pages s)) (next_page_id s) (free_frames s)) y =
            bucket_at s y.
Proof. intros Hne. unfold bucket_at. cbn [pages]. by rewrite lookup_insert_ne. Qed.

Lemma bucket_at_insert_eq s (x : nat) (B : Bucket.ExtendibleHTableBucketPage) :
  bucket_at (mkPool (<[x := BucketData B]> (pages s)) (next_page_id s) (free_frames s)) x = Some B.
Proof. unfold bucket_at. cbn [pages]. by rewrite lookup_insert_eq. Qed.

Lemma bucket_at_upd s (dp tp x : nat) (D : ExtendibleHTableDirectoryPage)
    (B : Bucket.ExtendibleHTableBucketPage) n f :
  x <> dp ->
  bucket_at (mkPool (<[dp := DirectoryData D]> (<[tp := BucketData B]> (pages s))) n f) x =
  if decide (x = tp) then Some B else bucket_at s x.
Proof.
  intros Hx. unfold bucket_at. cbn [pages]. rewrite lookup_insert_ne by congruence.
  case_decide; [subst; by rewrite lookup_insert_eq|by rewrite lookup_insert_ne].
Qed.

(** The fast path of [insert_internal]: the routed bucket has room. *)
Lemma insert_internal_nonfull (f : nat) (t : ExtendibleHashTable) (k : K) (v : V)
    (D : ExtendibleHTableDirectoryPage) (dp tp : nat) s (Bt : Bucket.ExtendibleHTableBucketPage)
    (Q : ExtendibleHTableDirectoryPage -> Pool -> Prop) E :
  route D (hash_string k) = Some tp -> bucket_at s tp = Some Bt ->
  length (Bucket.data Bt) < Bucket.max_size Bt ->
  Q D (mkPool (<[dp := DirectoryData D]> (<[tp := BucketData (Bucket.insert Bt k v)]> (pages s)))
              (next_page_id s) (free_frames s)) ->
  spec (insert_internal hash_string drain_order (S f) t k v D dp) s Q E.
Proof.
  intros Hr HB Hlt HQ. cbn [insert_internal].
  apply spec_bind'. unfold get_bucket_page_id. rewrite hash_to_bucket_index_mod.
  unfold route in Hr. rewrite Hr.
  unfold bucket_at in HB. destruct (pages s !! tp) as [pg|] eqn:Hpg; [|discriminate].
  apply spec_bind'. apply spec_fetch. intros pg' Hpg'. rewrite Hpg in Hpg'. injection Hpg' as <-.
  apply spec_bind', spec_unwrap. intros B HB'. cbn in HB. rewrite HB in HB'. injection HB' as <-.
  apply spec_ret. cbv beta iota.
  unfold Bucket.is_full. rewrite (proj2 (Nat.eqb_neq _ _)) by lia. cbn [negb].
  apply spec_bind', spec_set_data, spec_bind', spec_set_data, spec_ret. exact HQ.
Qed.

Lemma view_insert s (D : ExtendibleHTableDirectoryPage) (k' : K) (v' : V) (dp tp : nat)
    (B0 Bt : Bucket.ExtendibleHTableBucketPage) n f (k : K) :
  route D (hash_string k') = Some tp -> bucket_at s tp = Some B0 ->
  Bucket.data B0 = Bucket.data Bt ->
  (forall i x, bucket_page_ids D !! i = Some x -> x <> dp) ->
  view hash_string
    (mkPool (<[dp := DirectoryData D]> (<[tp := BucketData (Bucket.insert Bt k' v')]> (pages s))) n f)
    D k =
  if decide (k = k') then Some v' else view hash_string s D k.
Proof.
  intros Hr HB Hdat Hdp. unfold view.
  destruct (route D (hash_string k)) as [x|] eqn:Hx.
  - destruct (route_slot _ _ _ Hx) as [i Hi]. pose proof (Hdp i x Hi) as Hxd.
    cbn [mbind option_bind]. rewrite bucket_at_upd by done.
    destruct (decide (k = k')) as [Ek|Ek]; destruct (decide (x = tp)) as [Ex|Ex].
    + subst. cbn [mbind option_bind]. unfold Bucket.get, Bucket.insert. cbn [Bucket.data].
      rewrite map_get_insert. by rewrite decide_True.
    + subst. congruence.
    + subst. rewrite HB. cbn [mbind option_bind]. unfold Bucket.get, Bucket.insert.
      cbn [Bucket.data]. rewrite map_get_insert, Hdat. by rewrite decide_False.
    + done.
  - case_decide; [subst; congruence|done].
Qed.

Lemma buckets_ok_insert (bmax : nat) s (D : ExtendibleHTableDirectoryPage) (k' : K) (v' : V)
    (dp tp : nat) (B0 Bt : Bucket.ExtendibleHTableBucketPage) n f :
  buckets_ok hash_string bmax s D -> route D (hash_string k') = Some tp ->
  bucket_at s tp = Some B0 -> Bucket.data B0 = Bucket.data Bt ->
  Bucket.max_size Bt <= bmax -> length (Bucket.data Bt) < Bucket.max_size Bt ->
  (forall i x, bucket_page_ids D !! i = Some x -> x <> dp) ->
  buckets_ok hash_string bmax
    (mkPool (<[dp := DirectoryData D]> (<[tp := BucketData (Bucket.insert Bt k' v')]> (pages s))) n f)
    D.
Proof.
  intros Hok Hr HB Hdat Hbm Hlt Hdp i x Hi.
  destruct (Hok i x Hi) as (B & HBx & Hm & Hl & Hn & Hrt).
  rewrite bucket_at_upd by (eapply Hdp; eauto).
  case_decide as Ex.
  - subst x. rewrite HB in HBx. injection HBx as <-. rewrite Hdat in Hn, Hrt.
    eexists. split; [done|]. unfold Bucket.insert. cbn [Bucket.max_size Bucket.data].
    split; [done|]. split; [pose proof (map_insert_length (Bucket.data Bt) k' v'); lia|].
    split; [by apply map_insert_nodup|].
    intros kv Hkv. apply map_insert_in in Hkv as [->|Hkv]; [done|by apply Hrt].
  - exists B. done.
Qed.

Variables (t : ExtendibleHashTable) (dp bp np : nat) (D2 : ExtendibleHTableDirectoryPage)
          (s0 : Pool (K:=K) (V:=V)) (V0 : K -> option V) (all : list (K * V)).
Hypotheses (Hsi : SI D2) (Hhd : header_page_id t <> dp) (Hbpnp : bp <> np)
           (Hbounds : dir_bounds s0 (header_page_id t) dp D2)
           (Hbph : bp <> header_page_id t) (Hnph : np <> header_page_id t)
           (Hbpd : bp <> dp) (Hnpd : np <> dp)
           (Hroute : forall kv, In kv all ->
              route D2 (hash_string kv.1) = Some bp \/ route D2 (hash_string kv.1) = Some np)
           (Hnd : NoDup (map fst all)).


Lemma drain_phase (fuel : nat) : forall rest done s,
  all = done ++ rest ->
  pages s !! dp = Some (DirectoryData D2) ->
  pages s !! header_page_id t = pages s0 !! header_page_id t ->
  next_page_id s = next_page_id s0 ->
  buckets_ok hash_string (bucket_max_size t) s D2 ->
  (exists Bb Bn, bucket_at s bp = Some Bb /\ bucket_at s np = Some Bn /\
     length (Bucket.data Bb) + length (Bucket.data Bn) + length rest <= Bucket.max_size Bb /\
     length (Bucket.data Bb) + length (Bucket.data Bn) + length rest <= Bucket.max_size Bn) ->
  (forall k, view hash_string s D2 k = if in_split hash_string D2 bp np k then Bucket.map_get done k else V0 k) ->
  spec (reinsert_entries (λ k v d, insert_internal hash_string drain_order fuel t k v d dp) rest D2) s
    (λ D' s', D' = D2 /\ pages s' !! dp = Some (DirectoryData D2) /\
       pages s' !! header_page_id t = pages s0 !! header_page_id t /\
       next_page_id s' = next_page_id s0 /\
       buckets_ok hash_string (bucket_max_size t) s' D2 /\
       forall k, view hash_string s' D2 k = if in_split hash_string D2 bp np k then Bucket.map_get all k else V0 k)
    (λ _ _, False).
Proof using All.
  induction rest as [|[k' v'] rest IH]; intros done s Hall Hdp Hh Hn Hok Hsz Hview.
  { apply spec_ret. rewrite app_nil_r in Hall. subst all. done. }
  destruct fuel as [|fuel].
  { cbn [reinsert_entries insert_internal]. apply spec_bind'. apply spec_abort. }
  assert (Hin : In (k', v') all) by (rewrite Hall; apply in_or_app; right; left; done).
  assert (Hk'done : ~ In k' (map fst done)).
  { intros Hd. rewrite Hall, map_app in Hnd. apply NoDup_app in Hnd as (_ & Hdis & _).
    apply (Hdis k'); [by apply list_elem_of_In|]. cbn [map fst]. apply elem_of_cons. by left. }
  assert (Hdir : forall i x, bucket_page_ids D2 !! i = Some x -> x <> dp)
    by (intros i x Hx; by apply (Hbounds i x Hx)).
  assert (Htp : exists tp, route D2 (hash_string k') = Some tp /\ (tp = bp \/ tp = np)).
  { destruct (Hroute _ Hin) as [Ht|Ht]; eexists; split; [exact Ht|by left|exact Ht|by right]. }
  destruct Htp as (tp & Ht & Htp).
  destruct (route_slot D2 _ _ Ht) as [it Hit].
  destruct (Hok it tp Hit) as (Bt & HBt & Hmax & Hlen & Hndt & Hrt).
  destruct Hsz as (Bb & Bn & HBb & HBn & Hszb & Hszn).
  assert (Hfree : length (Bucket.data Bt) < Bucket.max_size Bt)
    by (destruct Htp as [->| ->]; [rewrite HBb in HBt|rewrite HBn in HBt];
        injection HBt as <-; cbn [length] in *; lia).
  cbn [reinsert_entries]. apply spec_bind'. cbv beta.
  apply (insert_internal_nonfull _ _ _ _ _ _ tp _ Bt); [done|done|done|].
  apply (IH (done ++ [(k', v')])).
  - by rewrite <- app_assoc.
  - cbn [pages]. by rewrite lookup_insert_eq.
  - cbn [pages]. rewrite lookup_insert_ne by congruence.
    rewrite lookup_insert_ne by (destruct Htp as [->| ->]; congruence). done.
  - done.
  - apply (buckets_ok_insert _ _ _ _ _ _ _ Bt Bt); try done; lia.
  - destruct Htp as [-> | ->].
    + rewrite HBb in HBt. injection HBt as <-.
      exists (Bucket.insert Bb k' v'), Bn.
      rewrite !bucket_at_upd by done.
      rewrite decide_True by done. rewrite decide_False by done.
      split; [done|]. split; [done|]. unfold Bucket.insert. cbn [Bucket.max_size Bucket.data].
      pose proof (map_insert_length (Bucket.data Bb) k' v'). cbn [length] in *. lia.
    + rewrite HBn in HBt. injection HBt as <-.
      exists Bb, (Bucket.insert Bn k' v').
      rewrite !bucket_at_upd by done.
      rewrite decide_False by done. rewrite decide_True by done.
      split; [done|]. split; [done|]. unfold Bucket.insert. cbn [Bucket.max_size Bucket.data].
      pose proof (map_insert_length (Bucket.data Bn) k' v'). cbn [length] in *. lia.
  - intros k. rewrite (view_insert _ _ _ _ _ tp Bt Bt) by done.
    rewrite map_get_snoc by done.
    case_decide as Ek.
    + subst k. unfold in_split. rewrite bool_decide_eq_true_2; [done|].
      destruct Htp as [<-| <-]; [by left|by right].
    + rewrite Hview. by destruct (in_split hash_string D2 bp np k).
Qed.



End Drain.
End InsertContent.

Module InsertKV.
Import Directory Table Invariants DirInvariant TableInvariants TableMonad InsertInvariant
       ContentDefs MapFacts InsertContent.

Section Main.
Context {K V : Type} `{EqDecision K}.
Variable hash_string : K -> nat.
Variable drain_order : list (K * V) -> list (K * V).

Implicit Types (s : Pool (K:=K) (V:=V)).

Ltac simpl_pages :=
  cbn [pages next_page_id free_frames] in *;
  repeat first [rewrite lookup_insert_eq | rewrite lookup_insert_ne by lia].

Lemma spec_reinsert_app
    (ins : K -> V -> ExtendibleHTableDirectoryPage -> M ExtendibleHTableDirectoryPage)
    (l1 l2 : list (K * V)) (D : ExtendibleHTableDirectoryPage) s Q E :
  spec (reinsert_entries ins l1 D) s (λ D' s', spec (reinsert_entries ins l2 D') s' Q E) E ->
  spec (reinsert_entries ins (l1 ++ l2) D) s Q E.
Proof.
  revert D s. induction l1 as [|[k v] l1 IH]; intros D s H; [done|].
  cbn [reinsert_entries app] in *. unfold spec, bind in *.
  destruct (ins k v D s) as [D1 s1|e s1|]; [|exact H|done].
  exact (IH D1 s1 H).
Qed.

Lemma bucket_at_write_other s (p x : nat) (pg : page_data) n f :
  x <> p -> bucket_at (mkPool (<[p := pg]> (pages s)) n f) x = bucket_at s x.
Proof. intros Hne. unfold bucket_at. cbn [pages]. by rewrite lookup_insert_ne. Qed.

Lemma view_write_other s (D : ExtendibleHTableDirectoryPage) (p : nat) (pg : page_data) n f k :
  (forall i x, bucket_page_ids D !! i = Some x -> x <> p) ->
  view hash_string (mkPool (<[p := pg]> (pages s)) n f) D k = view hash_string s D k.
Proof.
  intros Hp. unfold view. destruct (route D (hash_string k)) as [x|] eqn:Hr; [|done].
  destruct (route_slot _ _ _ Hr) as [i Hi]. cbn [mbind option_bind].
  rewrite bucket_at_write_other; [done|]. by apply (Hp i).
Qed.

Lemma buckets_ok_write_other (bmax : nat) s (D : ExtendibleHTableDirectoryPage) (p : nat)
    (pg : page_data) n f :
  (forall i x, bucket_page_ids D !! i = Some x -> x <> p) ->
  buckets_ok hash_string bmax s D ->
  buckets_ok hash_string bmax (mkPool (<[p := pg]> (pages s)) n f) D.
Proof.
  intros Hp Hok i x Hx. rewrite bucket_at_write_other by (by apply (Hp i)). exact (Hok i x Hx).
Qed.

Hypothesis Hdrain : forall l, Permutation (drain_order l) l.

Lemma insert_internal_kv (t : ExtendibleHashTable) (fuel : nat) :
  forall key value D dp s, header_page_id t <> dp -> header_page_id t <= next_page_id s ->
    dp <= next_page_id s ->
    (SI D /\ buckets_ok hash_string (bucket_max_size t) s D) \/ fresh_dir (bucket_max_size t) D ->
    dir_bounds s (header_page_id t) dp D ->
    spec (insert_internal hash_string drain_order fuel t key value D dp) s
      (ok_kv hash_string t dp key value s D) (λ _, err_kv hash_string t dp s D).
Proof.
  induction fuel as [|fuel IH]; intros key value D dp s Hhd Hh Hd HD Hb; [apply spec_abort|].
  cbn [insert_internal].
  eapply (spec_bind _ _ _ (λ bbd s1, let '(bucket, bp, D1) := bbd in
     next_page_id s <= next_page_id s1 /\
     pages s1 !! header_page_id t = pages s !! header_page_id t /\
     pages s1 !! dp = pages s !! dp /\
     bucket_page_ids D1 !! hash_to_bucket_index D (hash_string key) = Some bp /\
     global_depth D1 = global_depth D /\
     bp <= next_page_id s1 /\ bp <> dp /\ bp <> header_page_id t /\
     dir_bounds s1 (header_page_id t) dp D1 /\
     ((SI D1 /\ buckets_ok hash_string (bucket_max_size t) s1 D1) \/
      (local_depths D1 = [] /\ bucket = Bucket.new 0)) /\
     (SI D \/ bucket = Bucket.new (bucket_max_size t)) /\
     (SI D -> D1 = D /\ s1 = s) /\
     (forall k, view hash_string s1 D1 k = view hash_string s D k) /\
     (forall k, view hash_string s1 D k = view hash_string s D k) /\
     Bucket.max_size bucket <= bucket_max_size t /\
     length (Bucket.data bucket) <= Bucket.max_size bucket /\
     exists B, bucket_at s1 bp = Some B /\ Bucket.data B = Bucket.data bucket)
     (λ _ _, False)); [| |done].
  { destruct HD as [[Hsi Hok] | (Hids & Hgd & Hlds)].
    - assert (Hbi : hash_to_bucket_index D (hash_string key) < 2 ^ global_depth D).
      { rewrite hash_to_bucket_index_mod. apply Nat.mod_upper_bound, Nat.pow_nonzero. lia. }
      destruct (SI_lookup D _ Hsi Hbi) as (x & y & Hx & Hy).
      unfold get_bucket_page_id. rewrite Hx.
      destruct (Hok _ _ Hx) as (B & HB & Hm & Hl & Hn & Hr).
      apply spec_bind'. apply spec_fetch. intros pg Hpg.
      apply spec_bind'. apply spec_unwrap. intros bucket Hbucket. apply spec_ret.
      unfold bucket_at in HB. rewrite Hpg in HB. cbn in HB. rewrite HB in Hbucket.
      injection Hbucket as <-.
      destruct (Hb _ _ Hx) as (? & ? & ?).
      split; [lia|]. split; [done|]. split; [done|]. split; [done|]. split; [done|].
      split; [done|]. split; [done|]. split; [done|]. split; [done|].
      split; [by left|]. split; [by left|]. split; [done|]. split; [done|]. split; [done|].
      split; [done|]. split; [done|]. exists B. unfold bucket_at. rewrite Hpg. done.
    - assert (Hbi : hash_to_bucket_index D (hash_string key) = 0).
      { rewrite hash_to_bucket_index_mod, Hgd, Nat.pow_0_r. apply Nat.mod_1_r. }
      assert (Hnsi : ~ SI D).
      { intros Hsi. pose proof (si_len_ids D Hsi) as Hl. rewrite Hids, Hgd in Hl. discriminate. }
      rewrite Hbi. unfold get_bucket_page_id. rewrite Hids.
      apply spec_bind'. apply spec_new_page. intros _.
      apply spec_bind'. apply spec_unwrap. intros D1 HD1.
      unfold set_bucket_page_id in HD1. rewrite Hids in HD1. simpl in HD1.
      injection HD1 as <-. apply spec_ret. simpl_pages.
      set (b := S (next_page_id s)).
      assert (Hbk : bucket_at (mkPool (<[b := Zeroed]> (pages s)) b (pred (free_frames s))) b =
                    Some (Bucket.new 0)).
      { unfold bucket_at. cbn [pages]. by rewrite lookup_insert_eq. }
      split; [lia|]. split; [done|]. split; [done|]. split; [done|]. split; [done|].
      split; [lia|]. split; [lia|]. split; [lia|].
      split. { intros i x Hx. destruct i; [|done]. simpl in Hx. injection Hx as <-.
               cbn [next_page_id]. lia. }
      split.
      { rewrite Hgd. destruct Hlds as [Hl | [Hl Hbm]]; rewrite Hl; [left; split|right; split].
        - apply SI_single.
        - intros i x Hx. destruct i; [|done]. simpl in Hx. injection Hx as <-.
          exists (Bucket.new 0). split; [exact Hbk|]. cbn. split; [lia|]. split; [lia|].
          split; [constructor|]. intros kv [].
        - done.
        - by rewrite Hbm. }
      split; [by right|]. split; [intros Hsi; by exfalso|].
      split.
      { intros k. unfold view, route. rewrite Hids. cbn [bucket_page_ids global_depth].
        rewrite Hgd, Nat.pow_0_r, Nat.mod_1_r. cbn [lookup list_lookup mbind option_bind].
        rewrite Hbk. done. }
      split; [intros k; unfold view, route; by rewrite Hids|].
      split; [cbn; lia|]. split; [cbn; lia|]. exists (Bucket.new 0). split; [exact Hbk|done]. }
  intros [[bucket bp] D1] s1 (Hn1 & Hh1 & Hd1 & Hbp & Hgd1 & Hbpn & Hbpd & Hbph & Hb1 & Hsi1 &
    Hfresh & Hsame & Hview1 & HviewD & Hbm & Hblen & B1 & HB1 & HB1d).
  cbv beta iota.
  assert (Hr1 : route D1 (hash_string key) = Some bp).
  { unfold route. rewrite Hgd1, <- hash_to_bucket_index_mod. done. }
  assert (Hdir1 : forall i x, bucket_page_ids D1 !! i = Some x -> x <> dp)
    by (intros i x Hx; by apply (Hb1 i x Hx)).
  destruct (Bucket.is_full bucket) eqn:Hfull; cbn [negb].
  2:{ assert (Hsi1' : SI D1 /\ buckets_ok hash_string (bucket_max_size t) s1 D1).
      { destruct Hsi1 as [?|[_ Hnew]]; [done|]. rewrite Hnew in Hfull. discriminate. }
      destruct Hsi1' as [Hsi1' Hok1].
      assert (Hlt : length (Bucket.data bucket) < Bucket.max_size bucket)
        by (apply Nat.eqb_neq in Hfull; lia).
      apply spec_bind', spec_set_data, spec_bind', spec_set_data, spec_ret.
      cbn [pages next_page_id free_frames].
      split; [done|].
      split. { intros i x Hx. destruct (Hb1 i x Hx) as (? & ? & ?). cbn [next_page_id]. lia. }
      split. { by apply (buckets_ok_insert hash_string _ _ _ _ _ _ _ B1 bucket). }
      split. { cbn [pages]. by rewrite lookup_insert_eq. }
      split. { cbn [pages]. rewrite !lookup_insert_ne by congruence. done. }
      split. { cbn [next_page_id]. lia. }
      split. { rewrite (view_insert hash_string _ _ _ _ _ bp B1 bucket) by done.
               by rewrite decide_True. }
      intros k Hk. rewrite (view_insert hash_string _ _ _ _ _ bp B1 bucket) by done.
      rewrite decide_False by done. apply Hview1. }
  assert (Hbmax : SI D \/ bucket_max_size t = 0).
  { destruct Hfresh as [?|Hnew]; [by left|right]. rewrite Hnew in Hfull.
    unfold Bucket.is_full, Bucket.new in Hfull. simpl in Hfull.
    destruct (bucket_max_size t); [done|discriminate]. }
  apply spec_bind'. apply spec_unwrap. intros ld Hld. unfold get_local_depth in Hld.
  assert (Hsi1' : SI D1 /\ buckets_ok hash_string (bucket_max_size t) s1 D1).
  { destruct Hsi1 as [|[Hl _]]; [done|]. rewrite Hl in Hld. discriminate. }
  destruct Hsi1' as [Hsi1' Hok1].
  apply spec_bind'. apply spec_new_page. intros Hfree.
  apply spec_bind'. apply spec_set_data.
  apply spec_bind'. apply spec_unwrap. intros ld' Hld'.
  unfold get_local_depth in Hld'. rewrite Hld in Hld'. injection Hld' as <-.
  set (bi := hash_to_bucket_index D (hash_string key)) in *.
  set (np := S (next_page_id s1)).
  cbn [pages next_page_id free_frames].
  set (s3 := mkPool (<[np := BucketData (Bucket.new (bucket_max_size t))]> (<[np := Zeroed]> (pages s1)))
                    np (pred (free_frames s1))).
  assert (HnpD1 : forall j, bucket_page_ids D1 !! j <> Some np).
  { intros j Hj. destruct (Hb1 j np Hj) as (? & _). unfold np in *. lia. }
  eapply (spec_bind _ _ _ (λ D2 s', s' = s3 /\ SI D2 /\ exists Dp, SI Dp /\
     bucket_page_ids Dp !! bi = Some bp /\ local_depths Dp !! bi = Some ld /\
     split_result Dp D2 bi ld np /\ (forall h, route Dp h = route D1 h) /\
     (forall j z, bucket_page_ids Dp !! j = Some z -> exists j', bucket_page_ids D1 !! j' = Some z))
     (λ _ s', s' = s3)).
  { destruct (Nat.eqb_spec ld (get_global_depth D1)) as [Heq|Hne].
    - unfold get_global_depth in Heq. subst ld.
      destruct (split_double_spec D1 bi bp np Hsi1' Hbp Hld) as (Hpan & Hmax & Hok).
      destruct (Z.lt_ge_cases (Z.of_nat (global_depth D1)) u32_max) as [H32|H32];
        [|rewrite (Hpan H32); apply spec_lift_res; intros ? ?; discriminate].
      destruct (decide (global_depth D1 = max_depth D1)) as [Hm|Hm].
      + rewrite (Hmax H32 Hm). apply spec_lift_res; [intros ? ?; discriminate|done].
      + destruct (Hok H32 Hm) as (D2 & Hsplit & Hres). rewrite Hsplit.
        apply spec_lift_res; [|intros ? ?; discriminate].
        assert (HbP : bucket_page_ids (doubled D1) !! bi = Some bp).
        { cbn [doubled bucket_page_ids]. rewrite lookup_app_l; [done|].
          eapply lookup_lt_Some. exact Hbp. }
        assert (HlP : local_depths (doubled D1) !! bi = Some (global_depth D1)).
        { cbn [doubled local_depths]. rewrite lookup_app_l; [done|].
          eapply lookup_lt_Some. exact Hld. }
        intros a [= <-]. split; [done|]. split.
        * apply (SI_split (doubled D1) D2 bi bp (global_depth D1) np);
            [by apply SI_doubled|done|done|cbn [doubled global_depth]; lia| |done].
          intros j Hj. destruct (doubled_ids D1 j np Hj) as [j' Hj']. by apply (HnpD1 j').
        * exists (doubled D1). split; [by apply SI_doubled|]. split; [done|]. split; [done|].
          split; [done|]. split; [intros h; by apply route_doubled|].
          intros j z Hz. by apply doubled_ids with j.
    - apply spec_unwrap. intros D2 HD2.
      assert (Hlt : ld < global_depth D1).
      { pose proof (si_ld_le D1 Hsi1' _ _ Hld). unfold get_global_depth in Hne. lia. }
      destruct (split_loop_spec D1 bi bp ld np Hsi1' Hbp Hld Hlt) as [Hrun|(D2' & Hrun & Hres)];
        rewrite Hrun in HD2; [discriminate|]. injection HD2 as <-.
      split; [done|]. split.
      + apply (SI_split D1 D2' bi bp ld np); try done.
      + exists D1. split; [done|]. split; [done|]. split; [done|]. split; [done|].
        split; [done|]. eauto. }
  2:{ intros e s' ->. unfold err_kv, s3. simpl_pages.
      split; [done|]. split; [unfold np; lia|]. left.
      assert (Hnp_s : forall i x, bucket_page_ids D !! i = Some x -> x <> np).
      { intros i x Hx. destruct (Hb i x Hx) as (? & _). unfold np. lia. }
      split; [unfold np; simpl_pages; done|]. split; [done|]. split.
      - intros Hsi. destruct (Hsame Hsi) as [-> ->]. split.
        + intros i x Hx. destruct (Hb i x Hx) as (? & ? & ?). cbn [next_page_id]. unfold np. lia.
        + pose proof (buckets_ok_write_other (bucket_max_size t) (mkPool (<[np := Zeroed]> (pages s)) np (pred (free_frames s))) D np (BucketData (Bucket.new (bucket_max_size t))) np (pred (free_frames s))) as HH.
          apply HH; [done|]. apply (buckets_ok_write_other (bucket_max_size t) s D np Zeroed); [done|]. by destruct HD as [[_ ?]|[Hids _]].
      - intros k. rewrite <- (HviewD k).
        pose proof (view_write_other (mkPool (<[np := Zeroed]> (pages s1)) np (pred (free_frames s1)))
          D np (BucketData (Bucket.new (bucket_max_size t))) np (pred (free_frames s1)) k Hnp_s) as H1.
        pose proof (view_write_other s1 D np Zeroed np (pred (free_frames s1)) k Hnp_s) as H2.
        cbn [pages] in H1. rewrite H1. exact H2. }
  intros D2 s' (-> & Hsi2 & Dp & HsiP & HbP & HlP & Hres & HrouteP & HidsP).
  unfold get_entries. cbv beta iota.
  apply spec_bind', spec_set_data, spec_bind', spec_set_data.
  match goal with |- spec _ ?st _ _ => set (s5 := st) end.
  set (all := drain_order (Bucket.data bucket)).
  assert (Hbpnp : bp <> np) by (unfold np; lia).
  assert (Hnph : np <> header_page_id t) by (unfold np; lia).
  assert (Hnpd : np <> dp) by (unfold np; lia).
  assert (Hs5 : forall x, x <> bp -> x <> dp -> x <> np -> bucket_at s5 x = bucket_at s1 x).
  { intros x H1 H2 H3. unfold bucket_at, s5, s3. cbn [pages].
    rewrite !lookup_insert_ne by congruence. done. }
  assert (Hs5bp : bucket_at s5 bp = Some (Bucket.mkBucket (Bucket.max_size bucket) [])).
  { unfold bucket_at, s5. cbn [pages]. by rewrite lookup_insert_eq. }
  assert (Hs5np : bucket_at s5 np = Some (Bucket.new (bucket_max_size t))).
  { unfold bucket_at, s5, s3. cbn [pages]. rewrite !lookup_insert_ne by congruence.
    by rewrite lookup_insert_eq. }
  assert (Hs5dp : pages s5 !! dp = Some (DirectoryData D2)).
  { unfold s5. cbn [pages]. rewrite lookup_insert_ne by congruence. by rewrite lookup_insert_eq. }
  assert (Hs5hp : pages s5 !! header_page_id t = pages s !! header_page_id t).
  { unfold s5, s3. cbn [pages]. rewrite !lookup_insert_ne by congruence. exact Hh1. }
  assert (Hs5n : next_page_id s5 = np) by done.
  assert (HsplitR : forall h y, route D1 h = Some y ->
            (y <> bp -> route D2 h = Some y) /\
            (y = bp -> route D2 h = Some bp \/ route D2 h = Some np)).
  { intros h y Hy. destruct (split_route Dp D2 bi bp ld np h HsiP HbP HlP Hres) as (y' & Hy' & H1 & H2).
    rewrite HrouteP, Hy in Hy'. injection Hy' as <-. done. }
  assert (Hids2 : forall j z, bucket_page_ids D2 !! j = Some z ->
            z = np \/ exists j', bucket_page_ids D1 !! j' = Some z).
  { intros j z Hz. destruct (split_result_ids Dp D2 bi ld np j z HsiP Hres Hz) as [->|Hz'];
      [by left|right]. by apply (HidsP j). }
  assert (HinD1 : forall h, route D2 h = Some bp \/ route D2 h = Some np -> route D1 h = Some bp).
  { intros h Hh2. destruct (route_Some D1 h Hsi1') as [y Hy]. destruct (HsplitR h y Hy) as [H1 _].
    destruct (decide (y = bp)) as [->|Hne]; [done|]. rewrite (H1 Hne) in Hh2.
    destruct (route_slot _ _ _ Hy) as [j Hj]. destruct (Hb1 j y Hj) as (? & ? & ?).
    exfalso. destruct Hh2 as [E|E]; injection E as E; [done|unfold np in *; lia]. }
  destruct (Hok1 bi bp Hbp) as (B1' & HB1' & _ & _ & HndB & HrtB).
  rewrite HB1 in HB1'. injection HB1' as <-. rewrite HB1d in HndB, HrtB.
  assert (Hperm : Permutation all (Bucket.data bucket)) by apply Hdrain.
  assert (Hlenall : length all = Bucket.max_size bucket).
  { rewrite (Permutation_length Hperm). unfold Bucket.is_full in Hfull. by apply Nat.eqb_eq. }
  assert (Hndall : NoDup (map fst all)).
  { apply NoDup_ListNoDup. apply NoDup_ListNoDup in HndB.
    eapply Permutation_NoDup; [apply Permutation_map, Permutation_sym, Hperm|done]. }
  assert (Hrouteall : forall kv, In kv all ->
            route D2 (hash_string kv.1) = Some bp \/ route D2 (hash_string kv.1) = Some np).
  { intros kv Hkv. apply (Permutation_in _ Hperm) in Hkv. apply HrtB in Hkv.
    destruct (HsplitR _ _ Hkv) as [_ H2]. by apply H2. }
  assert (Hbounds5 : dir_bounds s5 (header_page_id t) dp D2).
  { intros j z Hz. rewrite Hs5n. destruct (Hids2 j z Hz) as [->|[j' Hj']]; [unfold np in *; lia|].
    destruct (Hb1 j' z Hj') as (? & ? & ?). unfold np. lia. }
  assert (Hview5 : forall k, view hash_string s5 D2 k =
            if in_split hash_string D2 bp np k then Bucket.map_get [] k else view hash_string s D k).
  { intros k. unfold in_split. case_bool_decide as Hin.
    - cbn [Bucket.map_get]. unfold view. destruct Hin as [E|E]; rewrite E; cbn [mbind option_bind].
      + rewrite Hs5bp. done.
      + rewrite Hs5np. done.
    - rewrite <- Hview1. destruct (route_Some D2 (hash_string k) Hsi2) as [y Hy].
      destruct (route_Some D1 (hash_string k) Hsi1') as [y1 Hy1].
      destruct (HsplitR _ _ Hy1) as [H1 H2].
      destruct (decide (y1 = bp)) as [->|Hne]; [exfalso; apply Hin; by apply H2|].
      pose proof (H1 Hne) as Hy'. rewrite Hy in Hy'. injection Hy' as <-.
      unfold view. rewrite Hy, Hy1. cbn [mbind option_bind].
      destruct (route_slot _ _ _ Hy1) as [j Hj]. destruct (Hb1 j y Hj) as (? & ? & ?).
      rewrite Hs5; [done|done|done|unfold np; lia]. }
  assert (Hok5 : buckets_ok hash_string (bucket_max_size t) s5 D2).
  { intros j z Hz. destruct (decide (z = bp)) as [->|Hzb].
    { rewrite Hs5bp. eexists. split; [done|]. cbn. split; [lia|]. split; [lia|].
      split; [constructor|]. intros kv []. }
    destruct (decide (z = np)) as [->|Hzn].
    { rewrite Hs5np. eexists. split; [done|]. cbn. split; [lia|]. split; [lia|].
      split; [constructor|]. intros kv []. }
    destruct (Hids2 j z Hz) as [->|[j' Hj']]; [done|].
    destruct (Hb1 j' z Hj') as (_ & Hzd & _).
    destruct (Hok1 j' z Hj') as (B & HB & HBm & HBl & HBn & HBr).
    exists B. rewrite Hs5 by done. split; [done|]. split; [done|]. split; [done|]. split; [done|].
    intros kv Hkv. destruct (HsplitR _ _ (HBr kv Hkv)) as [H1 _]. by apply H1. }
  assert (Hallv : forall k, in_split hash_string D2 bp np k = true ->
            Bucket.map_get all k = view hash_string s D k).
  { intros k Hk. unfold in_split in Hk. apply bool_decide_eq_true in Hk.
    rewrite <- Hview1. unfold view. rewrite (HinD1 _ Hk). cbn [mbind option_bind]. rewrite HB1.
    cbn [mbind option_bind]. unfold Bucket.get. rewrite HB1d. symmetry.
    apply map_get_perm; [done|]. by apply Permutation_sym. }
  apply spec_reinsert_app.
  eapply spec_mono.
  { apply (drain_phase hash_string drain_order t dp bp np D2 s5 (view hash_string s D) all
             Hsi2 Hhd Hbpnp Hbounds5 Hbph Hnph Hbpd Hnpd Hrouteall Hndall fuel all [] s5); try done.
    exists (Bucket.mkBucket (Bucket.max_size bucket) []), (Bucket.new (bucket_max_size t)).
    split; [done|]. split; [done|]. cbn [Bucket.data Bucket.max_size Bucket.new length]. lia. }
  2:{ intros ? ? []. }
  intros D' s6 (-> & Hs6dp & Hs6hp & Hs6n & Hok6 & Hview6).
  cbn [reinsert_entries]. apply spec_bind'. cbv beta.
  assert (Hn6 : next_page_id s6 = np) by (rewrite Hs6n; done).
  eapply spec_mono.
  { apply IH; [done|unfold np in *; lia|unfold np in *; lia|left; split; done|].
    apply (dir_bounds_mono s5); [done|lia]. }
  - intros D'' s7 (Hsi7 & Hb7 & Hok7 & Hd7 & Hh7 & Hn7 & Hv7 & Hv7'). apply spec_ret.
    unfold ok_kv. split; [done|]. split; [done|]. split; [done|]. split; [done|].
    split; [rewrite Hh7, Hs6hp; exact Hs5hp|].
    split; [unfold np in *; lia|].
    split; [done|].
    intros k Hk. rewrite (Hv7' k Hk), Hview6.
    destruct (in_split hash_string D2 bp np k) eqn:E; [by apply Hallv|done].
  - intros e s7 (Hh7 & Hn7 & Herr). unfold err_kv.
    split; [rewrite Hh7, Hs6hp; exact Hs5hp|]. split; [unfold np in *; lia|].
    right. destruct Herr as [(Hd7 & _ & HSI & Hv7)|(D3 & Hd7 & Hsi7 & Hb7 & Hok7 & Hv7)].
    + exists D2. destruct (HSI Hsi2) as [Hb7 Hok7].
      split; [congruence|]. split; [done|]. split; [done|]. split; [done|].
      intros k. rewrite Hv7, Hview6.
      destruct (in_split hash_string D2 bp np k) eqn:E; [by apply Hallv|done].
    + exists D3. split; [done|]. split; [done|]. split; [done|]. split; [done|].
      intros k. rewrite Hv7, Hview6.
      destruct (in_split hash_string D2 bp np k) eqn:E; [by apply Hallv|done].
Qed.

End Main.
End InsertKV.

Module InsertGet.
Import Directory Table Invariants DirInvariant TableInvariants TableMonad InsertInvariant
       ContentDefs MapFacts InsertContent InsertKV.

Section Top.
Context {K V : Type} `{EqDecision K}.
Variable hash_string : K -> nat.
Variable drain_order : list (K * V) -> list (K * V).

Implicit Types (s : Pool (K:=K) (V:=V)).

Lemma header_index_0 (slot : option nat) (h : nat) :
  Header.hash_to_directory_index (Header.mkHeader [slot] 0) h = Some 0.
Proof. unfold Header.hash_to_directory_index. simpl. by rewrite Nat.land_0_r. Qed.

Lemma view_no_ids s (D : ExtendibleHTableDirectoryPage) k :
  bucket_page_ids D = [] -> view hash_string s D k = None.
Proof. intros Hids. unfold view, route. by rewrite Hids. Qed.

Lemma lookup_opt_slot (t : ExtendibleHashTable) s (slot : option nat) k :
  pages s !! header_page_id t = Some (HeaderData (Header.mkHeader [slot] 0)) ->
  lookup_opt hash_string t s k =
  slot ≫= λ dpid, (pages s !! dpid ≫= decode_directory) ≫= λ D, view hash_string s D k.
Proof.
  intros Hhdr. unfold lookup_opt. rewrite Hhdr. cbn [mbind option_bind decode_header].
  rewrite header_index_0. unfold Header.get_directory_page_id. cbn.
  by destruct slot.
Qed.

Lemma table_wf_ok (t : ExtendibleHashTable) (dp : nat) (key : K) (value : V) s0 s'
    (D0 D' : ExtendibleHTableDirectoryPage) :
  pages s0 !! header_page_id t = Some (HeaderData (Header.mkHeader [Some dp] 0)) ->
  header_page_id t <= next_page_id s0 -> dp <> header_page_id t -> dp <= next_page_id s0 ->
  ok_kv hash_string t dp key value s0 D0 D' s' ->
  table_wf hash_string t s' /\ forall k, lookup_opt hash_string t s' k = view hash_string s' D' k.
Proof.
  intros Hhdr Hh Hdh Hd (Hsi & Hb & Hok & Hdp & Hh' & Hn & _).
  split.
  - exists (Some dp). split; [congruence|]. split; [lia|]. split; [done|]. split; [lia|].
    left. by exists D'.
  - intros k. rewrite (lookup_opt_slot t s' (Some dp)) by congruence.
    cbn [mbind option_bind]. by rewrite Hdp.
Qed.

(** [insert] keeps the table well formed; on success [key] is found with
    [value] and every other key as before; on failure nothing changes for
    a lookup. *)
Lemma insert_wf (Hdrain : forall l, Permutation (drain_order l) l)
    (fuel : nat) (t : ExtendibleHashTable) (key : K) (value : V) s :
  table_wf hash_string t s ->
  spec (insert hash_string drain_order fuel t key value) s
    (λ _ s', table_wf hash_string t s' /\ lookup_opt hash_string t s' key = Some value /\
             forall k, k <> key -> lookup_opt hash_string t s' k = lookup_opt hash_string t s k)
    (λ _ s', table_wf hash_string t s' /\
             forall k, lookup_opt hash_string t s' k = lookup_opt hash_string t s k).
Proof.
  intros (slot & Hhdr & Hh & Hslot).
  pose proof (lookup_opt_slot t s slot) as Hlk0.
  unfold insert. apply spec_bind'. apply spec_fetch. intros pg Hpg.
  rewrite Hhdr in Hpg. injection Hpg as <-.
  apply spec_bind'. apply spec_unwrap. intros header Hdec. injection Hdec as <-.
  rewrite header_index_0. apply spec_bind'. apply spec_unwrap. intros di [= <-].
  unfold Header.get_directory_page_id. cbn [Header.directory_page_ids].
  destruct slot as [dp|]; cbn [lookup list_lookup].
  - destruct Hslot as (Hdh & Hd & Hcase).
    apply spec_bind', spec_bind'. apply spec_fetch. intros pg Hpg.
    apply spec_bind'. apply spec_unwrap. intros D0 HD0. apply spec_ret. cbv beta iota.
    assert (Hlk : forall k, lookup_opt hash_string t s k = view hash_string s D0 k).
    { intros k. rewrite (Hlk0 k Hhdr). cbn [mbind option_bind]. rewrite Hpg.
      cbn [mbind option_bind]. by rewrite HD0. }
    assert (Hpre : (SI D0 /\ buckets_ok hash_string (bucket_max_size t) s D0 /\
                    dir_bounds s (header_page_id t) dp D0) \/
                   (fresh_dir (bucket_max_size t) D0 /\ pg = Zeroed)).
    { destruct Hcase as [(D & HD & Hsi & Hb & Hok)|[HZ Hz]].
      - rewrite HD in Hpg. injection Hpg as <-. injection HD0 as <-. by left.
      - rewrite HZ in Hpg. injection Hpg as <-. injection HD0 as <-. right.
        split; [|done]. split; [done|]. split; [done|]. by right. }
    eapply spec_bind; [apply (insert_internal_kv hash_string drain_order Hdrain t fuel key value D0 dp s);
                       try done; try lia| |].
    + destruct Hpre as [(? & ? & _)|[]]; [by left|by right].
    + destruct Hpre as [(_ & _ & Hb)|[(Hids & _) _]]; [done|]. intros i x Hx. by rewrite Hids in Hx.
    + intros D' s' Hok. apply spec_ret.
      destruct (table_wf_ok t dp key value s s' D0 D') as [Hwf Hlk']; try done; try lia.
      pose proof Hok as (_ & _ & _ & _ & _ & _ & Hkey & Hother).
      split; [done|]. split; [by rewrite Hlk'|].
      intros k Hk. rewrite Hlk', Hlk. by apply Hother.
    + intros e s' (Hh' & Hn & Herr).
      destruct Herr as [(Hdp & Hc & HSI & Hv)|(D'' & Hdp & Hsi & Hb & Hok & Hv)].
      * assert (Hlk' : forall k, lookup_opt hash_string t s' k = view hash_string s' D0 k).
        { intros k. rewrite (lookup_opt_slot t s' (Some dp)) by congruence.
          cbn [mbind option_bind]. rewrite Hdp, Hpg. cbn [mbind option_bind]. by rewrite HD0. }
        split.
        -- exists (Some dp). split; [congruence|]. split; [lia|]. split; [done|]. split; [lia|].
           destruct Hpre as [(Hsi & _ & _)|[_ ->]].
           ++ left. exists D0. destruct (HSI Hsi) as [Hb Hok].
              split; [|done]. rewrite Hdp, Hpg. destruct Hcase as [(D & HD & _)|[HZ _]].
              ** rewrite HD in Hpg. injection Hpg as <-. by injection HD0 as ->.
              ** rewrite HZ in Hpg. injection Hpg as <-. injection HD0 as <-.
                 pose proof (si_len_ids _ Hsi) as Hl. done.
           ++ right. split; [congruence|]. destruct Hcase as [(D & HD & _)|[_ Hz]]; [|done].
              rewrite HD in Hpg. discriminate.
        -- intros k. by rewrite Hlk', Hlk.
      * split.
        -- exists (Some dp). split; [congruence|]. split; [lia|]. split; [done|]. split; [lia|].
           left. by exists D''.
        -- intros k. rewrite (lookup_opt_slot t s' (Some dp)) by congruence.
           cbn [mbind option_bind]. rewrite Hdp. cbn [mbind option_bind decode_directory].
           by rewrite Hv, Hlk.
  - apply spec_bind', spec_bind'. apply spec_new_page. intros Hfree.
    apply spec_bind'. apply spec_unwrap. intros h' Hh'.
    unfold Header.set_directory_page_id in Hh'. cbn in Hh'. injection Hh' as <-.
    apply spec_bind'. apply spec_set_data. apply spec_ret. cbv beta iota.
    cbn [pages next_page_id free_frames].
    assert (Hlk : forall k, lookup_opt hash_string t s k = None).
    { intros k. by rewrite (Hlk0 k Hhdr). }
    set (dp := S (next_page_id s)).
    set (s2 := mkPool (<[header_page_id t := HeaderData (Header.mkHeader [Some dp] 0)]>
                         (<[dp := Zeroed]> (pages s))) dp (pred (free_frames s))).
    assert (Hhdr2 : pages s2 !! header_page_id t =
                    Some (HeaderData (Header.mkHeader [Some dp] 0))).
    { unfold s2. cbn [pages]. apply lookup_insert_eq. }
    assert (Hdp2 : pages s2 !! dp = Some Zeroed).
    { unfold s2, dp. cbn [pages]. rewrite lookup_insert_ne by lia. apply lookup_insert_eq. }
    eapply spec_bind;
      [apply (insert_internal_kv hash_string drain_order Hdrain t fuel key value
                (Directory.new (directory_max_depth t)) dp s2);
       unfold s2, dp; cbn [next_page_id]; try lia| |].
    + right. split; [done|]. split; [done|]. by left.
    + intros i x Hx. destruct i; done.
    + intros D' s' Hok. apply spec_ret.
      destruct (table_wf_ok t dp key value s2 s' (Directory.new (directory_max_depth t)) D')
        as [Hwf Hlk']; try done; try (unfold s2, dp; cbn; lia).
      pose proof Hok as (_ & _ & _ & _ & _ & _ & Hkey & Hother).
      split; [done|]. split; [by rewrite Hlk'|].
      intros k Hk. rewrite Hlk', Hlk, Hother by done. by apply view_no_ids.
    + intros e s' (Hh' & Hn & Herr).
      destruct Herr as [(Hdp & Hc & _ & Hv)|(D'' & Hdp & Hsi & Hb & Hok & Hv)].
      * split.
        -- exists (Some dp). split; [congruence|].
           assert (Hn' : S (next_page_id s) <= next_page_id s') by (unfold s2, dp in Hn; cbn in Hn; lia).
           split; [lia|]. split; [unfold dp; lia|]. split; [unfold dp; lia|].
           right. split; [congruence|]. destruct Hc as [Hsi|Hz]; [|done].
           pose proof (si_len_ids _ Hsi) as Hl. done.
        -- intros k. rewrite Hlk. rewrite (lookup_opt_slot t s' (Some dp)) by congruence.
           cbn [mbind option_bind]. rewrite Hdp, Hdp2. cbn [mbind option_bind decode_directory].
           by apply view_no_ids.
      * split.
        -- exists (Some dp). split; [congruence|].
           assert (Hn' : S (next_page_id s) <= next_page_id s') by (unfold s2, dp in Hn; cbn in Hn; lia).
           split; [lia|]. split; [unfold dp; lia|]. split; [unfold dp; lia|].
           left. by exists D''.
        -- intros k. rewrite Hlk. rewrite (lookup_opt_slot t s' (Some dp)) by congruence.
           cbn [mbind option_bind]. rewrite Hdp. cbn [mbind option_bind decode_directory].
           rewrite Hv. by apply view_no_ids.
Qed.

(** Every reachable pool holds a well formed table. *)
Lemma reachable_wf (Hdrain : forall l, Permutation (drain_order l) l)
    (t : ExtendibleHashTable) s :
  reachable hash_string drain_order t s -> table_wf hash_string t s.
Proof.
  induction 1 as [dmax bmax p p' Hnew|fuel key value p p' _ IH Hins|fuel key value e p p' _ IH Hins].
  - apply TableFacts.new_spec in Hnew as (_ & -> & ->).
    exists None. cbn [header_page_id pages next_page_id]. rewrite lookup_insert_eq.
    split; [done|]. split; [lia|done].
  - pose proof (insert_wf Hdrain fuel t key value p IH) as H. unfold spec in H.
    rewrite Hins in H. apply H.
  - pose proof (insert_wf Hdrain fuel t key value p IH) as H. unfold spec in H.
    rewrite Hins in H. apply H.
Qed.

Lemma keeping_lookup (Hdrain : forall l, Permutation (drain_order l) l)
    (t : ExtendibleHashTable) (key : K) (value : V) s1 s2 :
  inserts_keeping hash_string drain_order t key s1 s2 ->
  table_wf hash_string t s1 -> lookup_opt hash_string t s1 key = Some value ->
  table_wf hash_string t s2 /\ lookup_opt hash_string t s2 key = Some value.
Proof.
  induction 1 as [p|fuel k v p p' p'' Hk Hins _ IH|fuel k v e p p' p'' Hins _ IH];
    intros Hwf Hl; [done| |].
  - pose proof (insert_wf Hdrain fuel t k v p Hwf) as H. unfold spec in H.
    rewrite Hins in H. destruct H as (Hwf' & _ & Hoth).
    apply IH; [done|]. rewrite Hoth; [done|]. intros ->. by apply Hk.
  - pose proof (insert_wf Hdrain fuel t k v p Hwf) as H. unfold spec in H.
    rewrite Hins in H. destruct H as (Hwf' & Hoth).
    apply IH; [done|]. by rewrite Hoth.
Qed.

(** [get] returns what the lookup through the installed directory finds. *)
Lemma get_found (t : ExtendibleHashTable) s (key : K) (v : V) :
  table_wf hash_string t s -> lookup_opt hash_string t s key = Some v ->
  get hash_string t key s = Done (Some v) s.
Proof.
  intros (slot & Hhdr & _ & _) Hl.
  rewrite (lookup_opt_slot t s slot key Hhdr) in Hl.
  destruct slot as [dp|]; [|discriminate]. cbn [mbind option_bind] in Hl.
  destruct (pages s !! dp) as [pg|] eqn:Hpg; [|discriminate]. cbn [mbind option_bind] in Hl.
  destruct (decode_directory pg) as [D|] eqn:HD; [|discriminate]. cbn [mbind option_bind] in Hl.
  unfold view in Hl. destruct (route D (hash_string key)) as [x|] eqn:Hr; [|discriminate].
  cbn [mbind option_bind] in Hl. unfold bucket_at in Hl.
  destruct (pages s !! x) as [bpg|] eqn:Hbpg; [|discriminate]. cbn [mbind option_bind] in Hl.
  destruct (decode_bucket bpg) as [B|] eqn:HB; [|discriminate]. cbn [mbind option_bind] in Hl.
  unfold Table.get, bind, fetch, unwrap, ret. rewrite Hhdr. cbn [decode_header].
  rewrite header_index_0. cbv beta iota.
  unfold Header.get_directory_page_id. cbn [Header.directory_page_ids lookup list_lookup].
  rewrite Hpg, HD. rewrite hash_to_bucket_index_mod. unfold get_bucket_page_id.
  unfold route in Hr. rewrite Hr, Hbpg, HB. by rewrite Hl.
Qed.

(** C1.  After [insert(key, value)] succeeds on a table reached through
    [ExtendibleHashTable::new] and [insert]s, and after any further inserts
    of other keys (successful or failed) and failed inserts of [key],
    [get(key)] returns [value], whatever splits the inserts caused.  The
    order in which [HashMap::drain] yields a bucket's entries is any
    permutation of them. *)
Theorem insert_then_get (Hdrain : forall l, Permutation (drain_order l) l)
    (t : ExtendibleHashTable) (fuel : nat) (key : K) (value : V) s s1 s2
    (Hreach : reachable hash_string drain_order t s)
    (Hins : insert hash_string drain_order fuel t key value s = Done tt s1)
    (Hkeep : inserts_keeping hash_string drain_order t key s1 s2) :
  get hash_string t key s2 = Done (Some value) s2.
Proof.
  pose proof (insert_wf Hdrain fuel t key value s (reachable_wf Hdrain t s Hreach)) as H.
  unfold spec in H. rewrite Hins in H. destruct H as (Hwf & Hl & _).
  destruct (keeping_lookup Hdrain t key value s1 s2 Hkeep Hwf Hl) as [Hwf2 Hl2].
  by apply get_found.
Qed.

End Top.

Lemma insert_then_get_witness :
  let t := mkTable 3 2 1 in
  let h := λ k : nat, k in
  let dr := λ l : list (nat * nat), l in
  let p0 := match Table.new (K:=nat) (V:=nat) 3 2 (pool_init 8) with
            | Done _ p => p | _ => pool_init 0 end in
  let step p k := match insert h dr 10 t k (10 * k) p with
                  | Done _ p' => p' | _ => p end in
  let s := step (step p0 0) 1 in
  let s1 := step s 2 in
  let s2 := step s1 4 in
  (forall l, Permutation (dr l) l) /\
  reachable h dr t s /\ insert h dr 10 t 2 20 s = Done tt s1 /\
  inserts_keeping h dr t 2 s1 s2 /\
  get h t 2 s2 = Done (Some 20) s2.
Proof.
  intros t h dr p0 step s s1 s2.
  assert (Hd : forall l, Permutation (dr l) l) by (intros l; apply Permutation_refl).
  assert (Hr : reachable h dr t s).
  { apply (reachable_insert_ok _ _ t 10 1 10 (step p0 0));
      [|unfold s, step, p0, t; vm_compute; reflexivity].
    apply (reachable_insert_ok _ _ t 10 0 0 p0);
      [|unfold step, p0, t; vm_compute; reflexivity].
    apply (reachable_new _ _ t 3 2 (pool_init 8)). unfold p0, t. vm_compute. reflexivity. }
  assert (Hi : insert h dr 10 t 2 20 s = Done tt s1)
    by (unfold s1, s, step, p0, t; vm_compute; reflexivity).
  assert (Hk : inserts_keeping h dr t 2 s1 s2).
  { apply (keeping_ok _ _ t 2 10 4 40 s1 s2 s2); [lia| |apply keeping_refl].
    unfold s2, s1, s, step, p0, t; vm_compute; reflexivity. }
  split; [exact Hd|]. split; [exact Hr|]. split; [exact Hi|]. split; [exact Hk|].
  exact (insert_then_get h dr Hd t 10 2 20 s s1 s2 Hr Hi Hk).
Defined.
End InsertGet.

Module DirectoryExtra.
Import Directory Invariants DirInvariant.

Lemma resize_take_app (n : nat) (l l' : list nat) :
  length l = n -> length l' = n -> resize n 0 (l ++ l') = l.
Proof.
  intros H H'. unfold resize. rewrite <- H, take_app_length, length_app.
  replace (length l - (length l + length l')) with 0 by lia. by rewrite app_nil_r.
Qed.

(** [decrement_global_depth] undoes a successful [increment_global_depth]
    on a directory whose two vectors have the same length. *)
Theorem decrement_after_increment_global_depth (d d' : ExtendibleHTableDirectoryPage)
    (Hlen : length (local_depths d) = length (bucket_page_ids d))
    (Hinc : increment_global_depth d = ROk d') :
  decrement_global_depth d' = Some d.
Proof.
  destruct (decide (global_depth d = max_depth d)) as [E|Hne].
  - unfold increment_global_depth in Hinc. rewrite E, Nat.eqb_refl in Hinc. discriminate.
  - destruct (Z.lt_ge_cases (Z.of_nat (global_depth d)) u32_max) as [H32|H32];
      [|rewrite DirectoryFacts.increment_global_depth_overflow in Hinc by lia; discriminate].
    rewrite DirectoryFacts.increment_global_depth_ok in Hinc by lia.
    injection Hinc as <-. rewrite <- Hlen, firstn_all.
    unfold decrement_global_depth. cbn [bucket_page_ids local_depths global_depth max_depth].
    rewrite length_app.
    replace ((length (bucket_page_ids d) + length (bucket_page_ids d)) / 2)
      with (length (bucket_page_ids d)) by (apply Nat.div_unique with 0; lia).
    rewrite !resize_take_app by lia. by destruct d.
Qed.

Lemma decrement_after_increment_global_depth_witness :
  length (local_depths (mkDir [7; 8] [1; 1] 2 1)) = length (bucket_page_ids (mkDir [7; 8] [1; 1] 2 1)) /\
  increment_global_depth (mkDir [7; 8] [1; 1] 2 1) = ROk (mkDir [7; 8; 7; 8] [1; 1; 1; 1] 2 2) /\
  decrement_global_depth (mkDir [7; 8; 7; 8] [1; 1; 1; 1] 2 2) = Some (mkDir [7; 8] [1; 1] 2 1).
Proof.
  split; [reflexivity|]. split; [vm_compute; reflexivity|].
  apply (decrement_after_increment_global_depth (mkDir [7; 8] [1; 1] 2 1)); vm_compute; reflexivity.
Defined.



End DirectoryExtra.

Module VerifyExtra.
Import Directory Table Invariants DirInvariant TableInvariants InsertInvariant ExtraDefs.

Section Loop.
Variable d : ExtendibleHTableDirectoryPage.
Hypothesis Hsi : SI d.

Lemma vinv_step (n x l : nat) (mc ml ml' : gmap nat nat) :
  bucket_page_ids d !! n = Some x -> local_depths d !! n = Some l ->
  vinv d n mc ml ->
  ml' = (match ml !! x with Some _ => ml | None => <[x := l]> ml end) ->
  vinv d (S n) (<[x := S (default 0 (mc !! x))]> mc) ml'.
Proof.
  intros Hx Hl Hinv ->. unfold vinv in *. destruct Hinv as (Hc & Hm & Hs).
  rewrite (take_S_r _ _ _ Hx).
  split; [|split].
  - intros y. rewrite count_occ_app. cbn [count_occ].
    destruct (decide (x = y)) as [<-|Hne].
    + rewrite lookup_insert_eq, Hc. destruct (Nat.eq_dec x x); [|done].
      case_decide as E; cbn [default]; rewrite decide_False by lia; f_equal;
        [rewrite E; done|unfold id; lia].
    + rewrite lookup_insert_ne by done. rewrite Hc.
      destruct (Nat.eq_dec x y); [done|]. by rewrite Nat.add_0_r.
  - intros y l' Hy. destruct (ml !! x) as [o|] eqn:Ex.
    + destruct (Hm y l' Hy) as (j & ? & ? & ?). exists j. split; [lia|done].
    + destruct (decide (x = y)) as [<-|Hne].
      * rewrite lookup_insert_eq in Hy. injection Hy as <-. exists n. split; [lia|done].
      * rewrite lookup_insert_ne in Hy by done.
        destruct (Hm y l' Hy) as (j & ? & ? & ?). exists j. split; [lia|done].
  - intros j y Hj Hy. destruct (decide (j = n)) as [->|Hjn].
    + rewrite Hx in Hy. injection Hy as <-.
      destruct (ml !! x) eqn:Ex; [done|]. rewrite lookup_insert_eq. done.
    + destruct (Hs j y ltac:(lia) Hy) as [o Ho].
      destruct (ml !! x) eqn:Ex; [by exists o|].
      destruct (decide (x = y)) as [<-|Hne]; [by rewrite Ex in Ho|].
      rewrite lookup_insert_ne by done. by exists o.
Qed.

Lemma verify_loop_run (m : nat) : forall n mc ml,
  n + m = length (bucket_page_ids d) -> vinv d n mc ml ->
  exists mc' ml', verify_loop (bucket_page_ids d) (local_depths d) (global_depth d)
                    (seq n m) mc ml = Some (mc', ml') /\ vinv d (n + m) mc' ml'.
Proof.
  induction m as [|m IH]; intros n mc ml Hn Hinv.
  - exists mc, ml. rewrite Nat.add_0_r. done.
  - rewrite (si_len_ids d Hsi) in Hn.
    destruct (SI_lookup d n Hsi) as (x & l & Hx & Hl); [lia|].
    cbn [seq verify_loop]. rewrite Hx, Hl.
    pose proof (si_ld_le d Hsi n l Hl) as Hle.
    destruct (Nat.leb_spec l (global_depth d)); [|lia].
    destruct (ml !! x) as [old|] eqn:Eo.
    + destruct Hinv as (Hc & Hm & Hs) eqn:Hinv0.
      destruct (Hm x old Eo) as (j & _ & Hjx & Hjl).
      pose proof (si_ld_eq d Hsi n j x l old Hx Hjx Hl Hjl) as <-.
      rewrite Nat.eqb_refl.
      replace (n + S m) with (S n + m) by lia.
      apply IH; [rewrite (si_len_ids d Hsi); lia|].
      eapply vinv_step; [done|done|exact Hinv|]. by rewrite Eo.
    + replace (n + S m) with (S n + m) by lia.
      apply IH; [rewrite (si_len_ids d Hsi); lia|].
      eapply vinv_step; [done|done|exact Hinv|]. by rewrite Eo.
Qed.

Lemma SI_verify_integrity : Directory.verify_integrity d = Some tt.
Proof.
  unfold Directory.verify_integrity.
  destruct (verify_loop_run (length (bucket_page_ids d)) 0 ∅ ∅) as (mc & ml & Hrun & Hc & Hm & Hs).
  - done.
  - split; [|split].
    + intros x. cbn. done.
    + intros x l H. by rewrite lookup_empty in H.
    + intros j x Hj. lia.
  - cbn [Nat.add] in Hrun, Hc, Hm, Hs. rewrite Hrun.
    replace (forallb _ _) with true; [done|]. symmetry. apply forallb_forall.
    intros [x c] Hin. apply list_elem_of_In, elem_of_map_to_list in Hin.
    rewrite Hc, firstn_all in Hin. case_decide as E; [discriminate|]. injection Hin as <-.
    assert (Hx : In x (bucket_page_ids d)) by (apply (count_occ_In Nat.eq_dec); lia).
    apply list_elem_of_In, list_elem_of_lookup_1 in Hx as [j Hj].
    destruct (Hs j x ltac:(eapply lookup_lt_Some; eauto) Hj) as [l Hl]. rewrite Hl.
    destruct (Hm x l Hl) as (j' & _ & Hj'x & Hj'l).
    rewrite (SI_count d j' x l Hsi Hj'x Hj'l). apply Nat.eqb_refl.
Qed.

End Loop.

Section Table.
Context {K V : Type} `{EqDecision K}.
Variable hash_string : K -> nat.
Variable drain_order : list (K * V) -> list (K * V).

(** Every directory installed in a table reached through
    [ExtendibleHashTable::new] and [insert]s passes
    [ExtendibleHTableDirectoryPage::verify_integrity]. *)
Theorem reachable_verify_integrity (t : ExtendibleHashTable) (s : Pool (K:=K) (V:=V))
    (h : Header.ExtendibleHTableHeaderPage) (i dp : nat) (pg : page_data (K:=K) (V:=V))
    (D : ExtendibleHTableDirectoryPage)
    (Hreach : reachable hash_string drain_order t s)
    (Hh : pages s !! header_page_id t = Some (HeaderData h))
    (Hi : Header.get_directory_page_id h i = Some dp)
    (Hd : pages s !! dp = Some pg)
    (HD : decode_directory pg = Some D) :
  Directory.verify_integrity D = Some tt.
Proof.
  apply reachable_table_inv in Hreach as (slot & Hhdr & _ & Hslot).
  rewrite Hhdr in Hh. injection Hh as <-.
  unfold Header.get_directory_page_id in Hi. cbn [Header.directory_page_ids] in Hi.
  destruct i as [|i]; [|destruct i; discriminate].
  destruct slot as [dp'|]; cbn in Hi; [injection Hi as <-|discriminate].
  destruct Hslot as (_ & _ & [(D' & HD' & Hsi & _)|[HZ _]]).
  - rewrite Hd in HD'. injection HD' as ->. injection HD as <-. by apply SI_verify_integrity.
  - rewrite Hd in HZ. injection HZ as ->. injection HD as <-. reflexivity.
Qed.

End Table.

Lemma reachable_verify_integrity_witness :
  let t := mkTable 3 2 1 in
  let h := λ k : nat, k in
  let dr := λ l : list (nat * nat), l in
  let p0 := match Table.new (K:=nat) (V:=nat) 3 2 (pool_init 8) with
            | Done _ p => p | _ => pool_init 0 end in
  let step p k := match insert h dr 10 t k (10 * k) p with
                  | Done _ p' => p' | _ => p end in
  let s := step (step (step p0 0) 1) 2 in
  reachable h dr t s /\
  pages s !! header_page_id t = Some (HeaderData (Header.mkHeader [Some 2] 0)) /\
  Header.get_directory_page_id (Header.mkHeader [Some 2] 0) 0 = Some 2 /\
  pages s !! 2 = Some (DirectoryData (mkDir [3; 4] [1; 1] 3 1)) /\
  decode_directory (DirectoryData (K:=nat) (V:=nat) (mkDir [3; 4] [1; 1] 3 1)) = Some (mkDir [3; 4] [1; 1] 3 1) /\
  Directory.verify_integrity (mkDir [3; 4] [1; 1] 3 1) = Some tt.
Proof.
  intros t h dr p0 step s.
  assert (Hr : reachable h dr t s).
  { apply (reachable_insert_ok _ _ t 10 2 20 (step (step p0 0) 1));
      [|unfold s, step, p0, t; vm_compute; reflexivity].
    apply (reachable_insert_ok _ _ t 10 1 10 (step p0 0));
      [|unfold step, p0, t; vm_compute; reflexivity].
    apply (reachable_insert_ok _ _ t 10 0 0 p0);
      [|unfold step, p0, t; vm_compute; reflexivity].
    apply (reachable_new _ _ t 3 2 (pool_init 8)). unfold p0, t. vm_compute. reflexivity. }
  assert (Hh : pages s !! header_page_id t = Some (HeaderData (Header.mkHeader [Some 2] 0)))
    by (unfold s, step, p0, t; vm_compute; reflexivity).
  assert (Hd : pages s !! 2 = Some (DirectoryData (mkDir [3; 4] [1; 1] 3 1)))
    by (unfold s, step, p0, t; vm_compute; reflexivity).
  split; [exact Hr|]. split; [exact Hh|]. split; [reflexivity|]. split; [exact Hd|].
  split; [reflexivity|].
  exact (reachable_verify_integrity h dr t s (Header.mkHeader [Some 2] 0) 0 2 _ _ Hr Hh
           eq_refl Hd eq_refl).
Defined.

End VerifyExtra.

Module HeaderExtra.
Import Header.

(** [set_directory_page_id] then [get_directory_page_id]: the slot set
    reads back the page id, every other slot is unchanged; an index past
    the slots panics. *)
Theorem set_get_directory_page_id (h : ExtendibleHTableHeaderPage) (i p : nat) :
  (i < length (directory_page_ids h) ->
   exists h', set_directory_page_id h i p = Some h' /\
     forall j, get_directory_page_id h' j =
               if decide (j = i) then Some p else get_directory_page_id h j) /\
  (length (directory_page_ids h) <= i -> set_directory_page_id h i p = None).
Proof.
  unfold set_directory_page_id. split.
  - intros Hi. destruct (Nat.ltb_spec i (length (directory_page_ids h))); [|lia].
    eexists. split; [reflexivity|]. intros j. unfold get_directory_page_id. cbn [directory_page_ids].
    case_decide as E.
    + subst. by rewrite list_lookup_insert_eq.
    + by rewrite list_lookup_insert_ne.
  - intros Hi. destruct (Nat.ltb_spec i (length (directory_page_ids h))); [lia|done].
Qed.


End HeaderExtra.

Module BucketExtra.
Import Bucket MapFacts.
Section B.
Context {K V : Type} `{EqDecision K}.
Implicit Types (l : list (K * V)) (k : K) (v : V) (b : ExtendibleHTableBucketPage (K:=K) (V:=V)).

Lemma map_remove_spec l k :
  NoDup (map fst l) ->
  fst (map_remove l k) = map_get l k /\
  NoDup (map fst (snd (map_remove l k))) /\
  (forall k', map_get (snd (map_remove l k)) k' = if decide (k' = k) then None else map_get l k') /\
  length (snd (map_remove l k)) = match map_get l k with Some _ => pred (length l) | None => length l end.
Proof.
  induction l as [|[k1 v1] l IH]; intros Hnd; cbn [map_remove map_get fst snd].
  - split; [done|]. split; [constructor|]. split; [|done]. intros k'. by case_decide.
  - apply NoDup_cons in Hnd as [Hk1 Hnd]. destruct (decide (k = k1)) as [->|Hne].
    + cbn [fst snd]. split; [done|]. split; [done|]. split; [|done].
      intros k'. destruct (decide (k' = k1)) as [->|Hne']; [|done].
      apply map_get_None. intros H. apply Hk1. by apply list_elem_of_In.
    + destruct (IH Hnd) as (Hf & Hnd' & Hg & Hlen).
      destruct (map_remove l k) as [o r'] eqn:Er. cbn [fst snd] in *.
      split; [done|]. split.
      * cbn [map fst]. apply NoDup_cons. split; [|done].
        intros Hin. apply Hk1. apply list_elem_of_In in Hin. apply list_elem_of_In.
        apply in_map_iff in Hin as ([kk vv] & <- & Hin). cbn.
        destruct (map_get r' kk) as [w|] eqn:Ew.
        -- rewrite Hg in Ew. case_decide; [discriminate|].
           apply map_get_In in Ew; [|done]. apply in_map_iff. by exists (kk, w).
        -- apply map_get_None in Ew. exfalso. apply Ew. apply in_map_iff. by exists (kk, vv).
      * split.
        -- intros k'. cbn [map_get]. destruct (decide (k' = k1)) as [->|Hne'].
           ++ rewrite decide_False by done. done.
           ++ apply Hg.
        -- cbn [length]. rewrite Hlen. destruct (map_get l k) eqn:Eg; [|done].
           destruct l; [discriminate|]. cbn [length]. lia.
Qed.

(** [insert] then [get]: the key reads back its value, every other key is
    unchanged, the size grows by one exactly when the key was absent, and
    the max size is kept. *)
Theorem insert_get_size b k v :
  (forall k', get (insert b k v) k' = if decide (k' = k) then Some v else get b k') /\
  get_size (insert b k v) = match get b k with Some _ => get_size b | None => S (get_size b) end /\
  get_max_size (insert b k v) = get_max_size b.
Proof.
  unfold get, insert, get_size, get_max_size. cbn [data max_size].
  split; [intros k'; apply map_get_insert|]. split; [|done].
  rewrite <- (length_map fst (map_insert _ k v)), map_insert_keys.
  case_decide as Hin; destruct (map_get (data b) k) as [w|] eqn:E.
  - apply length_map.
  - exfalso. apply map_get_None in E. apply E. by apply list_elem_of_In.
  - exfalso. apply Hin. apply dec_stable. intros Hn.
    assert (Hn' : map_get (data b) k = None)
      by (apply map_get_None; intros H; apply Hn, list_elem_of_In, H).
    congruence.
  - rewrite length_app, length_map. cbn. lia.
Qed.

(** [delete] on a bucket whose keys are unique (as a [HashMap]'s): it
    returns what [get] returned, the key is absent afterwards, every other
    key is unchanged, and the size drops by one exactly when the key was
    present. *)
Theorem delete_get b k (Hnd : NoDup (map fst (data b))) :
  fst (delete b k) = get b k /\
  (forall k', get (snd (delete b k)) k' = if decide (k' = k) then None else get b k') /\
  get_size (snd (delete b k)) = match get b k with Some _ => pred (get_size b) | None => get_size b end.
Proof.
  destruct (map_remove_spec (data b) k Hnd) as (Hf & _ & Hg & Hlen).
  unfold delete, get, get_size. destruct (map_remove (data b) k) as [o r] eqn:E.
  cbn [fst snd data] in *. done.
Qed.

(** [delete] right after [insert] of an absent key gives back the value
    and the bucket as it was. *)
Theorem delete_after_insert b k v (Habs : get b k = None) :
  delete (insert b k v) k = (Some v, b).
Proof.
  unfold get in Habs. unfold delete, insert. cbn [data max_size].
  assert (H : map_remove (map_insert (data b) k v) k = (Some v, data b)).
  { induction (data b) as [|[k1 v1] l IH]; cbn [map_insert map_remove map_get] in *.
    - by rewrite decide_True.
    - destruct (decide (k = k1)) as [->|Hne]; [discriminate|].
      cbn [map_remove]. rewrite decide_False by done. by rewrite IH. }
  rewrite H. by destruct b.
Qed.

End B.

Lemma delete_get_witness :
  let b := Bucket.mkBucket (K:=nat) (V:=nat) 3 [(1, 10); (2, 20)] in
  NoDup (map fst (data b)) /\
  fst (delete b 1) = get b 1 /\
  (forall k', get (snd (delete b 1)) k' = if decide (k' = 1) then None else get b k') /\
  get_size (snd (delete b 1)) = match get b 1 with Some _ => pred (get_size b) | None => get_size b end.
Proof.
  intros b. assert (Hnd : NoDup (map fst (data b))) by (apply (bool_decide_unpack _); vm_compute; exact I).
  split; [exact Hnd|]. exact (delete_get b 1 Hnd).
Defined.

Lemma delete_after_insert_witness :
  let b := Bucket.mkBucket (K:=nat) (V:=nat) 3 [(1, 10)] in
  get b 2 = None /\ delete (insert b 2 20) 2 = (Some 20, b).
Proof.
  intros b. assert (Habs : get b 2 = None) by reflexivity.
  split; [exact Habs|]. exact (delete_after_insert b 2 20 Habs).
Defined.
End BucketExtra.

Module PageExtra.
Import Bpm.
Open Scope Z_scope.

(** [unpin] undoes [pin] and [pin] undoes [unpin], the counter wrapping
    modulo 2^64 as [AtomicUsize::fetch_add] / [fetch_sub] do. *)
Theorem pin_unpin (p : Page) (Hrange : 0 <= pin_count p < 2 ^ 64) :
  unpin (pin p) = p /\ pin (unpin p) = p.
Proof.
  destruct p as [i d c dirty]. cbn [pin_count] in Hrange. unfold pin, unpin. cbn.
  split; f_equal.
  - rewrite Zminus_mod_idemp_l. replace (c + 1 - 1) with c by lia. by apply Z.mod_small.
  - rewrite Zplus_mod_idemp_l. replace (c - 1 + 1) with c by lia. by apply Z.mod_small.
Qed.

Lemma pin_unpin_witness :
  0 <= pin_count page_new < 2 ^ 64 /\ unpin (pin page_new) = page_new /\ pin (unpin page_new) = page_new.
Proof.
  assert (H : 0 <= pin_count page_new < 2 ^ 64) by (cbn; lia).
  split; [exact H|]. exact (pin_unpin page_new H).
Defined.

Close Scope Z_scope.
End PageExtra.

Module ReplacerExtra.
Import LruK ReplacerDefs ExtraDefs.


Lemma fold_max_min_In {A} (step : option A -> A -> option A) (l : list A) :
  (forall acc y x, step acc y = Some x -> x = y \/ acc = Some x) ->
  forall acc x, fold_left step l acc = Some x -> acc = Some x \/ In x l.
Proof.
  intros Hstep. induction l as [|y l IH]; intros acc x H; cbn [fold_left] in H.
  - by left.
  - destruct (IH _ _ H) as [E|Hin]; [|by right; right].
    destruct (Hstep acc y x E) as [-> | ->]; [by right; left|by left].
Qed.

Lemma min_by_In {A} (f : A -> Z) (l : list A) (x : A) : min_by f l = Some x -> In x l.
Proof.
  unfold min_by. intros H. apply fold_max_min_In in H; [destruct H as [H|H]; [discriminate|done]|].
  intros [a|] y z; cbn; [destruct (f y <? f a)%Z|]; intros [= <-]; auto.
Qed.

(** A frame [evict] returns is in the store and evictable. *)
Lemma evict_In (r : LruKReplacer) (now : Z) (f : nat) :
  evict r now = Some f -> exists n, In (f, n) (node_store r) /\ is_evictable n = true.
Proof.
  unfold evict. destruct (max_by _ _) as [[? longest]|]; [|discriminate].
  match goal with |- context [List.filter ?P (node_store r)] =>
    set (L := List.filter P (node_store r));
    assert (HP : forall kv, In kv L -> In kv (node_store r) /\ is_evictable kv.2 = true)
  end.
  { intros [f' n'] Hin. unfold L in Hin. apply filter_In in Hin as [Hin Hp]. cbn in Hp.
    apply andb_prop in Hp as [He _]. done. }
  destruct (length L =? 1)%nat.
  - destruct L as [|[f' n'] rest] eqn:E; [discriminate|].
    cbn. intros [= <-]. exists n'. apply (HP (f', n')). by left.
  - destruct (min_by _ _) as [[f' ts]|] eqn:E; [|discriminate]. cbn. intros [= <-].
    apply min_by_In, in_map_iff in E as ([f'' n''] & [= <- _] & Hin).
    exists n''. by apply (HP (f'', n'')).
Qed.

Lemma store_update_filter (l : list (nat * LruKNode)) (f : nat) (g : LruKNode -> LruKNode) :
  length (List.filter evictable_pair (store_update l f g)) + 
    (match store_lookup l f with Some n => if is_evictable n then 1 else 0 | None => 0 end) =
  length (List.filter evictable_pair l) +
    (match store_lookup l f with Some n => if is_evictable (g n) then 1 else 0 | None => 0 end).
Proof.
  induction l as [|[f' n] l IH]; cbn [store_update store_lookup List.filter]; [done|].
  destruct (Nat.eqb_spec f f') as [<-|Hne]; cbn [List.filter evictable_pair].
  - destruct (is_evictable (g n)), (is_evictable n); cbn [length]; lia.
  - destruct (is_evictable n); cbn [length]; lia.
Qed.

Lemma size_eq (r : LruKReplacer) : size r = length (List.filter evictable_pair (node_store r)).
Proof. done. Qed.

Lemma store_lookup_update (l : list (nat * LruKNode)) (f f' : nat) (g : LruKNode -> LruKNode) :
  store_lookup (store_update l f g) f' =
    if (f' =? f)%nat then option_map g (store_lookup l f) else store_lookup l f'.
Proof.
  induction l as [|[f1 n] l IH]; cbn [store_update store_lookup].
  - by destruct (f' =? f)%nat.
  - destruct (Nat.eqb_spec f f1) as [<-|Hne]; cbn [store_lookup].
    + destruct (Nat.eqb_spec f' f) as [->|]; done.
    + rewrite IH. destruct (Nat.eqb_spec f' f) as [->|Hne'].
      * destruct (Nat.eqb_spec f f1); done.
      * done.
Qed.

Lemma store_lookup_snoc (l : list (nat * LruKNode)) (f f' : nat) (n : LruKNode) :
  store_lookup l f = None ->
  store_lookup (l ++ [(f, n)]) f' = if (f' =? f)%nat then Some n else store_lookup l f'.
Proof.
  induction l as [|[f1 n1] l IH]; cbn [store_lookup app]; intros H.
  - by destruct (f' =? f)%nat.
  - destruct (Nat.eqb_spec f f1); [discriminate|].
    destruct (Nat.eqb_spec f' f1) as [->|]; [|by apply IH].
    destruct (Nat.eqb_spec f1 f); [lia|done].
Qed.

Lemma store_lookup_In (l : list (nat * LruKNode)) (f : nat) (n : LruKNode) :
  store_lookup l f = Some n -> In (f, n) l.
Proof.
  induction l as [|[f' n'] l IH]; cbn [store_lookup]; [discriminate|].
  destruct (Nat.eqb_spec f f') as [->|]; [intros [= ->]; by left|]. intros H. right. by apply IH.
Qed.

Lemma store_lookup_None (l : list (nat * LruKNode)) (f : nat) :
  store_lookup l f = None <-> ~ In f (map fst l).
Proof.
  induction l as [|[f' n'] l IH]; cbn [store_lookup map fst In]; [split; [auto|done]|].
  destruct (Nat.eqb_spec f f') as [->|Hne].
  - split; [discriminate|]. intros H. exfalso. apply H. by left.
  - rewrite IH. split; [intros H [->|H']; done|]. intros H H'. apply H. by right.
Qed.

Lemma store_lookup_NoDup (l : list (nat * LruKNode)) (f : nat) (n : LruKNode) :
  NoDup (map fst l) -> In (f, n) l -> store_lookup l f = Some n.
Proof.
  induction l as [|[f' n'] l IH]; cbn [store_lookup map fst In]; [done|].
  intros Hnd. apply NoDup_cons in Hnd as [Hf Hnd].
  destruct (Nat.eqb_spec f f') as [->|Hne].
  - intros [[= ->]|Hin]; [done|]. exfalso. apply Hf, list_elem_of_In, in_map_iff. by exists (f', n).
  - intros [[= -> ->]|Hin]; [done|]. by apply IH.
Qed.

Lemma StronglySorted_app_l {A} (R : A -> A -> Prop) (l1 l2 : list A) :
  StronglySorted R (l1 ++ l2) -> StronglySorted R l1.
Proof.
  induction l1 as [|a l1 IH]; cbn; intros H; [constructor|].
  apply StronglySorted_inv in H as [H1 H2]. constructor; [by apply IH|].
  apply Forall_app in H2 as [H2 _]. done.
Qed.

Lemma removelast_props (l : list Z) (P : Z -> Prop) :
  StronglySorted Z.gt l -> Forall P l ->
  StronglySorted Z.gt (removelast l) /\ Forall P (removelast l).
Proof.
  intros Hs Hf. destruct l as [|a l]; [done|].
  rewrite (app_removelast_last (l:=a :: l) 0%Z) in Hs, Hf by done.
  split; [by eapply StronglySorted_app_l|]. by apply Forall_app in Hf as [Hf _].
Qed.

Lemma store_update_fst (l : list (nat * LruKNode)) (f : nat) (g : LruKNode -> LruKNode) :
  map fst (store_update l f g) = map fst l.
Proof.
  induction l as [|[f' n] l IH]; cbn [store_update]; [done|].
  destruct (f =? f')%nat; cbn; [done|]. by rewrite IH.
Qed.

Lemma store_update_forall (l : list (nat * LruKNode)) (f : nat) (g : LruKNode -> LruKNode)
    (P : nat -> LruKNode -> Prop) :
  (forall f' n, In (f', n) l -> P f' n) ->
  (forall n, In (f, n) l -> P f n -> P f (g n)) ->
  forall f' n, In (f', n) (store_update l f g) -> P f' n.
Proof.
  induction l as [|[f1 n1] l IH]; cbn [store_update]; intros Hl Hg; [done|].
  destruct (Nat.eqb_spec f f1) as [<-|Hne].
  - intros f' n [[= <- <-]|Hin]; [apply Hg; [by left|apply Hl; by left]|].
    apply Hl. by right.
  - intros f' n [[= <- <-]|Hin]; [apply Hl; by left|].
    eapply IH; [..|exact Hin].
    + intros f2 n2 H. apply Hl. by right.
    + intros n2 H. apply Hg. by right.
Qed.

Lemma filter_fst_NoDup (l : list (nat * LruKNode)) (p : nat * LruKNode -> bool) :
  NoDup (map fst l) -> NoDup (map fst (List.filter p l)).
Proof.
  induction l as [|[f n] l IH]; cbn [List.filter map]; intros Hnd; [done|].
  apply NoDup_cons in Hnd as [Hf Hnd]. destruct (p (f, n)); cbn [map fst]; [|by apply IH].
  constructor; [|by apply IH]. intros Hin. apply Hf.
  apply list_elem_of_In, in_map_iff in Hin as ([f' n'] & Hfst & Hin).
  apply filter_In in Hin as [Hin _]. apply list_elem_of_In, in_map_iff. by exists (f', n').
Qed.

Lemma replacer_inv_reachable (nf k : nat) (r : LruKReplacer) :
  0 < k -> reachable_replacer nf k r -> replacer_inv k r.
Proof.
  intros Hk. induction 1 as [|r f Hr (Hkr & Hnd & Hok)|r f b Hr (Hkr & Hnd & Hok)|r f Hr (Hkr & Hnd & Hok)].
  - split; [done|]. split; [constructor|]. done.
  - unfold replacer_inv, record_access.
    destruct (store_lookup (node_store r) f) as [n0|] eqn:E; cbn [replacer_k node_store clock].
    + split; [done|]. split; [by rewrite store_update_fst|].
      eapply store_update_forall.
      * intros f' n Hin. destruct (Hok f' n Hin) as (Hf & Hkn & Hlen & Hs & Hlt).
        split; [done|]. split; [done|]. split; [done|]. split; [done|].
        eapply Forall_impl; [exact Hlt|]. cbn. lia.
      * intros n Hin _. destruct (Hok f n Hin) as (Hf & Hkn & Hlen & Hs & Hlt).
        unfold node_record_access, node_ok. cbn [LruK.k frame_id history].
        assert (Hs' : StronglySorted Z.gt (clock r :: history n)).
        { constructor; [done|]. eapply Forall_impl; [exact Hlt|]. cbn. lia. }
        assert (Hf' : Forall (λ ts, ts < clock r + 1)%Z (clock r :: history n)).
        { constructor; [lia|]. eapply Forall_impl; [exact Hlt|]. cbn. lia. }
        split; [done|]. split; [done|].
        destruct (Nat.ltb_spec (LruK.k n) (length (clock r :: history n))) as [Hgt|Hle].
        -- destruct (removelast_props _ _ Hs' Hf') as [Hs'' Hf''].
           split; [|done]. destruct (history n) as [|h0 hs]; cbn [length] in *; [lia|].
           change (removelast (clock r :: h0 :: hs)) with (clock r :: removelast (h0 :: hs)).
           rewrite removelast_firstn_len. cbn [length]. rewrite length_take. cbn [length Init.Nat.pred]. lia.
        -- cbn [length] in *. split; [lia|]. done.
    + split; [done|]. split.
      * rewrite map_app. cbn. apply NoDup_app. split; [done|]. split; [|constructor; [apply not_elem_of_nil|constructor]].
        intros x Hx ->%list_elem_of_singleton. apply list_elem_of_In in Hx.
        by apply (proj1 (store_lookup_None _ _) E).
      * intros f' nd [Hin|[[= <- <-]|[]]]%in_app_or.
        -- destruct (Hok f' nd Hin) as (Hf & Hkn & Hlen & Hs & Hlt).
           split; [done|]. split; [done|]. split; [done|]. split; [done|].
           eapply Forall_impl; [exact Hlt|]. cbn. lia.
        -- unfold node_new, node_ok. cbn. split; [done|]. split; [done|]. split; [lia|].
           split; [repeat constructor|]. repeat constructor. lia.
  - unfold replacer_inv, set_evictable. cbn [replacer_k node_store clock].
    split; [done|]. split; [by rewrite store_update_fst|].
    eapply store_update_forall; [exact Hok|]. intros n _ H. exact H.
  - unfold replacer_inv, remove. cbn [replacer_k node_store clock].
    split; [done|]. split; [by apply filter_fst_NoDup|].
    intros f' nd Hin. apply filter_In in Hin as [Hin _]. by apply Hok.
Qed.

(** [record_access] on a reachable replacer: the frame's newest timestamp
    is the access time, and [least_recent_access] returns it; a new frame is not evictable, an
    existing one keeps its flag, so [size] is unchanged; other frames are
    untouched. *)
Theorem record_access_spec (nf k : nat) (r : LruKReplacer) (f : nat)
    (Hk : 0 < k) (Hreach : reachable_replacer nf k r) :
  size (record_access r f) = size r /\
  (exists n, store_lookup (node_store (record_access r f)) f = Some n /\
     least_recent_access n = clock r /\
     is_evictable n = match store_lookup (node_store r) f with
                      | Some n0 => is_evictable n0 | None => false end) /\
  (forall f', f' <> f -> store_lookup (node_store (record_access r f)) f' = store_lookup (node_store r) f').
Proof.
  unfold record_access. cbn [node_store]. rewrite !size_eq. cbn [node_store].
  destruct (store_lookup (node_store r) f) as [n0|] eqn:E.
  - split; [|split].
    + pose proof (store_update_filter (node_store r) f (λ n, node_record_access n (clock r))) as H.
      rewrite E in H. cbn [is_evictable node_record_access] in H. lia.
    + exists (node_record_access n0 (clock r)). rewrite store_lookup_update, Nat.eqb_refl, E.
      split; [done|]. split; [|done]. unfold least_recent_access, node_record_access. cbn.
      destruct (replacer_inv_reachable _ _ _ Hk Hreach) as (_ & _ & Hok).
      destruct (Hok f n0 (store_lookup_In _ _ _ E)) as (_ & _ & Hlen & _).
      destruct (history n0) as [|h0 hs]; cbn [length] in Hlen; [lia|].
      by destruct (LruK.k n0 <=? length (h0 :: hs))%nat.
    + intros f' Hne. rewrite store_lookup_update. by destruct (Nat.eqb_spec f' f).
  - split; [|split].
    + rewrite List.filter_app, length_app. cbn. lia.
    + exists (node_new f (replacer_k r) (clock r)). rewrite store_lookup_snoc, Nat.eqb_refl by done.
      done.
    + intros f' Hne. rewrite store_lookup_snoc by done. by destruct (Nat.eqb_spec f' f).
Qed.

(** [set_evictable]: the frame's flag is set and [size] moves with it;
    on an unknown frame nothing changes. *)
Theorem set_evictable_spec (r : LruKReplacer) (f : nat) (b : bool) :
  match store_lookup (node_store r) f with
  | None => set_evictable r f b = r
  | Some n =>
      size (set_evictable r f b) + (if is_evictable n then 1 else 0) = size r + (if b then 1 else 0) /\
      option_map is_evictable (store_lookup (node_store (set_evictable r f b)) f) = Some b
  end.
Proof.
  destruct (store_lookup (node_store r) f) as [n|] eqn:E.
  - split.
    + rewrite !size_eq. unfold set_evictable. cbn [node_store].
      pose proof (store_update_filter (node_store r) f
                    (λ n, mkNode (LruK.k n) (frame_id n) b (history n))) as H.
      rewrite E in H. cbn [is_evictable] in H. lia.
    + unfold set_evictable. cbn [node_store]. rewrite store_lookup_update, Nat.eqb_refl, E. done.
  - unfold set_evictable. destruct r as [nf k st c]. cbn [node_store] in *. f_equal.
    clear -E. induction st as [|[f' n] st IH]; cbn [store_update store_lookup] in *; [done|].
    destruct (f =? f')%nat; [discriminate|]. by rewrite IH.
Qed.

(** [remove] on a replacer whose frames are unique (the [HashMap]'s keys):
    the frame is gone, [size] drops by its flag, other frames are
    untouched, and [evict] never returns it afterwards. *)
Theorem remove_spec (r : LruKReplacer) (f : nat) (Hnd : NoDup (map fst (node_store r))) :
  store_lookup (node_store (remove r f)) f = None /\
  (forall f', f' <> f -> store_lookup (node_store (remove r f)) f' = store_lookup (node_store r) f') /\
  size (remove r f) + (match store_lookup (node_store r) f with
                       | Some n => if is_evictable n then 1 else 0 | None => 0 end) = size r /\
  (forall now, evict (remove r f) now <> Some f).
Proof.
  unfold remove. cbn [node_store]. set (st := node_store r) in *.
  assert (Hl : forall f', store_lookup (List.filter (λ '(f0, _), negb (f0 =? f)%nat) st) f' =
                          if (f' =? f)%nat then None else store_lookup st f').
  { intros f'. clear Hnd. induction st as [|[f1 n1] st IH]; cbn [List.filter store_lookup].
    - by destruct (f' =? f)%nat.
    - destruct (Nat.eqb_spec f1 f) as [->|Hne]; cbn [negb store_lookup].
      + rewrite IH. destruct (Nat.eqb_spec f' f); done.
      + rewrite IH. destruct (Nat.eqb_spec f' f1) as [->|].
        * destruct (Nat.eqb_spec f1 f); done.
        * done. }
  split; [rewrite Hl, Nat.eqb_refl; done|]. split.
  { intros f' Hne. rewrite Hl. by destruct (Nat.eqb_spec f' f). }
  split.
  - rewrite !size_eq. cbn [node_store]. fold st. clear Hl.
    induction st as [|[f1 n1] st IH]; cbn [List.filter store_lookup]; [done|].
    cbn [map fst] in Hnd. apply NoDup_cons in Hnd as [Hf1 Hnd].
    destruct (Nat.eqb_spec f1 f) as [->|Hne]; cbn [negb].
    + rewrite Nat.eqb_refl. cbn [List.filter evictable_pair].
      assert (E : List.filter (λ '(f0, _), negb (f0 =? f)%nat) st = st).
      { apply forallb_filter_id, forallb_forall. intros [f0 n0] Hin.
        destruct (Nat.eqb_spec f0 f) as [->|]; [|done]. exfalso. apply Hf1.
        apply list_elem_of_In, in_map_iff. by exists (f, n0). }
      rewrite E. destruct (is_evictable n1); cbn [length]; lia.
    + rewrite (proj2 (Nat.eqb_neq f f1)) by lia. cbn [List.filter evictable_pair].
      specialize (IH Hnd). destruct (is_evictable n1); cbn [length]; lia.
  - intros now Hev. apply evict_In in Hev as (n & Hin & _). cbn [node_store] in Hin.
    apply filter_In in Hin as [_ Hb]. rewrite Nat.eqb_refl in Hb. discriminate.
Qed.

(** [evict] returns only an evictable frame of the store, so it returns
    [None] when no frame is evictable. *)
Theorem evict_sound (r : LruKReplacer) (now : Z) :
  match evict r now with
  | Some f => exists n, In (f, n) (node_store r) /\ is_evictable n = true
  | None => True
  end /\
  ((forall f n, In (f, n) (node_store r) -> is_evictable n = false) -> evict r now = None).
Proof.
  split.
  - destruct (evict r now) eqn:E; [|done]. by apply (evict_In r now).
  - intros Hnone. destruct (evict r now) eqn:E; [|done].
    apply evict_In in E as (nd & Hin & Hev). by rewrite (Hnone _ _ Hin) in Hev.
Qed.

(** Every replacer [LruKReplacer::new(num_of_frames, k)] reaches with
    [k > 0] keeps [k], holds each frame at most once, and each node carries
    its frame id and [k] and between 1 and [k] timestamps.  Nothing is
    said of the order of the timestamps: the source reads them from
    [SystemTime::now()], which can repeat or go backwards. *)
Theorem reachable_replacer_invariant (nf k : nat) (r : LruKReplacer)
    (Hk : 0 < k) (Hreach : reachable_replacer nf k r) :
  replacer_k r = k /\ NoDup (map fst (node_store r)) /\
  forall f nd, In (f, nd) (node_store r) ->
    frame_id nd = f /\ LruK.k nd = k /\ 1 <= length (history nd) <= k.
Proof.
  destruct (replacer_inv_reachable nf k r Hk Hreach) as (Hkr & Hnd & Hok).
  split; [done|]. split; [done|].
  intros f nd Hin. destruct (Hok f nd Hin) as (Hf & Hkn & Hlen & _). done.
Qed.

Lemma reachable_replacer_invariant_witness :
  let r := record_access (set_evictable (record_access (record_access (record_access (new 10 2) 3) 3) 3) 3 true) 4 in
  0 < 2 /\ reachable_replacer 10 2 r /\
  (replacer_k r = 2 /\ NoDup (map fst (node_store r)) /\
   forall f nd, In (f, nd) (node_store r) ->
     frame_id nd = f /\ LruK.k nd = 2 /\ 1 <= length (history nd) <= 2).
Proof.
  intros r. assert (Hk : 0 < 2) by lia.
  assert (Hr : reachable_replacer 10 2 r)
    by (apply rr_record_access, rr_set_evictable, rr_record_access, rr_record_access,
               rr_record_access, rr_new).
  split; [exact Hk|]. split; [exact Hr|]. exact (reachable_replacer_invariant 10 2 r Hk Hr).
Defined.

Lemma record_access_spec_witness :
  let r := record_access (new 10 2) 3 in
  0 < 2 /\ reachable_replacer 10 2 r /\
  (size (record_access r 3) = size r /\
   (exists n, store_lookup (node_store (record_access r 3)) 3 = Some n /\
      least_recent_access n = clock r /\
      is_evictable n = match store_lookup (node_store r) 3 with
                       | Some n0 => is_evictable n0 | None => false end) /\
   (forall f', f' <> 3 -> store_lookup (node_store (record_access r 3)) f' = store_lookup (node_store r) f')).
Proof.
  intros r. assert (Hk : 0 < 2) by lia.
  assert (Hr : reachable_replacer 10 2 r) by (apply rr_record_access, rr_new).
  split; [exact Hk|]. split; [exact Hr|]. exact (record_access_spec 10 2 r 3 Hk Hr).
Defined.

Lemma remove_spec_witness :
  let r := set_evictable (record_access (record_access (new 10 2) 3) 4) 3 true in
  NoDup (map fst (node_store r)) /\
  (store_lookup (node_store (remove r 3)) 3 = None /\
   (forall f', f' <> 3 -> store_lookup (node_store (remove r 3)) f' = store_lookup (node_store r) f') /\
   size (remove r 3) + (match store_lookup (node_store r) 3 with
                        | Some n => if is_evictable n then 1 else 0 | None => 0 end) = size r /\
   (forall now, evict (remove r 3) now <> Some 3)).
Proof.
  intros r. assert (Hnd : NoDup (map fst (node_store r)))
    by (apply (bool_decide_unpack _); vm_compute; exact I).
  split; [exact Hnd|]. exact (remove_spec r 3 Hnd).
Defined.

End ReplacerExtra.

Module BpmExtra.
Import Bpm ExtraDefs.

(** The pool after [i] of [n] calls of [new_page] on [new n k]. *)
Definition fresh_after (n i : nat) (s : BufferPoolManager) : Prop :=
  free_list s = seq 0 (n - i) /\ length (pages s) = n /\
  (forall j pg, pages s !! j = Some pg -> is_dirty pg = false) /\
  (forall f nd, In (f, nd) (LruK.node_store (replacer s)) -> LruK.is_evictable nd = false) /\
  next_page_id s = i /\
  (forall p, pages_map s !! p = if decide (1 <= p <= i) then Some (n - p) else None).

Lemma record_access_not_evictable (r : LruK.LruKReplacer) (f : nat) :
  (forall f' nd, In (f', nd) (LruK.node_store r) -> LruK.is_evictable nd = false) ->
  forall f' nd, In (f', nd) (LruK.node_store (LruK.record_access r f)) -> LruK.is_evictable nd = false.
Proof.
  intros H. unfold LruK.record_access.
  destruct (LruK.store_lookup (LruK.node_store r) f); cbn [LruK.node_store].
  - apply ReplacerExtra.store_update_forall; [exact H|]. intros nd _ Hnd. exact Hnd.
  - intros f' nd [Hin|[[= _ <-]|[]]]%in_app_or; [by apply (H f')|done].
Qed.

Lemma set_evictable_false_not_evictable (r : LruK.LruKReplacer) (f : nat) :
  (forall f' nd, In (f', nd) (LruK.node_store r) -> LruK.is_evictable nd = false) ->
  forall f' nd, In (f', nd) (LruK.node_store (LruK.set_evictable r f false)) ->
    LruK.is_evictable nd = false.
Proof.
  intros H. unfold LruK.set_evictable. cbn [LruK.node_store].
  apply ReplacerExtra.store_update_forall; [exact H|]. done.
Qed.

Lemma fresh_after_step (n i : nat) (s : BufferPoolManager) :
  i < n -> fresh_after n i s ->
  exists s', new_page s = BOk (Some (n - S i)) s' /\ fresh_after n (S i) s'.
Proof.
  intros Hi (Hfl & Hlen & Hdirty & Hev & Hnext & Hmap).
  unfold new_page, take_frame. rewrite Hfl.
  replace (n - i) with (S (n - S i)) by lia.
  rewrite seq_S, last_snoc, removelast_last. cbn [Nat.add].
  destruct (lookup_lt_is_Some_2 (pages s) (n - S i)) as [pg Hpg]; [lia|].
  rewrite Hpg, (Hdirty _ _ Hpg). eexists. split; [reflexivity|].
  unfold fresh_after. cbn [free_list pages replacer pages_map next_page_id].
  split; [done|]. split; [by rewrite length_insert|]. split.
  { intros j pg'. rewrite list_lookup_insert. case_decide; [intros [= <-]; done|].
    apply Hdirty. }
  split.
  { apply set_evictable_false_not_evictable, record_access_not_evictable, Hev. }
  split; [cbn; by rewrite Hnext|].
  intros p. cbn [pages_map]. rewrite Hnext, lookup_insert. case_decide as Ep.
  - subst p. rewrite decide_True by lia. done.
  - rewrite Hmap. destruct (decide (1 <= p <= i)), (decide (1 <= p <= S i)); done || lia.
Qed.

Lemma fresh_after_full (n : nat) (s : BufferPoolManager) :
  fresh_after n n s -> exists s', new_page s = BOk None s' /\ fresh_after n n s'.
Proof.
  intros Hs. pose proof Hs as (Hfl & Hlen & Hdirty & Hev & Hnext & Hmap).
  unfold new_page, take_frame. rewrite Hfl, Nat.sub_diag. cbn [seq last].
  destruct (LruK.evict (replacer s) (LruK.clock (replacer s))) as [f|] eqn:E.
  - apply ReplacerExtra.evict_In in E as (nd & Hin & He). by rewrite (Hev _ _ Hin) in He.
  - eexists. split; [reflexivity|]. unfold fresh_after. cbn. rewrite Nat.sub_diag.
    split; [done|]. split; [done|]. split; [done|]. split; [done|]. split; done.
Qed.

Lemma fresh_after_run (n m i : nat) (s : BufferPoolManager) :
  i + m = n -> fresh_after n i s ->
  exists s', new_page_n (S m) s = BOk (map Some (rev (seq 0 m)) ++ [None]) s' /\ fresh_after n n s'.
Proof.
  revert i s. induction m as [|m IH]; intros i s Him Hs.
  - replace i with n in Hs by lia. destruct (fresh_after_full n s Hs) as (s' & E & Hs').
    exists s'. cbn [new_page_n]. rewrite E. done.
  - destruct (fresh_after_step n i s ltac:(lia) Hs) as (s1 & E1 & Hs1).
    destruct (IH (S i) s1 ltac:(lia) Hs1) as (s2 & E2 & Hs2).
    exists s2. split; [|done].
    change (new_page_n (S (S m)) s) with
      (match new_page s with
       | BOk r s' => match new_page_n (S m) s' with
                     | BOk rs s'' => BOk (r :: rs) s''
                     | BErr s'' => BErr s''
                     | Stuck => Stuck
                     end
       | BErr s' => BErr s'
       | Stuck => Stuck
       end).
    rewrite E1, E2, seq_S, rev_app_distr. cbn. do 3 f_equal. lia.
Qed.

(** With [replacer_k > 0] (which [LruKNode::new] asserts), [n] calls of
    [new_page] on a fresh pool of [n] frames return the frames
    [n - 1], ..., [0] (popped from the end of the free list) under the page
    ids [1], ..., [n]; the next call returns [None]: no frame is free and
    the replacer holds every frame as not evictable. *)
Theorem new_page_fresh_pool (n k : nat) (Hk : 0 < k) :
  exists s', new_page_n (S n) (new n k) = BOk (map Some (rev (seq 0 n)) ++ [None]) s' /\
    next_page_id s' = n /\
    forall p, pages_map s' !! p = if decide (1 <= p <= n) then Some (n - p) else None.
Proof.
  destruct (fresh_after_run n n 0 (new n k)) as (s' & E & (_ & _ & _ & _ & Hnext & Hmap)).
  - lia.
  - split; [cbn; by rewrite Nat.sub_0_r|]. split; [apply length_replicate|]. split.
    { intros j pg (-> & _)%lookup_replicate_1. done. }
    split; [done|]. split; [done|].
    intros p. cbn [pages_map new]. rewrite lookup_empty. by rewrite decide_False by lia.
  - exists s'. done.
Qed.

(** [unpin_page] on a resident page whose pin count is already 0: the
    counter wraps to [2^64 - 1], so the frame counts as pinned, the replacer
    is left alone and [delete_page] refuses the page. *)
Theorem unpin_page_unpinned_wraps (s : BufferPoolManager) (p f : nat) (pg : Page) (dirty : bool)
    (Hp : pages_map s !! p = Some f) (Hf : pages s !! f = Some pg) (H0 : pin_count pg = 0%Z) :
  exists s', unpin_page s p dirty = BOk tt s' /\
    option_map pin_count (pages s' !! f) = Some (2 ^ 64 - 1)%Z /\
    replacer s' = replacer s /\ delete_page s' p = BErr s'.
Proof.
  assert (Hw : ((0 - 1) mod 2 ^ 64 = 2 ^ 64 - 1)%Z) by reflexivity.
  unfold unpin_page. rewrite Hp, Hf.
  assert (Hpin : is_pinned (set_dirty (unpin pg) dirty) = true).
  { unfold is_pinned, set_dirty, unpin. cbn [pin_count]. rewrite H0, Hw. reflexivity. }
  rewrite Hpin. eexists. split; [reflexivity|].
  assert (Hf' : pages s !! f <> None) by (by rewrite Hf).
  cbn [pages replacer]. rewrite list_lookup_insert_eq by (apply lookup_lt_is_Some_1; by eexists).
  split; [cbn; by rewrite H0|]. split; [done|].
  unfold delete_page. cbn [pages_map pages]. rewrite Hp.
  rewrite list_lookup_insert_eq by (apply lookup_lt_is_Some_1; by eexists).
  by rewrite Hpin.
Qed.

Lemma new_page_fresh_pool_witness :
  0 < 2 /\
  exists s', new_page_n 4 (new 3 2) = BOk (map Some (rev (seq 0 3)) ++ [None]) s' /\
    next_page_id s' = 3 /\
    forall p, pages_map s' !! p = if decide (1 <= p <= 3) then Some (3 - p) else None.
Proof.
  assert (Hk : 0 < 2) by lia. split; [exact Hk|]. exact (new_page_fresh_pool 3 2 Hk).
Defined.

Lemma unpin_page_unpinned_wraps_witness :
  let s := match new_page (new 1 2) with BOk _ s => s | _ => new 1 2 end in
  pages_map s !! 1 = Some 0 /\ pages s !! 0 = Some (set_id page_new 1) /\
  pin_count (set_id page_new 1) = 0%Z /\
  exists s', unpin_page s 1 true = BOk tt s' /\
    option_map pin_count (pages s' !! 0) = Some (2 ^ 64 - 1)%Z /\
    replacer s' = replacer s /\ delete_page s' 1 = BErr s'.
Proof.
  intros s.
  assert (Hp : pages_map s !! 1 = Some 0) by reflexivity.
  assert (Hf : pages s !! 0 = Some (set_id page_new 1)) by reflexivity.
  assert (H0 : pin_count (set_id page_new 1) = 0%Z) by reflexivity.
  split; [exact Hp|]. split; [exact Hf|]. split; [exact H0|].
  exact (unpin_page_unpinned_wraps s 1 0 (set_id page_new 1) true Hp Hf H0).
Defined.

(** [fetch_page_read] / [fetch_page_write] never bring in a page that is
    not resident: with no frame to take they return [None] and leave the
    pool as it is; with a free frame they block on the read's
    [receiver.recv()]. *)
Theorem fetch_page_not_resident (s : BufferPoolManager) (p : nat)
    (Hp : pages_map s !! p = None) :
  (forall f s', fetch_page s p <> BOk (Some f) s') /\
  (free_list s <> [] -> fetch_page s p = Stuck) /\
  (free_list s = [] -> LruK.evict (replacer s) (LruK.clock (replacer s)) = None ->
   fetch_page s p = BOk None s).
Proof.
  unfold fetch_page, take_frame. rewrite Hp. split; [|split].
  - intros f s'. destruct (last (free_list s)), (LruK.evict (replacer s) (LruK.clock (replacer s))); cbn;
      try destruct (pages s !! _); done.
  - intros Hne. destruct (last (free_list s)) eqn:E.
    + by destruct (pages s !! _).
    + apply last_None in E. done.
  - intros Hfl He. rewrite Hfl. cbn [last]. rewrite He.
    destruct s as [fl pgs r pm np]. cbn in *. by subst fl.
Qed.

Lemma fetch_page_not_resident_witness :
  let s := new 1 2 in
  pages_map s !! 5 = None /\
  ((forall f s', fetch_page s 5 <> BOk (Some f) s') /\
   (free_list s <> [] -> fetch_page s 5 = Stuck) /\
   (free_list s = [] -> LruK.evict (replacer s) (LruK.clock (replacer s)) = None ->
    fetch_page s 5 = BOk None s)).
Proof.
  intros s. assert (Hp : pages_map s !! 5 = None) by reflexivity.
  split; [exact Hp|]. exact (fetch_page_not_resident s 5 Hp).
Defined.

End BpmExtra.

Module TableExtra.
Import Directory Table Invariants DirInvariant TableInvariants TableMonad InsertInvariant
       ContentDefs MapFacts InsertContent InsertKV InsertGet.

Lemma increment_global_depth_err (d : ExtendibleHTableDirectoryPage) (e : ExtendibleHashTableError) :
  increment_global_depth d = RErr e -> e = DirectoryMaxSizeReached.
Proof.
  unfold increment_global_depth. destruct (global_depth d =? max_depth d); [by intros [= <-]|].
  destruct (copy_loop _ _ _ _ _) as [[]|]; [|discriminate].
  by destruct (Z.of_nat _ <? u32_max)%Z.
Qed.

Lemma split_double_err (d : ExtendibleHTableDirectoryPage) (b np : nat) (e : ExtendibleHashTableError) :
  split_double d b np = RErr e -> e = DirectoryMaxSizeReached.
Proof.
  unfold split_double. destruct (increment_local_depth d b) as [d1|]; [|discriminate].
  destruct (increment_global_depth d1) eqn:E; [|intros [= <-]; by eapply increment_global_depth_err|discriminate].
  destruct (get_split_image_index _ _); [|discriminate]. by destruct (set_bucket_page_id _ _ _).
Qed.

Section Errors.
Context {K V : Type} `{EqDecision K}.
Variable hash_string : K -> nat.
Variable drain_order : list (K * V) -> list (K * V).

Implicit Types (s : Pool (K:=K) (V:=V)).

Lemma reinsert_err (ins : K -> V -> ExtendibleHTableDirectoryPage -> M ExtendibleHTableDirectoryPage)
    (entries : list (K * V)) (D : ExtendibleHTableDirectoryPage) s :
  (forall k v D s, spec (ins k v D) s (λ _ _, True) (λ e _, e = DirectoryMaxSizeReached)) ->
  spec (reinsert_entries ins entries D) s (λ _ _, True) (λ e _, e = DirectoryMaxSizeReached).
Proof.
  intros Hins. revert D s. induction entries as [|[k v] rest IH]; intros D s; cbn [reinsert_entries].
  - by apply spec_ret.
  - eapply spec_bind; [apply Hins| |done]. intros D' s' _. apply IH.
Qed.

Lemma insert_internal_err (fuel : nat) (t : ExtendibleHashTable) (key : K) (value : V)
    (D : ExtendibleHTableDirectoryPage) (dp : nat) s :
  spec (insert_internal hash_string drain_order fuel t key value D dp) s
    (λ _ _, True) (λ e _, e = DirectoryMaxSizeReached).
Proof.
  revert key value D s. induction fuel as [|fuel IH]; intros key value D s; [apply spec_abort|].
  cbn [insert_internal]. eapply spec_bind with (P := λ _ _, True) (E' := λ e _, e = DirectoryMaxSizeReached); [|intros [[B bp] D1] s1 _|done].
  { destruct (get_bucket_page_id D _) as [bp|].
    - apply spec_bind'. apply spec_fetch. intros pg _. apply spec_bind'. apply spec_unwrap.
      intros B _. by apply spec_ret.
    - apply spec_bind'. apply spec_new_page. intros _. apply spec_bind'. apply spec_unwrap.
      intros D1 _. by apply spec_ret. }
  cbv zeta. destruct (negb (Bucket.is_full B)).
  { apply spec_bind'. apply spec_set_data. apply spec_bind'. apply spec_set_data. by apply spec_ret. }
  apply spec_bind'. apply spec_unwrap. intros ld _.
  apply spec_bind'. apply spec_new_page. intros _.
  apply spec_bind'. apply spec_set_data.
  apply spec_bind'. apply spec_unwrap. intros ld' _.
  eapply spec_bind with (P := λ _ _, True) (E' := λ e _, e = DirectoryMaxSizeReached); [|intros D2 s2 _|done].
  { destruct (ld =? get_global_depth D1).
    - apply spec_lift_res; [done|]. intros e He. by eapply split_double_err.
    - apply spec_unwrap. done. }
  destruct (get_entries drain_order B) as [entries B'].
  apply spec_bind'. apply spec_set_data. apply spec_bind'. apply spec_set_data.
  apply reinsert_err. intros k v D3 s3. apply IH.
Qed.

(** [insert] reports no error other than [DirectoryMaxSizeReached]: the
    only [?] on a [Result] in [insert] and [insert_internal] is the one
    of [increment_global_depth]; every other failure is an [unwrap]. *)
Theorem insert_error_max_size (fuel : nat) (t : ExtendibleHashTable) (key : K) (value : V)
    s s' (e : ExtendibleHashTableError)
    (Hins : insert hash_string drain_order fuel t key value s = Failed e s') :
  e = DirectoryMaxSizeReached.
Proof.
  assert (H : spec (insert hash_string drain_order fuel t key value) s
                (λ _ _, True) (λ e _, e = DirectoryMaxSizeReached)).
  { unfold insert. apply spec_bind'. apply spec_fetch. intros hp _.
    apply spec_bind'. apply spec_unwrap. intros header _.
    apply spec_bind'. apply spec_unwrap. intros di _.
    eapply spec_bind with (P := λ _ _, True) (E' := λ e _, e = DirectoryMaxSizeReached); [|intros [D dp] s1 _|done].
    - destruct (Header.get_directory_page_id _ _) as [dp|].
      + apply spec_bind'. apply spec_fetch. intros pg _. apply spec_bind'. apply spec_unwrap.
        intros D _. by apply spec_ret.
      + apply spec_bind'. apply spec_new_page. intros _. apply spec_bind'. apply spec_unwrap.
        intros h' _. apply spec_bind'. apply spec_set_data. by apply spec_ret.
    - eapply spec_bind; [apply insert_internal_err| |done]. intros _ s2 _. by apply spec_ret. }
  unfold spec in H. by rewrite Hins in H.
Qed.
End Errors.
Section Reads.
Context {K V : Type} `{EqDecision K}.
Variable hash_string : K -> nat.
Variable drain_order : list (K * V) -> list (K * V).

Implicit Types (s : Pool (K:=K) (V:=V)).

Lemma get_done (t : ExtendibleHashTable) (k : K) s (r : option V) s' :
  get hash_string t k s = Done r s' -> s' = s /\ lookup_opt hash_string t s k = r.
Proof.
  unfold get, lookup_opt, view, route, bucket_at, bind, fetch, unwrap, ret, abort. cbv beta.
  destruct (pages s !! header_page_id t) as [hp|]; cbn [mbind option_bind]; [|discriminate].
  destruct (decode_header hp) as [h|]; cbn [mbind option_bind]; [|discriminate].
  destruct (Header.hash_to_directory_index h _) as [di|]; cbn [mbind option_bind]; [|discriminate].
  destruct (Header.get_directory_page_id h di) as [dp|]; cbn [mbind option_bind]; [|discriminate].
  destruct (pages s !! dp) as [pg|]; cbn [mbind option_bind]; [|discriminate].
  destruct (decode_directory pg) as [D|]; cbn [mbind option_bind]; [|discriminate].
  rewrite hash_to_bucket_index_mod. unfold get_bucket_page_id.
  destruct (bucket_page_ids D !! _) as [x|]; cbn [mbind option_bind]; [|discriminate].
  destruct (pages s !! x) as [bp|]; cbn [mbind option_bind]; [|discriminate].
  destruct (decode_bucket bp) as [B|]; cbn [mbind option_bind]; [|discriminate].
  intros [= <- <-]. done.
Qed.

(** On a reachable table, an [insert] that returns keeps every value
    [get] found before: a failed one for every key, a successful one for
    every other key. *)
Theorem insert_keeps_found (Hdrain : forall l, Permutation (drain_order l) l)
    (t : ExtendibleHashTable) (fuel : nat) (key : K) (value : V) s s' (k' : K) (v' : V)
    (Hreach : reachable hash_string drain_order t s)
    (Hget : get hash_string t k' s = Done (Some v') s) :
  (insert hash_string drain_order fuel t key value s = Done tt s' -> k' <> key ->
   get hash_string t k' s' = Done (Some v') s') /\
  (forall e, insert hash_string drain_order fuel t key value s = Failed e s' ->
   get hash_string t k' s' = Done (Some v') s').
Proof.
  pose proof (reachable_wf hash_string drain_order Hdrain t s Hreach) as Hwf.
  apply get_done in Hget as [_ Hl].
  pose proof (insert_wf hash_string drain_order Hdrain fuel t key value s Hwf) as H.
  unfold spec in H. split.
  - intros Hins Hne. rewrite Hins in H. destruct H as (Hwf' & _ & Hoth).
    apply get_found; [done|]. by rewrite Hoth.
  - intros e Hins. rewrite Hins in H. destruct H as (Hwf' & Hoth).
    apply get_found; [done|]. by rewrite Hoth.
Qed.

(** On a reachable table, once [get] returns for one key it returns
    (without panicking) for every key: the directory is installed, covers
    every hash, and each of its slots names a bucket page. *)
Theorem get_returns_for_all (Hdrain : forall l, Permutation (drain_order l) l)
    (t : ExtendibleHashTable) s (k0 : K) (r0 : option V)
    (Hreach : reachable hash_string drain_order t s)
    (Hget : get hash_string t k0 s = Done r0 s) :
  forall k, exists r, get hash_string t k s = Done r s.
Proof.
  destruct (reachable_wf hash_string drain_order Hdrain t s Hreach) as (slot & Hhdr & _ & Hslot).
  revert Hget. unfold get, bind, fetch, unwrap, ret, abort. cbv beta.
  rewrite Hhdr. cbn [decode_header]. rewrite !header_index_0. cbv beta iota.
  unfold Header.get_directory_page_id. cbn [Header.directory_page_ids lookup list_lookup].
  destruct slot as [dp|]; [|discriminate].
  destruct Hslot as (_ & _ & [(D & HD & Hsi & _ & Hok)|(HZ & _)]).
  - intros _ k. rewrite header_index_0. cbn [lookup list_lookup].
    rewrite HD. cbn [decode_directory]. rewrite hash_to_bucket_index_mod.
    unfold get_bucket_page_id.
    destruct (route_Some D (hash_string k) Hsi) as [x Hx]. unfold route in Hx. rewrite Hx.
    destruct (Hok _ _ Hx) as (B & HB & _). unfold bucket_at in HB.
    destruct (pages s !! x) as [bp|]; [|discriminate]. cbn [mbind option_bind] in HB.
    rewrite HB. by eexists.
  - rewrite HZ. cbn [decode_directory]. by rewrite hash_to_bucket_index_mod.
Qed.

(** A table created with [bucket_max_size = 0] never stores anything:
    every bucket is full from the start, so no [insert] succeeds. *)
Theorem insert_zero_bucket_size (Hdrain : forall l, Permutation (drain_order l) l)
    (t : ExtendibleHashTable) (fuel : nat) (key : K) (value : V) s s'
    (Hreach : reachable hash_string drain_order t s) (Hb : bucket_max_size t = 0) :
  insert hash_string drain_order fuel t key value s <> Done tt s'.
Proof.
  intros Hins.
  pose proof (insert_wf hash_string drain_order Hdrain fuel t key value s
                (reachable_wf hash_string drain_order Hdrain t s Hreach)) as H.
  unfold spec in H. rewrite Hins in H. destruct H as ((slot & Hhdr & _ & Hslot) & Hl & _).
  rewrite (lookup_opt_slot hash_string t s' slot key Hhdr) in Hl.
  destruct slot as [dp|]; [|discriminate]. cbn [mbind option_bind] in Hl.
  destruct Hslot as (_ & _ & [(D & HD & Hsi & _ & Hok)|(HZ & _)]).
  - rewrite HD in Hl. cbn [mbind option_bind decode_directory] in Hl.
    unfold view in Hl. destruct (route D (hash_string key)) as [x|] eqn:Hx; [|discriminate].
    cbn [mbind option_bind] in Hl. unfold route in Hx.
    destruct (Hok _ _ Hx) as (B & HB & Hmax & Hlen & _). rewrite HB in Hl.
    cbn [mbind option_bind] in Hl. unfold Bucket.get in Hl.
    destruct (Bucket.data B); cbn [length] in Hlen; [discriminate|lia].
  - rewrite HZ in Hl. cbn [mbind option_bind decode_directory] in Hl.
    by rewrite view_no_ids in Hl.
Qed.

End Reads.

Lemma insert_error_max_size_witness :
  let t := mkTable 0 1 1 in
  let h := λ k : nat, k in
  let dr := λ l : list (nat * nat), l in
  let p0 := match Table.new (K:=nat) (V:=nat) 0 1 (pool_init 8) with
            | Done _ p => p | _ => pool_init 0 end in
  let s := match insert h dr 10 t 0 0 p0 with Done _ p => p | _ => p0 end in
  let s' := match insert h dr 10 t 1 10 s with Failed _ p => p | _ => s end in
  insert h dr 10 t 1 10 s = Failed DirectoryMaxSizeReached s' /\
  DirectoryMaxSizeReached = DirectoryMaxSizeReached.
Proof.
  intros t h dr p0 s s'.
  assert (Hins : insert h dr 10 t 1 10 s = Failed DirectoryMaxSizeReached s')
    by (unfold s', s, p0, t; vm_compute; reflexivity).
  split; [exact Hins|]. exact (insert_error_max_size h dr 10 t 1 10 s s' _ Hins).
Defined.

Lemma insert_keeps_found_witness :
  let t := mkTable 3 2 1 in
  let h := λ k : nat, k in
  let dr := λ l : list (nat * nat), l in
  let p0 := match Table.new (K:=nat) (V:=nat) 3 2 (pool_init 8) with
            | Done _ p => p | _ => pool_init 0 end in
  let step p k := match insert h dr 10 t k (10 * k) p with
                  | Done _ p' => p' | _ => p end in
  let s := step (step p0 0) 1 in
  let s' := step s 2 in
  (forall l, Permutation (dr l) l) /\ reachable h dr t s /\ get h t 0 s = Done (Some 0) s /\
  ((insert h dr 10 t 2 20 s = Done tt s' -> 0 <> 2 -> get h t 0 s' = Done (Some 0) s') /\
   (forall e, insert h dr 10 t 2 20 s = Failed e s' -> get h t 0 s' = Done (Some 0) s')).
Proof.
  intros t h dr p0 step s s'.
  assert (Hd : forall l, Permutation (dr l) l) by (intros l; apply Permutation_refl).
  assert (Hr : reachable h dr t s).
  { apply (reachable_insert_ok _ _ t 10 1 10 (step p0 0));
      [|unfold s, step, p0, t; vm_compute; reflexivity].
    apply (reachable_insert_ok _ _ t 10 0 0 p0);
      [|unfold step, p0, t; vm_compute; reflexivity].
    apply (reachable_new _ _ t 3 2 (pool_init 8)). unfold p0, t. vm_compute. reflexivity. }
  assert (Hg : get h t 0 s = Done (Some 0) s) by (unfold s, step, p0, t; vm_compute; reflexivity).
  split; [exact Hd|]. split; [exact Hr|]. split; [exact Hg|].
  exact (insert_keeps_found h dr Hd t 10 2 20 s s' 0 0 Hr Hg).
Defined.

Lemma get_returns_for_all_witness :
  let t := mkTable 3 2 1 in
  let h := λ k : nat, k in
  let dr := λ l : list (nat * nat), l in
  let p0 := match Table.new (K:=nat) (V:=nat) 3 2 (pool_init 8) with
            | Done _ p => p | _ => pool_init 0 end in
  let s := match insert h dr 10 t 0 0 p0 with Done _ p' => p' | _ => p0 end in
  (forall l, Permutation (dr l) l) /\ reachable h dr t s /\ get h t 0 s = Done (Some 0) s /\
  forall k, exists r, get h t k s = Done r s.
Proof.
  intros t h dr p0 s.
  assert (Hd : forall l, Permutation (dr l) l) by (intros l; apply Permutation_refl).
  assert (Hr : reachable h dr t s).
  { apply (reachable_insert_ok _ _ t 10 0 0 p0); [|unfold s, p0, t; vm_compute; reflexivity].
    apply (reachable_new _ _ t 3 2 (pool_init 8)). unfold p0, t. vm_compute. reflexivity. }
  assert (Hg : get h t 0 s = Done (Some 0) s) by (unfold s, p0, t; vm_compute; reflexivity).
  split; [exact Hd|]. split; [exact Hr|]. split; [exact Hg|].
  exact (get_returns_for_all h dr Hd t s 0 (Some 0) Hr Hg).
Defined.

Lemma insert_zero_bucket_size_witness :
  let t := mkTable 2 0 1 in
  let h := λ k : nat, k in
  let dr := λ l : list (nat * nat), l in
  let s := match Table.new (K:=nat) (V:=nat) 2 0 (pool_init 8) with
           | Done _ p => p | _ => pool_init 0 end in
  (forall l, Permutation (dr l) l) /\ reachable h dr t s /\ bucket_max_size t = 0 /\
  insert h dr 10 t 0 0 s <> Done tt s.
Proof.
  intros t h dr s.
  assert (Hd : forall l, Permutation (dr l) l) by (intros l; apply Permutation_refl).
  assert (Hr : reachable h dr t s).
  { apply (reachable_new _ _ t 2 0 (pool_init 8)). unfold s, t. vm_compute. reflexivity. }
  assert (Hb : bucket_max_size t = 0) by reflexivity.
  split; [exact Hd|]. split; [exact Hr|]. split; [exact Hb|].
  exact (insert_zero_bucket_size h dr Hd t 10 0 0 s s Hr Hb).
Defined.

End TableExtra.
